(** * QLD course scaling and ATAR lookup: a shallow embedding in Rocq

    Sources embedded:
    - [atar scaling/build_lookup_final.py]: the blended aggregate curve and its
      forward monotonicity pass, the 0.05-band student distribution, the
      simulated best-5 aggregate curve, the final results table with its
      tie repair, and the reverse lookup [agg_to_atar_2025];
    - [course scaling/qld_course_scales_app.py]: the subject record,
      [build_general], [auto_optimize_subject], the Min/PZ drag handler and
      the Reset action;
    - [atar scaling/build_course_scales_2025.py]: [process_general_subject].

    Python floats are modelled by exact rationals [Q]; Python's [round(x, 2)]
    rounds the exact value half-to-even at two decimals ([round2]).
    numpy's least-squares polynomial fits are library code and are kept
    abstract: every statement about the optimizer holds for any fitting
    function [fit_poly_4] / [fit_poly_3]. *)

From Stdlib Require Import ZArith QArith Qpower Qminmax Qabs Lia Lqa List Permutation.
From Stdlib Require String DecimalString.
From Stdlib Require Import Sorted.
Import ListNotations.

Open Scope Q_scope.

(* ================================================================== *)
(** ** Numeric helpers *)

(** Round half to even of a rational to an integer. *)
Definition round_half_even (q : Q) : Z :=
  let n := Qnum q in
  let d := Zpos (Qden q) in
  let f := (n / d)%Z in
  let r := (n mod d)%Z in
  match Z.compare (2 * r) d with
  | Lt => f
  | Gt => (f + 1)%Z
  | Eq => if Z.even f then f else (f + 1)%Z
  end.

(** Python [round(x, 2)]. *)
Definition round2 (x : Q) : Q := round_half_even (x * 100) # 100.

(** [max(a, b)] and [min(a, b)] on numbers. *)
Definition qmax (a b : Q) : Q := if Qlt_le_dec a b then b else a.
Definition qmin (a b : Q) : Q := if Qlt_le_dec b a then b else a.

(** Adjacent pairs of a list all related by [R]. *)
Fixpoint chain {A} (R : A -> A -> Prop) (l : list A) : Prop :=
  match l with
  | x :: ((y :: _) as l') => R x y /\ chain R l'
  | _ => True
  end.

(* ================================================================== *)
(** ** Final results table and its tie repair (build_lookup_final.py) *)

Module Results.

(** A row [(atar, agg, band_students, cumulative, cumulative_pct)]. *)
Record row := mkRow {
  atar : Q;
  agg : Q;
  students : Z;
  cumul : Z;
  cum_pct : Q
}.

(** [results.append((atar, round(agg_lookup.get(atar, 0), 2), ...))] for
    every band of [sorted_bands]; [agg_lookup] already includes the
    default 0 of [.get]. *)
Definition build_results (sorted_bands : list Q) (agg_lookup : Q -> Q)
    (band_students cumulative : Q -> Z) (total_students : Z) : list row :=
  map (fun band =>
         mkRow band (round2 (agg_lookup band)) (band_students band)
           (cumulative band)
           (round2 (inject_Z (cumulative band) / inject_Z total_students * 100)))
    sorted_bands.

(** One step of the loop: [results[i]] checked against the (already
    repaired) [results[i-1]]. *)
Definition fix_row (prev r : row) : row :=
  if Qle_bool (agg prev) (agg r)
  then mkRow (atar r) (round2 (agg prev - (1 # 100))) (students r) (cumul r) (cum_pct r)
  else r.

Fixpoint fix_from (prev : row) (l : list row) : list row :=
  match l with
  | [] => []
  | r :: l' => let r' := fix_row prev r in r' :: fix_from r' l'
  end.

(** [for i in range(1, len(results)): if results[i][1] >= results[i-1][1]: ...] *)
Definition fix_ties (results : list row) : list row :=
  match results with
  | [] => []
  | r :: l => r :: fix_from r l
  end.

(** The final table: built rows, then the tie repair. *)
Definition final_results sorted_bands agg_lookup band_students cumulative total :=
  fix_ties (build_results sorted_bands agg_lookup band_students cumulative total).

(** [sorted(results, key=lambda x: x[1])]: a stable sort ascending by
    aggregate (insertion sort; any stable sort gives the same list). *)
Fixpoint insert_by_agg (r : row) (l : list row) : list row :=
  match l with
  | [] => [r]
  | y :: l' => if Qle_bool (agg r) (agg y) then r :: l else y :: insert_by_agg r l'
  end.

Fixpoint sort_by_agg (l : list row) : list row :=
  match l with
  | [] => []
  | r :: l' => insert_by_agg r (sort_by_agg l')
  end.

(** [np.searchsorted(a, v)] (side='left'): the first index [i] with
    [v <= a[i]], or [len(a)]; the linear scan returns what the binary
    search returns on a sorted array. *)
Fixpoint searchsorted (a : list Q) (v : Q) : nat :=
  match a with
  | [] => O
  | y :: a' => if Qle_bool v y then O else S (searchsorted a' v)
  end.

(** [agg_to_atar_2025(aggregate)], with [rev_aggs] / [rev_atars] built from
    [results]; [None] where Python raises (an empty table). *)
Definition agg_to_atar_2025 (results : list row) (aggregate : Q) : option Q :=
  let results_by_agg := sort_by_agg results in
  let rev_aggs := map agg results_by_agg in
  let rev_atars := map atar results_by_agg in
  match rev_aggs, rev_atars with
  | a0 :: _, t0 :: _ =>
      if Qle_bool aggregate a0 then Some t0
      else if Qle_bool (last rev_aggs 0) aggregate then Some (last rev_atars 0)
      else
        let idx := searchsorted rev_aggs aggregate in
        let lo := pred idx in
        let hi := idx in
        let frac := (aggregate - nth lo rev_aggs 0) / (nth hi rev_aggs 0 - nth lo rev_aggs 0) in
        Some (nth lo rev_atars 0 + frac * (nth hi rev_atars 0 - nth lo rev_atars 0))
  | _, _ => None
  end.

(** Reference form used in the proofs: the piecewise-linear function through
    the knots [(a_i, t_i)], walked segment by segment and constant outside. *)
Definition lerp (a0 a1 t0 t1 x : Q) : Q := t0 + (x - a0) / (a1 - a0) * (t1 - t0).

Fixpoint pw (a t : list Q) (x : Q) : Q :=
  match a, t with
  | a0 :: ((a1 :: _) as a'), t0 :: ((t1 :: _) as t') =>
      if Qle_bool x a0 then t0
      else if Qle_bool x a1 then lerp a0 a1 t0 t1 x
      else pw a' t' x
  | _, t0 :: _ => t0
  | _, [] => 0
  end.

End Results.

(* ================================================================== *)
(** ** The blended aggregate curve: monotonicity pass and clamp
       (build_lookup_final.py) *)

Module Blend.

(** One step of [if blended[i] <= blended[i-1]: blended[i] = blended[i-1] + 0.01]. *)
Definition bump (prev x : Q) : Q :=
  if Qle_bool x prev then prev + (1 # 100) else x.

Fixpoint forward_from (prev : Q) (l : list Q) : list Q :=
  match l with
  | [] => []
  | x :: l' => let x' := bump prev x in x' :: forward_from x' l'
  end.

(** [for i in range(1, len(blended)): ...] over the grid-indexed array. *)
Definition enforce_monotone (blended : list Q) : list Q :=
  match blended with
  | [] => []
  | x :: l => x :: forward_from x l
  end.

(** [np.minimum(blended, 500.0)] then [np.maximum(blended, 0.0)], elementwise. *)
Definition clamp (x : Q) : Q := qmax (qmin x 500) 0.

(** The array after the pass and the cap. *)
Definition finalize (blended : list Q) : list Q := map clamp (enforce_monotone blended).

(** The weighted blend at one grid point [a]: [interp_prev] / [interp_2023]
    are the two PCHIP interpolators (library code, kept abstract),
    [prev_lo]..[y23_hi] the first and last reference ATARs, [y23_agg0] the
    first 2023 aggregate and [slope0] the 2023 derivative at [y23_lo]. *)
Section Weighting.
Variables interp_prev interp_2023 : Q -> Q.
Variables prev_lo prev_hi y23_lo y23_hi y23_agg0 slope0 : Q.

Definition W_PREV : Q := 60 # 100.
Definition W_2023 : Q := 40 # 100.
Definition FADE_ZONE_PREV : Q := 8.
Definition FADE_ZONE_2023 : Q := 2.

Definition in_prev (a : Q) : bool := Qle_bool prev_lo a && Qle_bool a prev_hi.
Definition in_2023 (a : Q) : bool := Qle_bool y23_lo a && Qle_bool a y23_hi.

(** [(w_p, w_2)] after the boundary fades. *)
Definition blend_weights (a : Q) : Q * Q :=
  let w_p := if in_prev a then W_PREV else 0 in
  let w_2 := if in_2023 a then W_2023 else 0 in
  let w_p := if in_prev a && negb (Qle_bool FADE_ZONE_PREV (a - prev_lo))
             then let t := (a - prev_lo) / FADE_ZONE_PREV in w_p * (t * t * t)
             else w_p in
  let w_2 := if in_2023 a && negb (Qle_bool FADE_ZONE_2023 (a - y23_lo))
             then let fade := (a - y23_lo) / FADE_ZONE_2023 in w_2 * fade
             else w_2 in
  (w_p, w_2).

(** [blended[i]] for [a = atar_grid[i]], before the smooth extension. *)
Definition blended_at (a : Q) : Q :=
  let '(w_p, w_2) := blend_weights a in
  let total_w := w_p + w_2 in
  if negb (Qle_bool total_w 0) then
    let v_p := if in_prev a then interp_prev a else 0 in
    let v_2 := if in_2023 a then interp_2023 a else 0 in
    (w_p * v_p + w_2 * v_2) / total_w
  else y23_agg0 + slope0 * (a - y23_lo).

End Weighting.

End Blend.

(* ================================================================== *)
(** ** [clean_and_average] (build_lookup_final.py) *)

Module Reference.

(** [np.argsort(atar)] applied to the [(agg, atar)] pairs: a sort ascending
    by ATAR.  numpy's default sort is not stable, so the order inside a run
    of equal ATARs may differ; only the mean of each run is used. *)
Fixpoint insert_by_atar (p : Q * Q) (l : list (Q * Q)) : list (Q * Q) :=
  match l with
  | [] => [p]
  | y :: l' => if Qle_bool (snd p) (snd y) then p :: l else y :: insert_by_atar p l'
  end.

Definition sort_by_atar (l : list (Q * Q)) : list (Q * Q) := fold_right insert_by_atar [] l.

(** The [while i < len(atar_s)] loop: each run of equal ATARs, with the
    run's first ATAR and its aggregates. *)
Fixpoint group_runs (l : list (Q * Q)) : list (Q * list Q) :=
  match l with
  | [] => []
  | (g, t) :: l' =>
      match group_runs l' with
      | (t', gs) :: rest =>
          if Qeq_bool t' t then (t, g :: gs) :: rest else (t, [g]) :: (t', gs) :: rest
      | [] => [(t, [g])]
      end
  end.

(** [np.mean]. *)
Definition mean (l : list Q) : Q := fold_left Qplus l 0 / inject_Z (Z.of_nat (length l)).

Definition grouped (data : list (Q * Q)) : list (Q * list Q) := group_runs (sort_by_atar data).

(** [clean_and_average(data)]: the distinct ATARs and, after the upward
    monotonicity pass (the same step as the blended curve's), the mean
    aggregate of each. *)
Definition clean_and_average (data : list (Q * Q)) : list Q * list Q :=
  let gs := grouped data in
  (map fst gs, Blend.enforce_monotone (map (fun g => mean (snd g)) gs)).

End Reference.

(* ================================================================== *)
(** ** Subject curve records and the boundary optimizer
       (qld_course_scales_app.py) *)

Module Subject.

Inductive subject_type := General | NoData | Applied | Vet.

Definition is_general (t : subject_type) : bool :=
  match t with General => true | _ => false end.

(** [class SubjectData]. *)
Record subject := mkSubject {
  name : String.string; code : String.string; stype : subject_type; subject_id : Z;
  min_x : Q; pzx : Q; p25x : Q; p50x : Q; p75x : Q; p90x : Q; p99x : Q; max_x : Q;
  min_y : Q; pzy : Q; p25y : Q; p50y : Q; p75y : Q; p90y : Q; p99y : Q; max_y : Q;
  X4 : Q; X3 : Q; X2 : Q; X1 : Q; X0 : Q;
  Z3 : Q; Z2 : Q; Z1 : Q; Z0 : Q;
  max_fit_error : Q;
  committed : bool
}.

(** [SUBJECT_IDS], the subject-ID lookup (in the order written). *)
Section SubjectIds.
Import String.StringSyntax.
Local Open Scope string_scope.
Local Open Scope Z_scope.

Definition SUBJECT_IDS : list (String.string * Z) := [
  ("Aboriginal and Torres Strait Islander Studies", 2);
  ("Accounting", 3);
  ("Aerospace Systems", 4);
  ("Agricultural Science", 6);
  ("Ancient History", 7);
  ("Biology", 10);
  ("Business", 12);
  ("Chemistry", 15);
  ("Chinese", 17);
  ("Chinese Extension", 16);
  ("Dance", 18);
  ("Design", 20);
  ("Digital Solutions", 21);
  ("Drama", 22);
  ("Earth and Environmental Science", 25);
  ("Economics", 26);
  ("Engineering", 27);
  ("English", 31);
  ("English and Literature Extension", 29);
  ("English as an Additional Language", 30);
  ("Film Television and New Media", 35);
  ("Food and Nutrition", 36);
  ("French", 38);
  ("French Extension", 37);
  ("General Mathematics", 40);
  ("Geography", 41);
  ("German", 43);
  ("German Extension", 42);
  ("Health", 44);
  ("Italian", 49);
  ("Japanese", 50);
  ("Legal Studies", 51);
  ("Literature", 53);
  ("Marine Science", 54);
  ("Mathematical Methods", 55);
  ("Modern History", 57);
  ("Music", 61);
  ("Music Extension (Composition)", 58);
  ("Music Extension (Musicology)", 59);
  ("Music Extension (Performance)", 60);
  ("Philosophy and Reason", 64);
  ("Physical Education", 65);
  ("Physics", 66);
  ("Psychology", 67);
  ("Spanish", 71);
  ("Specialist Mathematics", 72);
  ("Study of Religion", 74);
  ("Visual Art", 76);
  ("Korean", 140);
  ("Vietnamese", 98);
  ("Arabic", 97);
  ("Indonesian", 142);
  ("Latin", 144);
  ("Modern Greek", 145);
  ("Polish", 146);
  ("Punjabi", 147);
  ("Russian", 148);
  ("Tamil", 149);
  ("Agricultural Practices", 5);
  ("Aquatic Practices", 8);
  ("Arts in Practice", 9);
  ("Building and Construction Skills", 11);
  ("Business Studies", 13);
  ("Dance in Practice", 19);
  ("Drama in Practice", 23);
  ("Early Childhood Studies", 24);
  ("Engineering Skills", 28);
  ("Essential English", 32);
  ("Essential Mathematics", 33);
  ("Fashion", 34);
  ("Furnishing Skills", 39);
  ("Hospitality Practices", 45);
  ("Industrial Graphics Skills", 46);
  ("Industrial Technology Skills", 47);
  ("Information and Communication Technology", 48);
  ("Media Arts in Practice", 56);
  ("Music in Practice", 62);
  ("Religion and Ethics", 68);
  ("Science in Practice", 69);
  ("Social and Community Studies", 70);
  ("Sport and Recreation", 73);
  ("Tourism", 75);
  ("Visual Arts in Practice", 80)
].

End SubjectIds.

(** [SUBJECT_IDS.get(name, 0)]. *)
Definition subject_id_of (nm : String.string) : Z :=
  match find (fun kv => String.eqb (fst kv) nm) SUBJECT_IDS with
  | Some kv => snd kv
  | None => 0%Z
  end.

(** [SubjectData(name, code, subject_type)]. *)
Definition new_subject (nm cd : String.string) (t : subject_type) : subject :=
  mkSubject nm cd t (subject_id_of nm) 10 0 0 0 0 0 0 0  0 0 0 0 0 0 0 0  0 0 0 0 0  0 0 0 0  0 false.

(** Setting the Min / PZ anchor fields ([s.min_x, s.pzx, s.pzy, s.min_y = ...]). *)
Definition set_lower (s : subject) (mnx pzx' mny pzy' : Q) : subject :=
  mkSubject (name s) (code s) (stype s) (subject_id s)
    mnx pzx' (p25x s) (p50x s) (p75x s) (p90x s) (p99x s) (max_x s)
    mny pzy' (p25y s) (p50y s) (p75y s) (p90y s) (p99y s) (max_y s)
    (X4 s) (X3 s) (X2 s) (X1 s) (X0 s) (Z3 s) (Z2 s) (Z1 s) (Z0 s)
    (max_fit_error s) (committed s).

(** [x < y] on numbers, as a boolean. *)
Definition qltb (x y : Q) : bool := negb (Qle_bool y x).

Definition quartic := (Q * Q * Q * Q * Q)%type.
Definition cubic := (Q * Q * Q * Q)%type.

(** [X4*x**4 + X3*x**3 + X2*x**2 + X1*x + X0]. *)
Definition eval4 (c : quartic) (x : Q) : Q :=
  let '(a4, a3, a2, a1, a0) := c in a4 * x^4 + a3 * x^3 + a2 * x^2 + a1 * x + a0.

(** [4*X4*x**3 + 3*X3*x**2 + 2*X2*x + X1]. *)
Definition deriv4 (c : quartic) (x : Q) : Q :=
  let '(a4, a3, a2, a1, _) := c in 4 * a4 * x^3 + 3 * a3 * x^2 + 2 * a2 * x + a1.

(** [err = 0; for x, y in zip(x_all, y_all): err = max(err, abs(yc - y))]. *)
Definition max_abs_residual (c : quartic) (xs ys : list Q) : Q :=
  fold_left (fun e xy => qmax e (Qabs (eval4 c (fst xy) - snd xy))) (combine xs ys) 0.

(** [min_gap = max(1, min(pdf_xs[i+1] - pdf_xs[i] for i in range(4)))]. *)
Definition min_gap_of (a25 a50 a75 a90 a99 : Q) : Q :=
  qmax 1 (qmin (qmin (qmin (a50 - a25) (a75 - a50)) (a90 - a75)) (a99 - a90)).

Definition min_gap (s : subject) : Q :=
  min_gap_of (p25x s) (p50x s) (p75x s) (p90x s) (p99x s).

(** [np.polyfit(xs, ys, 2)] through three points followed by [np.polyval]:
    the interpolating quadratic (Lagrange form). *)
Definition quad_through (x0 x1 x2 y0 y1 y2 x : Q) : Q :=
  y0 * ((x - x1) * (x - x2)) / ((x0 - x1) * (x0 - x2)) +
  y1 * ((x - x0) * (x - x2)) / ((x1 - x0) * (x1 - x2)) +
  y2 * ((x - x0) * (x - x1)) / ((x2 - x0) * (x2 - x1)).

(** [eval_poly(coeffs, x)], used to plot the curves:
    [for i, c in enumerate(coeffs): result += c * x ** (len(coeffs) - 1 - i)]. *)
Definition eval_poly (coeffs : list Q) (x : Q) : Q :=
  fst (fold_left (fun acc c =>
                    (fst acc + c * x ^ Z.of_nat (length coeffs - 1 - snd acc), S (snd acc)))
                 coeffs (0, O)).

(** [build_nodata(code, name)]. *)
Definition build_nodata (cd nm : String.string) : subject :=
  let s := new_subject nm cd NoData in
  set_lower s 10 (pzx s) (min_y s) (pzy s).

(** [build_applied(code, name, c_val, b_val, a_val)]. *)
Definition build_applied (cd nm : String.string) (c_val b_val a_val : Q) : subject :=
  let s := new_subject nm cd Applied in
  mkSubject (name s) (code s) (stype s) (subject_id s)
    10 (pzx s) (p25x s) (p50x s) (p75x s) (p90x s) (p99x s) (max_x s)
    (min_y s) (pzy s) (p25y s) c_val b_val a_val (p99y s) (max_y s)
    (X4 s) (X3 s) (X2 s) (X1 s) (X0 s) (Z3 s) (Z2 s) (Z1 s) (Z0 s)
    (max_fit_error s) (committed s).

(** [build_vet(name, sub_id, scaled_val)]; [str(sub_id)] is the decimal
    string of the integer. *)
Definition build_vet (nm : String.string) (sub_id : Z) (scaled_val : Q) : subject :=
  let s := new_subject nm (DecimalString.NilZero.string_of_int (Z.to_int sub_id)) Vet in
  let v := scaled_val in
  mkSubject (name s) (code s) (stype s) sub_id
    0 v v v v v v v
    (min_y s) v v v v v v v
    (X4 s) (X3 s) (X2 s) (X1 s) (X0 s) (Z3 s) (Z2 s) (Z1 s) (Z0 s)
    (max_fit_error s) (committed s).

(** The subjects Auto-Fit and Reset act on:
    [s.subject_type == 'general' and s.p25x > 0]. *)
Definition eligible (s : subject) : bool := is_general (stype s) && qltb 0 (p25x s).

Section Fitting.
(** numpy's [Polynomial.fit(..., deg=4)] / [deg=3], as used by [fit_poly_4]
    and [fit_poly_3]: any fitting function. *)
Variable fit_poly_4 : list Q -> list Q -> quartic.
Variable fit_poly_3 : list Q -> list Q -> cubic.

Definition anchors_x (s : subject) : list Q :=
  [min_x s; pzx s; p25x s; p50x s; p75x s; p90x s; p99x s; max_x s].
Definition anchors_y (s : subject) : list Q :=
  [min_y s; pzy s; p25y s; p50y s; p75y s; p90y s; p99y s; max_y s].

(** [SubjectData.compute_polynomials]. *)
Definition compute_polynomials (s : subject) : subject :=
  if negb (is_general (stype s)) || Qeq_bool (p25x s) 0 then s else
  let x_all := anchors_x s in
  let y_all := anchors_y s in
  let c4 := fit_poly_4 x_all y_all in
  let '(x4, x3, x2, x1, x0) := c4 in
  let '(z3, z2, z1, z0) :=
      fit_poly_3 [min_x s; pzx s; p25x s; p50x s] [min_y s; pzy s; p25y s; p50y s] in
  mkSubject (name s) (code s) (stype s) (subject_id s)
    (min_x s) (pzx s) (p25x s) (p50x s) (p75x s) (p90x s) (p99x s) (max_x s)
    (min_y s) (pzy s) (p25y s) (p50y s) (p75y s) (p90y s) (p99y s) (max_y s)
    x4 x3 x2 x1 x0 z3 z2 z1 z0
    (max_abs_residual c4 x_all y_all) (committed s).

(** The search bounds of [auto_optimize_subject]. *)
Definition min_x_lo (s : subject) : Q := 0.
Definition min_x_hi (s : subject) : Q := p25x s - 2 * min_gap s.
Definition pzy_lo (s : subject) : Q := 1 # 10.
Definition pzy_hi (s : subject) : Q := p25y s * (95 # 100).

(** [mx = min_x_lo + (min_x_hi - min_x_lo) * mi / n_mx] with [n_mx = 40]. *)
Definition grid_mx (s : subject) (mi : nat) : Q :=
  min_x_lo s + (min_x_hi s - min_x_lo s) * inject_Z (Z.of_nat mi) / 40.

(** [pzy = pzy_lo + (pzy_hi - pzy_lo) * pyi / n_pzy] with [n_pzy = 30]. *)
Definition grid_pzy (s : subject) (pyi : nat) : Q :=
  pzy_lo s + (pzy_hi s - pzy_lo s) * inject_Z (Z.of_nat pyi) / 30.

Definition grid_pzx (s : subject) (mi : nat) : Q := (grid_mx s mi + p25x s) / 2.

Definition cell_x (s : subject) (mi : nat) : list Q :=
  [grid_mx s mi; grid_pzx s mi; p25x s; p50x s; p75x s; p90x s; p99x s; max_x s].
Definition cell_y (s : subject) (pyi : nat) : list Q :=
  [0; grid_pzy s pyi; p25y s; p50y s; p75y s; p90y s; p99y s; max_y s].

(** The derivative check at [x = mx + (max_x - mx) * t / 50], [t = 0..50]:
    rejected as soon as one sample is below [-0.001]. *)
Definition monotonic (s : subject) (mx : Q) (c : quartic) : bool :=
  forallb (fun t => negb (qltb (deriv4 c (mx + (max_x s - mx) * inject_Z (Z.of_nat t) / 50))
                               (- (1 # 1000))))
          (seq 0 51).

(** One grid cell: [Some err] when its fit passes the derivative check. *)
Definition cell_eval (s : subject) (mi pyi : nat) : option Q :=
  let c4 := fit_poly_4 (cell_x s mi) (cell_y s pyi) in
  if monotonic s (grid_mx s mi) c4
  then Some (max_abs_residual c4 (cell_x s mi) (cell_y s pyi))
  else None.

Definition candidate := (Q * Q * Q)%type.

(** [if err < best_err: best_err = err; best = (mx, pzx, pzy)], with
    [best_err = inf] represented by [best = None]. *)
Definition scan_step (s : subject) (best : option (Q * candidate)) (mi pyi : nat)
    : option (Q * candidate) :=
  match cell_eval s mi pyi with
  | None => best
  | Some err =>
      let cand := (grid_mx s mi, grid_pzx s mi, grid_pzy s pyi) in
      match best with
      | None => Some (err, cand)
      | Some (best_err, _) => if qltb err best_err then Some (err, cand) else best
      end
  end.

(** [for mi in range(n_mx + 1): for pyi in range(n_pzy + 1): ...] *)
Definition scan (s : subject) : option (Q * candidate) :=
  fold_left (fun best mi =>
               fold_left (fun best pyi => scan_step s best mi pyi) (seq 0 31) best)
            (seq 0 41) None.

(** [auto_optimize_subject(s)]: the returned flag and the record after the
    call (the record is mutated in place in Python). *)
Definition auto_optimize_subject (s : subject) : bool * subject :=
  if negb (is_general (stype s)) || Qeq_bool (p25x s) 0 then (false, s) else
  if qltb (min_x_hi s) (min_x_lo s) then (false, s) else
  if Qle_bool (pzy_hi s) (pzy_lo s) then (false, s) else
  match scan s with
  | None => (false, s)
  | Some (_, (mx, pzx', pzy')) => (true, compute_polynomials (set_lower s mx pzx' 0 pzy'))
  end.

(** [build_general(code, name, p25x, ..., p99y)]. *)
Definition build_general (cd nm : String.string) (a25 a50 a75 a90 a99 b25 b50 b75 b90 b99 : Q)
    : subject :=
  let g := min_gap_of a25 a50 a75 a90 a99 in
  let mnx := qmax 0 (qmin 10 (a25 - 2 * g)) in
  let pz_x := (mnx + a25) / 2 in
  let mxx := 100 in
  let mxy0 := if qltb a90 a99
              then b99 + (b99 - b90) / (a99 - a90) * (mxx - a99)
              else b99 + (1 # 2) in
  let mxy := round2 (qmin 100 (qmax mxy0 (b99 + (1 # 2)))) in
  let q := quad_through mnx a25 a50 0 b25 b50 pz_x in
  let pz_y := qmax 0 (qmin (b25 * (95 # 100)) q) in
  let s0 := new_subject nm cd General in
  compute_polynomials
    (mkSubject (name s0) (code s0) General (subject_id s0)
       mnx pz_x a25 a50 a75 a90 a99 mxx
       0 pz_y b25 b50 b75 b90 b99 mxy
       0 0 0 0 0 0 0 0 0 0 false).

(** [_reset_current] on a general subject with data. *)
Definition reset_current (s : subject) : subject :=
  if is_general (stype s) && qltb 0 (p25x s) then
    let mnx := qmax 0 (qmin 10 (p25x s - 2 * min_gap s)) in
    let pz_x := (mnx + p25x s) / 2 in
    let q := quad_through mnx (p25x s) (p50x s) 0 (p25y s) (p50y s) pz_x in
    let pz_y := qmax 0 (qmin (p25y s * (95 # 100)) q) in
    let s' := compute_polynomials (set_lower s mnx pz_x 0 pz_y) in
    mkSubject (name s') (code s') (stype s') (subject_id s')
      (min_x s') (pzx s') (p25x s') (p50x s') (p75x s') (p90x s') (p99x s') (max_x s')
      (min_y s') (pzy s') (p25y s') (p50y s') (p75y s') (p90y s') (p99y s') (max_y s')
      (X4 s') (X3 s') (X2 s') (X1 s') (X0 s') (Z3 s') (Z2 s') (Z1 s') (Z0 s')
      (max_fit_error s') false
  else s.

Inductive drag := DragMin | DragPZ.

(** [_on_mouse_move] while a point is dragged, at mouse position
    [(xdata, ydata)]. *)
Definition on_mouse_move (d : drag) (xdata ydata : Q) (s : subject) : subject :=
  match d with
  | DragMin =>
      let new_x := qmax 0 (qmin (p25x s - 2 * min_gap s) xdata) in
      let mnx := round2 new_x in
      compute_polynomials (set_lower s mnx (round2 ((mnx + p25x s) / 2)) 0 (pzy s))
  | DragPZ =>
      let new_y := qmax (1 # 10) (qmin (p25y s - (1 # 2)) ydata) in
      compute_polynomials (set_lower s (min_x s) (pzx s) (min_y s) (round2 new_y))
  end.

(** [_auto_fit_all]: every eligible subject, in list order, is passed to
    [auto_optimize_subject] (which mutates it); the result is the list of
    subjects afterwards, the number [succeeded] and the list [failed_names]. *)
Definition auto_fit_all (subjects : list subject) : list subject * nat * list String.string :=
  fold_left (fun acc s =>
               let '(done, succeeded, failed_names) := acc in
               if eligible s then
                 let '(ok, s') := auto_optimize_subject s in
                 if ok then (done ++ [s'], S succeeded, failed_names)
                 else (done ++ [s'], succeeded, failed_names ++ [name s])
               else (done ++ [s], succeeded, failed_names))
            subjects ([], O, []).

End Fitting.

(** The cells of the scan in the order the nested loops visit them. *)
Definition grid_cells : list (nat * nat) :=
  flat_map (fun mi => map (fun pyi => (mi, pyi)) (seq 0 31)) (seq 0 41).

(** Scan order on cells: lexicographic on [(mi, pyi)]. *)
Definition lex_lt (a b : nat * nat) : Prop :=
  (fst a < fst b)%nat \/ (fst a = fst b /\ (snd a < snd b)%nat).

Definition lex_ltb (a b : nat * nat) : bool :=
  Nat.ltb (fst a) (fst b) || (Nat.eqb (fst a) (fst b) && Nat.ltb (snd a) (snd b)).

Fixpoint sorted_lexb (l : list (nat * nat)) : bool :=
  match l with
  | x :: ((y :: _) as l') => lex_ltb x y && sorted_lexb l'
  | _ => true
  end.

End Subject.

(* ================================================================== *)
(** ** [build_course_scales_2025.py]: the batch export of general subjects *)

Module Batch.

(** [estimate_max(p90x, p99x, p90y, p99y)]. *)
Definition estimate_max (p90x p99x p90y p99y : Q) : Q * Q :=
  let dx := p99x - p90x in
  let max_x := qmin 100 (p99x + qmax 1 dx) in
  let max_y := if Subject.qltb p90x p99x
               then p99y + (p99y - p90y) / (p99x - p90x) * (max_x - p99x)
               else p99y in
  (max_x, qmin 100 (qmax max_y (p99y + (1 # 2)))).

(** The dictionary returned by [process_general_subject] (its ['Subject ID']
    comes from the previous year's table and is not modelled). *)
Record general_row := mkGeneralRow {
  subject_name : String.string;
  Min_X : Q; PZX : Q; P25_X : Q; P50_X : Q; P75_X : Q; P90_X : Q; P99_X : Q; Max_X : Q;
  Min_Y : Q; PZY : Q; P25_Y : Q; P50_Y : Q; P75_Y : Q; P90_Y : Q; P99_Y : Q; Max_Y : Q;
  X4 : Q; X3 : Q; X2 : Q; X1 : Q; X0 : Q;
  Z3 : Q; Z2 : Q; Z1 : Q; Z0 : Q
}.

(** [eval_poly_4(coeffs, x)], used by the fit validation. *)
Definition eval_poly_4 (coeffs : Q * Q * Q * Q * Q) (x : Q) : Q :=
  let '(X4, X3, X2, X1, X0) := coeffs in X4 * x^4 + X3 * x^3 + X2 * x^2 + X1 * x + X0.

(** [process_no_data_subject(name, code)]. *)
Definition process_no_data_subject (nm cd : String.string) : general_row :=
  mkGeneralRow nm 10 0 0 0 0 0 0 0  0 0 0 0 0 0 0 0  0 0 0 0 0  0 0 0 0.

(** [process_applied_subject(name, code, c_scaled, b_scaled, a_scaled)]. *)
Definition process_applied_subject (nm cd : String.string) (c_scaled b_scaled a_scaled : Q)
    : general_row :=
  mkGeneralRow nm 10 0 0 0 0 0 0 0  0 0 0 c_scaled b_scaled a_scaled 0 0  0 0 0 0 0  0 0 0 0.

(** [process_vet_subject(name, sub_id, scaled_val)] (its ['Subject ID'] is
    [sub_id]). *)
Definition process_vet_subject (nm : String.string) (sub_id : Z) (scaled_val : Q) : general_row :=
  let v := scaled_val in
  mkGeneralRow nm 0 v v v v v v v  0 v v v v v v v  0 0 0 0 0  0 0 0 0.

(** The percentile columns of a Table 6 / Table 7 entry with data. *)
Record pct_data := mkPct {
  d25x : Q; d50x : Q; d75x : Q; d90x : Q; d99x : Q;
  d25y : Q; d50y : Q; d75y : Q; d90y : Q; d99y : Q
}.

(** An entry [(code, name, p25x, ...)] of Table 6 / 7; [None] when
    [p25x is None]. *)
Definition entry := (String.string * String.string * option pct_data)%type.

(** The counts printed at the end of the script:
    [r['X4'] != 0 or r['X3'] != 0], the no-data, applied and VET tests. *)
Definition has_polynomials (r : general_row) : bool :=
  negb (Qeq_bool (X4 r) 0) || negb (Qeq_bool (X3 r) 0).
Definition is_no_data (r : general_row) : bool :=
  Qeq_bool (P25_X r) 0 && Qeq_bool (Min_X r) 10 && Qeq_bool (P50_Y r) 0.
Definition is_applied (r : general_row) : bool :=
  negb (Qeq_bool (P50_Y r) 0) && Qeq_bool (P25_X r) 0 && Qeq_bool (Min_X r) 10.
Definition is_vet (r : general_row) : bool := Qeq_bool (Min_X r) 0.

(** [sum(1 for r in results if p(r))]. *)
Definition count (p : general_row -> bool) (rows : list general_row) : nat :=
  length (filter p rows).

Section Exporting.
Variable fit_poly_4 : list Q -> list Q -> Subject.quartic.
Variable fit_poly_3 : list Q -> list Q -> Subject.cubic.

(** [process_general_subject(name, code, p25x, ..., p99y)]. *)
Definition process_general_subject (nm cd : String.string)
    (p25x p50x p75x p90x p99x p25y p50y p75y p90y p99y : Q) : general_row :=
  let MIN_X := 10 in
  let MIN_Y := 0 in
  let pzx := (75 # 100) * p25x in
  let '(max_x, max_y) := estimate_max p90x p99x p90y p99y in
  let q := Subject.quad_through MIN_X p25x p50x MIN_Y p25y p50y pzx in
  let pzy := qmax 0 (qmin (p25y * (95 # 100)) q) in
  let x_all := [MIN_X; pzx; p25x; p50x; p75x; p90x; p99x; max_x] in
  let y_all := [MIN_Y; pzy; p25y; p50y; p75y; p90y; p99y; max_y] in
  let '(x4, x3, x2, x1, x0) := fit_poly_4 x_all y_all in
  let '(z3, z2, z1, z0) := fit_poly_3 [MIN_X; pzx; p25x; p50x] [MIN_Y; pzy; p25y; p50y] in
  mkGeneralRow nm MIN_X (round2 pzx) p25x p50x p75x p90x p99x (round2 max_x)
    MIN_Y (round2 pzy) p25y p50y p75y p90y p99y (round2 max_y)
    x4 x3 x2 x1 x0 z3 z2 z1 z0.

(** One iteration of the Table 6 / Table 7 loops. *)
Definition process_entry (e : entry) : general_row :=
  match e with
  | (cd, nm, None) => process_no_data_subject nm cd
  | (cd, nm, Some p) =>
      process_general_subject nm cd (d25x p) (d50x p) (d75x p) (d90x p) (d99x p)
        (d25y p) (d50y p) (d75y p) (d90y p) (d99y p)
  end.

(** [results]: Table 6, Table 7, Table 8 [(code, name, c, b, a)] and the
    VET list [(name, sub_id, scaled_val)], in that order. *)
Definition results (table6 table7 : list entry)
    (table8 : list (String.string * String.string * Q * Q * Q))
    (vet_subjects : list (String.string * Z * Q)) : list general_row :=
  map process_entry table6 ++ map process_entry table7 ++
  map (fun e => let '(cd, nm, c, b, a) := e in process_applied_subject nm cd c b a) table8 ++
  map (fun e => let '(nm, sub_id, v) := e in process_vet_subject nm sub_id v) vet_subjects.

End Exporting.

End Batch.

(** Concrete fitting functions for evaluating examples: the zero polynomial. *)
Definition zfit4 (xs ys : list Q) : Subject.quartic := (0, 0, 0, 0, 0).
Definition zfit3 (xs ys : list Q) : Subject.cubic := (0, 0, 0, 0).

(* ================================================================== *)
(** ** [build_lookup_final.py]: the simulated best-5 aggregate curve *)

Module Sim.

(** An entry of [sim_subjects] (a general subject whose [X4] is non-zero). *)
Record sim_subject := mkSimSubject {
  name : String.string;
  X4 : Q; X3 : Q; X2 : Q; X1 : Q; X0 : Q;
  min_x : Q; max_x : Q; max_y : Q
}.

(** [eval_scaling_poly(subj, raw_pct)]. *)
Definition eval_scaling_poly (subj : sim_subject) (raw_pct : Q) : Q :=
  if Subject.qltb raw_pct (min_x subj) then 0 else
  let r := raw_pct in
  let scaled := X4 subj * r^4 + X3 subj * r^3 + X2 subj * r^2 + X1 subj * r + X0 subj in
  qmax 0 (qmin scaled (max_y subj)).

(** [list.sort(reverse=True)]: a stable sort into non-increasing order. *)
Fixpoint insert_desc (x : Q) (l : list Q) : list Q :=
  match l with
  | [] => [x]
  | y :: l' => if Qle_bool y x then x :: l else y :: insert_desc x l'
  end.

Definition sort_desc (l : list Q) : list Q := fold_right insert_desc [] l.

(** [sum(scaled_scores[:5])]. *)
Definition sum_top5 (l : list Q) : Q := fold_left Qplus (firstn 5 l) 0.

(** The scores collected at one raw score. *)
Definition scaled_scores (subjects : list sim_subject) (raw_pct : Q) : list Q :=
  map (fun subj => eval_scaling_poly subj raw_pct)
      (filter (fun subj => Qle_bool (min_x subj) raw_pct) subjects).

(** [simulate_aggregate_curve(subjects)]. *)
Definition simulate_aggregate_curve (subjects : list sim_subject) : list (Q * Q) :=
  map (fun i =>
         let raw_pct := inject_Z (Z.of_nat i) * (1 # 2) in
         (raw_pct, sum_top5 (sort_desc (scaled_scores subjects raw_pct))))
      (seq 0 201).

(** The aggregate as described: every subject contributes [0] below its
    [Min.x] and otherwise its quartic clamped into [[0, Max.y]]; the
    aggregate is the sum of the five largest contributions. *)
Definition contribution (subj : sim_subject) (raw : Q) : Q :=
  if Qlt_le_dec raw (min_x subj) then 0 else
  Qmax 0 (Qmin (X4 subj * raw^4 + X3 subj * raw^3 + X2 subj * raw^2 + X1 subj * raw + X0 subj)
               (max_y subj)).

Definition spec_aggregate (subjects : list sim_subject) (raw : Q) : Q :=
  sum_top5 (sort_desc (map (fun subj => contribution subj raw) subjects)).

End Sim.

(* ================================================================== *)
(** ** [build_lookup_final.py]: the 0.05-band student distribution *)

Module Bands.
Local Open Scope Z_scope.

(** Band values are multiples of 0.05 and are written in hundredths: the
    float loop [b -= 0.05] drifts by far less than the [0.001] slack of its
    bound and is undone by [round(b, 2)]. *)

(** A Python [dict] from bands to counts, in insertion order. *)
Definition dict := list (Z * Z).

(** [d.get(k, default)]. *)
Fixpoint get (d : dict) (k default : Z) : Z :=
  match d with
  | [] => default
  | (k', v) :: d' => if k' =? k then v else get d' k default
  end.

(** [k in d]. *)
Fixpoint mem (d : dict) (k : Z) : bool :=
  match d with
  | [] => false
  | (k', _) :: d' => (k' =? k) || mem d' k
  end.

(** [d[k] = v]. *)
Fixpoint set (d : dict) (k v : Z) : dict :=
  match d with
  | [] => [(k, v)]
  | (k', v') :: d' => if k' =? k then (k', v) :: d' else (k', v') :: set d' k v
  end.

Definition keys (d : dict) : list Z := map fst d.

(** [sum(...)] of integers. *)
Definition sumZ (l : list Z) : Z := fold_right Z.add 0 l.

(** [sorted(..., reverse=True)] on integers. *)
Fixpoint insert_desc (x : Z) (l : list Z) : list Z :=
  match l with
  | [] => [x]
  | y :: l' => if y <=? x then x :: l else y :: insert_desc x l'
  end.

Definition sort_desc (l : list Z) : list Z := fold_right insert_desc [] l.

Fixpoint bands_from (b : Z) (n : nat) : list Z :=
  match n with
  | O => []
  | S n' => b :: bands_from (b - 5) n'
  end.

(** [b = high; while b >= low - 0.001: bands_in_range.append(round(b, 2)); b -= 0.05]. *)
Definition bands_in_range (low high : Z) : list Z :=
  bands_from high (Z.to_nat ((high - low) / 5 + 1)).

(** [already_assigned = sum(band_students.get(br, 0) for br in bands_in_range if br in band_students)]. *)
Definition already_assigned (d : dict) (low high : Z) : Z :=
  sumZ (map (fun br => get d br 0) (filter (fun br => mem d br) (bands_in_range low high))).

(** [unassigned = [br for br in bands_in_range if br not in band_students]]. *)
Definition unassigned (d : dict) (low high : Z) : list Z :=
  filter (fun br => negb (mem d br)) (bands_in_range low high).

(** One iteration of [for range_str, total_count in table14]. *)
Definition split_range (d : dict) (r : Z * Z * Z) : dict :=
  let '(low, high, total_count) := r in
  let unassigned := unassigned d low high in
  let remaining := total_count - already_assigned d low high in
  if (remaining <=? 0) || Nat.eqb (length unassigned) 0 then d else
  let n := Z.of_nat (length unassigned) in
  let base := remaining / n in
  let extra := remaining - base * n in
  fold_left (fun d' ib => set d' (snd ib) (base + (if Z.of_nat (fst ib) <? extra then 1 else 0)))
    (combine (seq 0 (length unassigned)) (sort_desc unassigned)) d.

(** [band_students]: [table13] entered first, then every range of [table14] split. *)
Definition band_students (table13 : list (Z * Z)) (table14 : list (Z * Z * Z)) : dict :=
  fold_left split_range table14
    (fold_left (fun d ac => set d (fst ac) (snd ac)) table13 []).

(** [cumulative], as the list of [(band, running)] in the order of [sorted_bands]. *)
Definition cumulative (d : dict) : list (Z * Z) :=
  fst (fold_left (fun acc band =>
                    let running := snd acc + get d band 0 in
                    (fst acc ++ [(band, running)], running))
                 (sort_desc (keys d)) ([], 0)).

(** The counts a range ends up with: [sum(band_students[br] for br in bands_in_range)]. *)
Definition range_sum (d : dict) (low high : Z) : Z :=
  sumZ (map (fun br => get d br 0) (bands_in_range low high)).

(** [table13] (band in hundredths, count). *)
Definition table13 : list (Z * Z) := [
  (9995, 37); (9990, 37); (9985, 38); (9980, 37); (9975, 37);
  (9970, 38); (9965, 37); (9960, 37); (9955, 38); (9950, 37);
  (9945, 38); (9940, 37); (9935, 38); (9930, 39); (9925, 38);
  (9920, 37); (9915, 38); (9910, 37); (9905, 38); (9900, 38);
  (9895, 37); (9890, 38); (9885, 38); (9880, 38); (9875, 38);
  (9870, 37); (9865, 37); (9860, 39); (9855, 37); (9850, 38);
  (9845, 38); (9840, 37); (9835, 38); (9830, 37); (9825, 37);
  (9820, 38); (9815, 38); (9810, 38); (9805, 38); (9800, 39)
].

(** [table14] (range low, range high, total), the range strings parsed to hundredths. *)
Definition table14 : list (Z * Z * Z) := [
  (9900, 9995, 751); (9800, 9895, 755); (9700, 9795, 756); (9600, 9695, 761);
  (9500, 9595, 754); (9400, 9495, 752); (9300, 9395, 754); (9200, 9295, 753);
  (9100, 9195, 751); (9000, 9095, 748); (8900, 8995, 746); (8800, 8895, 739);
  (8700, 8795, 735); (8600, 8695, 732); (8500, 8595, 732); (8400, 8495, 724);
  (8300, 8395, 714); (8200, 8295, 708); (8100, 8195, 699); (8000, 8095, 694);
  (7900, 7995, 678); (7800, 7895, 669); (7700, 7795, 655); (7600, 7695, 643);
  (7500, 7595, 628); (7400, 7495, 614); (7300, 7395, 596); (7200, 7295, 578);
  (7100, 7195, 561); (7000, 7095, 540); (6900, 6995, 518); (6800, 6895, 495);
  (6700, 6795, 475); (6600, 6695, 453); (6500, 6595, 432); (6400, 6495, 413);
  (6300, 6395, 396); (6200, 6295, 375); (6100, 6195, 359); (6000, 6095, 342);
  (5900, 5995, 326); (5800, 5895, 308); (5700, 5795, 292); (5600, 5695, 278);
  (5500, 5595, 263); (5400, 5495, 250); (5300, 5395, 238); (5200, 5295, 222);
  (5100, 5195, 210); (5000, 5095, 199); (4900, 4995, 186); (4800, 4895, 177);
  (4700, 4795, 166); (4600, 4695, 157); (4500, 4595, 145); (4400, 4495, 135);
  (4300, 4395, 128); (4200, 4295, 118); (4100, 4195, 111); (4000, 4095, 104);
  (3900, 3995, 96); (3800, 3895, 89); (3700, 3795, 81); (3600, 3695, 76);
  (3500, 3595, 69); (3400, 3495, 64); (3300, 3395, 59); (3200, 3295, 53);
  (3100, 3195, 48); (3005, 3095, 43)
].

End Bands.

(* ================================================================== *)
(** ** Views used by the statements *)

(** Fields of a subject that come from the report. *)
Definition data_fields (s : Subject.subject) :=
  (Subject.name s, Subject.code s, Subject.stype s, Subject.subject_id s,
   [Subject.p25x s; Subject.p50x s; Subject.p75x s; Subject.p90x s; Subject.p99x s;
    Subject.max_x s; Subject.p25y s; Subject.p50y s; Subject.p75y s; Subject.p90y s;
    Subject.p99y s; Subject.max_y s]).

(** Every field of a subject except the fitted polynomials and the fit error. *)
Definition nonfit_fields (s : Subject.subject) :=
  (data_fields s, [Subject.min_x s; Subject.pzx s; Subject.min_y s; Subject.pzy s],
   Subject.committed s).

(** Horner evaluation, highest-degree coefficient first. *)
Definition horner (coeffs : list Q) (x : Q) : Q :=
  fold_left (fun acc c => acc * x + c) coeffs 0.

(* ================================================================== *)
(** * Proofs *)

(* ------------------------------------------------------------------ *)
(** ** Rounding *)

Lemma round_half_even_int (q : Q) (k : Z) :
  q == inject_Z k -> round_half_even q = k.
Proof.
  unfold Qeq, round_half_even; simpl; intros H.
  rewrite Z.mul_1_r in H. rewrite H.
  rewrite Z.div_mul by lia. rewrite Z.mod_mul by lia.
  simpl. reflexivity.
Qed.

(** A two-decimal value minus 0.01, rounded to two decimals, is exact. *)
Lemma round2_minus_cent (y : Q) :
  round2 (round2 y - (1 # 100)) == round2 y - (1 # 100).
Proof.
  unfold round2 at 1 3.
  set (z := round_half_even (y * 100)).
  rewrite (round_half_even_int _ (z - 1)).
  - unfold Qeq; simpl. lia.
  - unfold Qeq; simpl. lia.
Qed.

Lemma round2_minus_cent_lt (y : Q) :
  round2 (round2 y - (1 # 100)) < round2 y.
Proof.
  rewrite round2_minus_cent. unfold Qlt; simpl. lia.
Qed.

(* ------------------------------------------------------------------ *)
(** ** The tie repair of the final table *)

Section FixTies.
Import Results.

Definition rounded (r : row) : Prop := exists y, agg r = round2 y.

Lemma fix_row_rounded (prev r : row) :
  rounded prev -> rounded r -> rounded (fix_row prev r).
Proof.
  unfold fix_row, rounded; intros _ Hr.
  destruct (Qle_bool (agg prev) (agg r)); simpl; eauto.
Qed.

Lemma fix_row_lt (prev r : row) :
  rounded prev -> agg (fix_row prev r) < agg prev.
Proof.
  unfold fix_row, rounded; intros [y Hy].
  destruct (Qle_bool (agg prev) (agg r)) eqn:E; simpl.
  - rewrite Hy. apply round2_minus_cent_lt.
  - apply Qnot_le_lt. intros Hle. apply Qle_bool_iff in Hle. congruence.
Qed.

Lemma fix_row_atar (prev r : row) : atar (fix_row prev r) = atar r.
Proof. unfold fix_row; destruct (Qle_bool _ _); reflexivity. Qed.

Lemma fix_from_chain (l : list row) (prev : row) :
  rounded prev -> Forall rounded l ->
  chain (fun r1 r2 => agg r2 < agg r1) (prev :: fix_from prev l).
Proof.
  revert prev; induction l as [|r l IH]; intros prev Hp Hl; simpl; auto.
  inversion Hl; subst. split.
  - apply fix_row_lt; auto.
  - apply IH; auto. apply fix_row_rounded; auto.
Qed.

Lemma fix_from_atar (l : list row) (prev : row) :
  map atar (fix_from prev l) = map atar l.
Proof.
  revert prev; induction l as [|r l IH]; intros prev; simpl; auto.
  rewrite fix_row_atar, IH. reflexivity.
Qed.

Lemma fix_from_length (l : list row) (prev : row) :
  length (fix_from prev l) = length l.
Proof.
  revert prev; induction l as [|r l IH]; intros prev; simpl; auto.
Qed.

Lemma fix_from_nth (l : list row) (prev d : row) (i : nat) :
  (i < length l)%nat ->
  nth i (fix_from prev l) d = fix_row (nth i (prev :: fix_from prev l) d) (nth i l d).
Proof.
  revert prev i; induction l as [|r l IH]; intros prev i Hi; simpl in *; [lia|].
  destruct i as [|i]; [reflexivity|].
  rewrite IH by lia. reflexivity.
Qed.

Lemma build_results_rounded bands lookup bs cu total :
  Forall rounded (build_results bands lookup bs cu total).
Proof.
  unfold build_results. apply Forall_forall. intros r Hr.
  apply in_map_iff in Hr. destruct Hr as [b [<- _]]. unfold rounded; simpl; eauto.
Qed.

Lemma build_results_atar bands lookup bs cu total :
  map atar (build_results bands lookup bs cu total) = bands.
Proof.
  unfold build_results. rewrite map_map. simpl. apply map_id.
Qed.

Lemma fix_ties_chain (l : list row) :
  Forall rounded l -> chain (fun r1 r2 => agg r2 < agg r1) (fix_ties l).
Proof.
  destruct l as [|r l]; simpl; auto. intros H; inversion H; subst.
  apply (fix_from_chain l r); auto.
Qed.

Lemma fix_from_rounded (l : list row) (prev : row) :
  rounded prev -> Forall rounded l -> Forall rounded (fix_from prev l).
Proof.
  revert prev; induction l as [|r l IH]; intros prev Hp Hl; simpl; auto.
  inversion Hl; subst. constructor.
  - apply fix_row_rounded; auto.
  - apply IH; auto. apply fix_row_rounded; auto.
Qed.

Lemma fix_ties_rounded (l : list row) :
  Forall rounded l -> Forall rounded (fix_ties l).
Proof.
  destruct l as [|r l]; simpl; auto. intros H; inversion H; subst.
  constructor; auto. apply fix_from_rounded; auto.
Qed.

End FixTies.

(** C1: in the final table (rows from the highest band to the lowest),
    after the tie repair every row's aggregate is strictly greater than the
    next row's; the rows keep their bands; and a row that was repaired
    (its aggregate was not below the previous row's) holds exactly the
    previous row's aggregate minus 0.01, while any other row is unchanged. *)
Theorem final_results_strictly_decreasing
    (sorted_bands : list Q) (agg_lookup : Q -> Q)
    (band_students cumulative : Q -> Z) (total : Z) :
  let orig := Results.build_results sorted_bands agg_lookup band_students cumulative total in
  let res := Results.final_results sorted_bands agg_lookup band_students cumulative total in
  chain (fun r1 r2 => Results.agg r2 < Results.agg r1) res /\
  map Results.atar res = sorted_bands /\
  (forall (i : nat) (d : Results.row), (S i < length res)%nat ->
     let p := nth i res d in
     let c := nth (S i) res d in
     let o := nth (S i) orig d in
     (Results.agg p <= Results.agg o -> Results.agg c == Results.agg p - (1 # 100)) /\
     (Results.agg o < Results.agg p -> c = o)).
Proof.
  intros orig res. unfold res, Results.final_results. fold orig.
  pose proof (build_results_rounded sorted_bands agg_lookup band_students cumulative total) as Hr.
  fold orig in Hr.
  split; [apply fix_ties_chain; exact Hr|].
  split.
  { destruct orig as [|r l] eqn:E; simpl.
    - rewrite <- (build_results_atar sorted_bands agg_lookup band_students cumulative total).
      fold orig; rewrite E; reflexivity.
    - rewrite fix_from_atar.
      rewrite <- (build_results_atar sorted_bands agg_lookup band_students cumulative total).
      fold orig; rewrite E; reflexivity. }
  intros i d Hi.
  set (p := nth i (Results.fix_ties orig) d).
  set (c := nth (S i) (Results.fix_ties orig) d).
  set (o := nth (S i) orig d).
  destruct orig as [|r l] eqn:E; simpl in Hi; [lia|].
  rewrite fix_from_length in Hi.
  assert (Hc : c = Results.fix_row p o).
  { unfold c, p, o; simpl. apply fix_from_nth. lia. }
  assert (Hp : rounded p).
  { pose proof (fix_ties_rounded _ Hr) as HF.
    rewrite Forall_forall in HF. apply HF. unfold p.
    apply nth_In. simpl. rewrite fix_from_length. lia. }
  rewrite Hc. unfold Results.fix_row. split.
  - intros Hle. apply Qle_bool_iff in Hle. rewrite Hle. simpl.
    destruct Hp as [y Hy]. rewrite Hy. apply round2_minus_cent.
  - intros Hlt. destruct (Qle_bool (Results.agg p) (Results.agg o)) eqn:Eb; auto.
    apply Qle_bool_iff in Eb. exfalso. apply (Qlt_not_le _ _ Hlt Eb).
Qed.

(* ------------------------------------------------------------------ *)
(** ** Chains of adjacent pairs *)

Section Chains.
Context {A : Type}.

Lemma chain_tail (R : A -> A -> Prop) (x : A) (l : list A) :
  chain R (x :: l) -> chain R l.
Proof. destruct l; simpl; tauto. Qed.

Lemma chain_Forall (R : A -> A -> Prop) (HT : forall x y z, R x y -> R y z -> R x z)
    (x : A) (l : list A) :
  chain R (x :: l) -> Forall (R x) l.
Proof.
  revert x; induction l as [|y l IH]; intros x H; [constructor|].
  destruct H as [Hxy Hl]. constructor; auto.
  specialize (IH y Hl). rewrite Forall_forall in IH |- *.
  intros z Hz. eauto.
Qed.

Lemma chain_snoc (R : A -> A -> Prop) (l : list A) (x d : A) :
  chain R l -> (l <> [] -> R (last l d) x) -> chain R (l ++ [x]).
Proof.
  induction l as [|y l IH]; intros H Hx; simpl; auto.
  destruct l as [|z l]; simpl in *.
  - split; auto. apply Hx. discriminate.
  - destruct H as [Hyz H]. split; auto.
    apply IH; auto. intros _. apply Hx. discriminate.
Qed.

Lemma chain_rev (R : A -> A -> Prop) (l : list A) :
  chain R l -> chain (fun x y => R y x) (rev l).
Proof.
  induction l as [|x l IH]; intros H; simpl; auto.
  apply (chain_snoc _ _ _ x); [apply IH; eapply chain_tail; eauto|].
  intros Hne. destruct l as [|y l]; [simpl in Hne; congruence|].
  destruct H as [Hxy _]. simpl rev. rewrite last_last. exact Hxy.
Qed.

Lemma chain_map {B} (R : B -> B -> Prop) (f : A -> B) (l : list A) :
  chain (fun x y => R (f x) (f y)) l -> chain R (map f l).
Proof.
  induction l as [|x l IH]; simpl; auto.
  destruct l as [|y l]; simpl in *; auto. tauto.
Qed.

End Chains.

(* ------------------------------------------------------------------ *)
(** ** The piecewise-linear reverse lookup *)

Section Lookup.
Import Results.

Lemma lerp_at_hi (a0 a1 t0 t1 x : Q) :
  a0 < a1 -> x == a1 -> lerp a0 a1 t0 t1 x == t1.
Proof.
  intros H Hx. unfold lerp. rewrite Hx. field.
  intros E. lra.
Qed.

Lemma frac_bounds (a0 a1 x : Q) :
  a0 < a1 -> a0 < x -> x <= a1 ->
  0 <= (x - a0) / (a1 - a0) /\ (x - a0) / (a1 - a0) <= 1.
Proof.
  intros H1 H2 H3. split.
  - apply Qle_shift_div_l; lra.
  - apply Qle_shift_div_r; lra.
Qed.

Lemma lerp_bounds (a0 a1 t0 t1 x : Q) :
  a0 < a1 -> t0 <= t1 -> a0 < x -> x <= a1 ->
  t0 <= lerp a0 a1 t0 t1 x /\ lerp a0 a1 t0 t1 x <= t1.
Proof.
  intros H1 Ht H2 H3. destruct (frac_bounds a0 a1 x H1 H2 H3) as [F0 F1].
  unfold lerp. set (f := (x - a0) / (a1 - a0)) in *. split.
  - assert (0 <= f * (t1 - t0)) by (apply Qmult_le_0_compat; lra). lra.
  - assert (f * (t1 - t0) <= 1 * (t1 - t0)) by (apply Qmult_le_compat_r; lra). lra.
Qed.

Lemma lerp_mono (a0 a1 t0 t1 x y : Q) :
  a0 < a1 -> t0 <= t1 -> x <= y -> lerp a0 a1 t0 t1 x <= lerp a0 a1 t0 t1 y.
Proof.
  intros H1 Ht Hxy. unfold lerp.
  assert ((x - a0) / (a1 - a0) <= (y - a0) / (a1 - a0)).
  { unfold Qdiv. apply Qmult_le_compat_r; [lra|].
    apply Qinv_le_0_compat. lra. }
  assert ((x - a0) / (a1 - a0) * (t1 - t0) <= (y - a0) / (a1 - a0) * (t1 - t0))
    by (apply Qmult_le_compat_r; lra).
  lra.
Qed.

Lemma chain_lt_last (a0 : Q) (r : list Q) :
  chain Qlt (a0 :: r) -> a0 <= last (a0 :: r) 0 /\ (r <> [] -> a0 < last (a0 :: r) 0).
Proof.
  revert a0; induction r as [|a1 r IH]; intros a0 H; simpl.
  - split; [lra | congruence].
  - destruct H as [H01 H]. destruct (IH a1 H) as [IH1 _].
    change (match r with [] => a1 | _ :: _ => last r 0 end) with (last (a1 :: r) 0).
    split; [lra | intros _; lra].
Qed.

Lemma pw_cons2 (a0 a1 t0 t1 x : Q) (a t : list Q) :
  pw (a0 :: a1 :: a) (t0 :: t1 :: t) x =
  if Qle_bool x a0 then t0
  else if Qle_bool x a1 then lerp a0 a1 t0 t1 x
  else pw (a1 :: a) (t1 :: t) x.
Proof. reflexivity. Qed.

Lemma pw_interior (a t : list Q) (x : Q) :
  length a = length t -> a <> [] -> hd 0 a < x -> x < last a 0 ->
  lerp (nth (pred (searchsorted a x)) a 0) (nth (searchsorted a x) a 0)
       (nth (pred (searchsorted a x)) t 0) (nth (searchsorted a x) t 0) x
  = pw a t x.
Proof.
  revert t; induction a as [|a0 a IH]; intros t Hlen Hne Hlo Hhi; [congruence|].
  destruct t as [|t0 t]; [discriminate|]. simpl in Hlen, Hlo.
  destruct a as [|a1 a]; simpl in Hhi; [lra|].
  destruct t as [|t1 t]; [discriminate|].
  assert (E0 : Qle_bool x a0 = false).
  { destruct (Qle_bool x a0) eqn:E; auto. apply Qle_bool_iff in E. lra. }
  simpl searchsorted. rewrite E0. simpl pw. rewrite E0.
  destruct (Qle_bool x a1) eqn:E1.
  - reflexivity.
  - assert (Hx1 : a1 < x)
      by (apply Qnot_le_lt; intros Hle; apply Qle_bool_iff in Hle; congruence).
    specialize (IH (t1 :: t) ltac:(simpl in *; lia) ltac:(discriminate) Hx1 Hhi).
    simpl searchsorted in IH. rewrite E1 in IH. simpl pw in IH. rewrite E1 in IH.
    exact IH.
Qed.

Lemma pw_last (a t : list Q) (x : Q) :
  chain Qlt a -> length a = length t -> a <> [] -> last a 0 <= x -> pw a t x == last t 0.
Proof.
  revert t; induction a as [|a0 a IH]; intros t Hc Hlen Hne Hx; [congruence|].
  destruct t as [|t0 t]; [discriminate|]. simpl in Hlen.
  destruct a as [|a1 a]; destruct t as [|t1 t]; try discriminate; [simpl; reflexivity|].
  destruct Hc as [H01 Hc].
  destruct (chain_lt_last a1 a Hc) as [L1 L2].
  change (last (a0 :: a1 :: a) 0) with (last (a1 :: a) 0) in Hx.
  change (last (t0 :: t1 :: t) 0) with (last (t1 :: t) 0).
  rewrite pw_cons2.
  assert (E0 : Qle_bool x a0 = false).
  { destruct (Qle_bool x a0) eqn:E; auto. apply Qle_bool_iff in E. lra. }
  rewrite E0. destruct (Qle_bool x a1) eqn:E1.
  - apply Qle_bool_iff in E1.
    destruct a as [|a2 a].
    + destruct t as [|t2 t]; [|discriminate]. simpl.
      apply lerp_at_hi; simpl in Hx; lra.
    + exfalso. assert (a1 < last (a1 :: a2 :: a) 0) by (apply L2; discriminate). lra.
  - apply IH; auto. discriminate.
Qed.

Lemma pw_head_le (a t : list Q) (x : Q) :
  chain Qlt a -> chain Qle t -> length a = length t -> a <> [] -> hd 0 t <= pw a t x.
Proof.
  revert t; induction a as [|a0 a IH]; intros t Hc Ht Hlen Hne; [congruence|].
  destruct t as [|t0 t]; [discriminate|]. simpl in Hlen.
  destruct a as [|a1 a]; destruct t as [|t1 t]; try discriminate; [simpl; lra|].
  destruct Hc as [H01 Hc]. destruct Ht as [Ht01 Ht].
  rewrite pw_cons2. simpl hd.
  destruct (Qle_bool x a0) eqn:E0; [lra|].
  destruct (Qle_bool x a1) eqn:E1.
  - apply Qle_bool_iff in E1.
    assert (a0 < x) by (apply Qnot_le_lt; intros Hle; apply Qle_bool_iff in Hle; congruence).
    destruct (lerp_bounds a0 a1 t0 t1 x); auto.
  - assert (t1 <= pw (a1 :: a) (t1 :: t) x) by (apply (IH (t1 :: t)); auto; discriminate).
    lra.
Qed.

Lemma pw_le_last (a t : list Q) (x : Q) :
  chain Qlt a -> chain Qle t -> length a = length t -> a <> [] -> pw a t x <= last t 0.
Proof.
  revert t; induction a as [|a0 a IH]; intros t Hc Ht Hlen Hne; [congruence|].
  destruct t as [|t0 t]; [discriminate|]. simpl in Hlen.
  destruct a as [|a1 a]; destruct t as [|t1 t]; try discriminate; [simpl; lra|].
  destruct Hc as [H01 Hc]. pose proof Ht as Ht'. destruct Ht as [Ht01 Ht].
  assert (Hl : t1 <= last (t1 :: t) 0).
  { clear -Ht. revert t1 Ht; induction t as [|t2 t IHt]; intros t1 Ht; simpl; [lra|].
    destruct Ht as [H12 Ht]. specialize (IHt t2 Ht). simpl in IHt. lra. }
  change (last (t0 :: t1 :: t) 0) with (last (t1 :: t) 0).
  rewrite pw_cons2.
  destruct (Qle_bool x a0) eqn:E0; [lra|].
  destruct (Qle_bool x a1) eqn:E1.
  - apply Qle_bool_iff in E1.
    assert (a0 < x) by (apply Qnot_le_lt; intros Hle; apply Qle_bool_iff in Hle; congruence).
    destruct (lerp_bounds a0 a1 t0 t1 x); auto. lra.
  - apply IH; auto. discriminate.
Qed.

Lemma pw_mono (a t : list Q) (x y : Q) :
  chain Qlt a -> chain Qle t -> length a = length t -> a <> [] -> x <= y ->
  pw a t x <= pw a t y.
Proof.
  revert t; induction a as [|a0 a IH]; intros t Hc Ht Hlen Hne Hxy; [congruence|].
  destruct t as [|t0 t]; [discriminate|]. simpl in Hlen.
  destruct a as [|a1 a]; destruct t as [|t1 t]; try discriminate; [simpl; lra|].
  pose proof Hc as Hc'. pose proof Ht as Ht'.
  destruct Hc as [H01 Hc]. destruct Ht as [Ht01 Ht].
  assert (Hhead : forall z, t1 <= pw (a1 :: a) (t1 :: t) z)
    by (intros z; apply (pw_head_le (a1 :: a) (t1 :: t) z); auto; discriminate).
  assert (Hy0 : t0 <= pw (a0 :: a1 :: a) (t0 :: t1 :: t) y)
    by (apply (pw_head_le _ (t0 :: t1 :: t)); auto; discriminate).
  rewrite pw_cons2 in Hy0. rewrite (pw_cons2 a0 a1 t0 t1 x), (pw_cons2 a0 a1 t0 t1 y).
  destruct (Qle_bool x a0) eqn:E0; [exact Hy0|].
  assert (Hx0 : a0 < x) by (apply Qnot_le_lt; intros Hle; apply Qle_bool_iff in Hle; congruence).
  assert (Ey0 : Qle_bool y a0 = false).
  { destruct (Qle_bool y a0) eqn:E; auto. apply Qle_bool_iff in E. lra. }
  rewrite Ey0.
  destruct (Qle_bool x a1) eqn:E1.
  - apply Qle_bool_iff in E1.
    destruct (Qle_bool y a1) eqn:F1.
    + apply lerp_mono; auto.
    + destruct (lerp_bounds a0 a1 t0 t1 x); auto.
      specialize (Hhead y). lra.
  - assert (Ey1 : Qle_bool y a1 = false).
    { destruct (Qle_bool y a1) eqn:E; auto. apply Qle_bool_iff in E.
      exfalso. apply Bool.not_true_iff_false in E1. apply E1. apply Qle_bool_iff. lra. }
    rewrite Ey1. apply IH; auto. discriminate.
Qed.

Lemma chain_lt_nth (a1 : Q) (r : list Q) (k : nat) :
  chain Qlt (a1 :: r) -> (k < S (length r))%nat ->
  k = O \/ a1 < nth k (a1 :: r) 0.
Proof.
  intros Hc Hk. destruct k as [|k]; [left; reflexivity|right].
  pose proof (chain_Forall Qlt Qlt_trans a1 r Hc) as HF.
  rewrite Forall_forall in HF. apply HF. simpl. apply nth_In. lia.
Qed.

Lemma pw_nth (a t : list Q) (k : nat) :
  chain Qlt a -> length a = length t -> (k < length a)%nat ->
  pw a t (nth k a 0) == nth k t 0.
Proof.
  revert t k; induction a as [|a0 a IH]; intros t k Hc Hlen Hk; [simpl in Hk; lia|].
  destruct t as [|t0 t]; [discriminate|]. simpl in Hlen.
  destruct a as [|a1 a]; destruct t as [|t1 t]; try discriminate.
  { simpl in Hk. destruct k as [|k]; [simpl; reflexivity|lia]. }
  pose proof Hc as Hc'. destruct Hc as [H01 Hc].
  destruct k as [|k].
  - simpl nth. rewrite pw_cons2.
    replace (Qle_bool a0 a0) with true by (symmetry; apply Qle_bool_iff; lra).
    reflexivity.
  - change (nth (S k) (a0 :: a1 :: a) 0) with (nth k (a1 :: a) 0).
    change (nth (S k) (t0 :: t1 :: t) 0) with (nth k (t1 :: t) 0).
    simpl in Hk.
    assert (Hge : a1 <= nth k (a1 :: a) 0).
    { destruct (chain_lt_nth a1 a k Hc ltac:(lia)) as [->|H]; [simpl; lra|lra]. }
    rewrite pw_cons2.
    replace (Qle_bool (nth k (a1 :: a) 0) a0) with false.
    2:{ symmetry. destruct (Qle_bool _ a0) eqn:E; auto. apply Qle_bool_iff in E. lra. }
    destruct (Qle_bool (nth k (a1 :: a) 0) a1) eqn:E1.
    + apply Qle_bool_iff in E1.
      destruct (chain_lt_nth a1 a k Hc ltac:(lia)) as [->|H]; [|lra].
      simpl. apply lerp_at_hi; lra.
    + apply IH; auto. simpl in Hlen |- *. lia.
Qed.

Lemma insert_by_agg_end (r : row) (l : list row) :
  Forall (fun y => agg y < agg r) l -> insert_by_agg r l = l ++ [r].
Proof.
  induction l as [|y l IH]; intros H; simpl; auto.
  inversion H; subst.
  replace (Qle_bool (agg r) (agg y)) with false.
  - rewrite IH; auto.
  - symmetry. destruct (Qle_bool (agg r) (agg y)) eqn:E; auto.
    apply Qle_bool_iff in E. lra.
Qed.

Lemma sort_by_agg_rev (l : list row) :
  chain (fun r1 r2 => agg r2 < agg r1) l -> sort_by_agg l = rev l.
Proof.
  induction l as [|r l IH]; intros H; simpl; auto.
  rewrite IH by (eapply chain_tail; eauto).
  apply insert_by_agg_end. apply Forall_rev.
  apply (chain_Forall (fun r1 r2 => agg r2 < agg r1)); auto.
  intros x y z H1 H2. lra.
Qed.

Lemma chain_weaken {A} (R R' : A -> A -> Prop) (l : list A) :
  (forall x y, R x y -> R' x y) -> chain R l -> chain R' l.
Proof.
  intros HR. induction l as [|x l IH]; simpl; auto.
  destruct l as [|y l]; auto. intros [H1 H2]. split; auto.
Qed.

Lemma hd_rev {A} (l : list A) (d : A) : hd d (rev l) = last l d.
Proof.
  induction l as [|x l IH] using rev_ind; simpl; auto.
  rewrite rev_app_distr, last_last. reflexivity.
Qed.

Lemma last_rev {A} (l : list A) (d : A) : last (rev l) d = hd d l.
Proof.
  rewrite <- (rev_involutive l) at 2. rewrite hd_rev. reflexivity.
Qed.

(** On a table with strictly decreasing aggregates (in band order), the
    code's lookup is the piecewise-linear function through the table read
    from the lowest aggregate up. *)
Lemma agg_to_atar_pw (res : list row) (x : Q) :
  chain (fun r1 r2 => agg r2 < agg r1) res -> res <> [] ->
  exists v, agg_to_atar_2025 res x = Some v /\
            (v == pw (map agg (rev res)) (map atar (rev res)) x).
Proof.
  intros Hc Hne. unfold agg_to_atar_2025. rewrite sort_by_agg_rev by exact Hc.
  assert (Ha : chain Qlt (map agg (rev res))).
  { apply chain_map. apply (chain_rev (fun r1 r2 => agg r2 < agg r1)). exact Hc. }
  assert (Hlen : length (map agg (rev res)) = length (map atar (rev res)))
    by (rewrite !length_map; reflexivity).
  destruct (rev res) as [|r0 rr] eqn:E.
  { apply (f_equal (@rev row)) in E. rewrite rev_involutive in E. simpl in E. congruence. }
  cbn zeta. cbn [map].
  destruct (Qle_bool x (agg r0)) eqn:E0.
  - exists (atar r0). split; [reflexivity|].
    destruct rr as [|r1 rr]; [simpl; reflexivity|].
    simpl map. rewrite pw_cons2, E0. reflexivity.
  - destruct (Qle_bool (last (agg r0 :: map agg rr) 0) x) eqn:E1.
    + eexists; split; [reflexivity|]. symmetry.
      apply pw_last; auto; [discriminate|]. apply Qle_bool_iff; exact E1.
    + eexists; split; [reflexivity|].
      match goal with |- ?v == _ => change v with
        (lerp (nth (pred (searchsorted (agg r0 :: map agg rr) x)) (agg r0 :: map agg rr) 0)
              (nth (searchsorted (agg r0 :: map agg rr) x) (agg r0 :: map agg rr) 0)
              (nth (pred (searchsorted (agg r0 :: map agg rr) x)) (atar r0 :: map atar rr) 0)
              (nth (searchsorted (agg r0 :: map agg rr) x) (atar r0 :: map atar rr) 0) x) end.
      rewrite pw_interior; auto; [reflexivity|discriminate| |].
      * simpl. apply Qnot_le_lt. intros Hle. apply Qle_bool_iff in Hle. congruence.
      * apply Qnot_le_lt. intros Hle. apply Qle_bool_iff in Hle. congruence.
Qed.

Lemma final_results_chain sorted_bands agg_lookup band_students cumulative total :
  chain (fun r1 r2 => agg r2 < agg r1)
    (final_results sorted_bands agg_lookup band_students cumulative total).
Proof. apply fix_ties_chain, build_results_rounded. Qed.

Lemma final_results_atar sorted_bands agg_lookup band_students cumulative total :
  map atar (final_results sorted_bands agg_lookup band_students cumulative total)
  = sorted_bands.
Proof.
  unfold final_results.
  destruct (build_results sorted_bands agg_lookup band_students cumulative total) as [|r l] eqn:E;
    rewrite <- (build_results_atar sorted_bands agg_lookup band_students cumulative total), E;
    simpl; [reflexivity|].
  rewrite fix_from_atar. reflexivity.
Qed.

Lemma agg_to_atar_ends (res : list row) :
  chain (fun r1 r2 => agg r2 < agg r1) res -> res <> [] ->
  (forall x, x <= hd 0 (map agg (rev res)) ->
     agg_to_atar_2025 res x = Some (hd 0 (map atar (rev res)))) /\
  (forall x, last (map agg (rev res)) 0 <= x ->
     agg_to_atar_2025 res x = Some (last (map atar (rev res)) 0)).
Proof.
  intros Hc Hne. unfold agg_to_atar_2025. rewrite sort_by_agg_rev by exact Hc.
  assert (Ha : chain Qlt (map agg (rev res))).
  { apply chain_map. apply (chain_rev (fun r1 r2 => agg r2 < agg r1)). exact Hc. }
  destruct (rev res) as [|r0 rr] eqn:E.
  { apply (f_equal (@rev row)) in E. rewrite rev_involutive in E. simpl in E. congruence. }
  cbn zeta. cbn [map hd] in *. split.
  - intros x Hx. apply Qle_bool_iff in Hx. rewrite Hx. reflexivity.
  - intros x Hx. destruct (Qle_bool x (agg r0)) eqn:E0.
    + apply Qle_bool_iff in E0.
      destruct (chain_lt_last (agg r0) (map agg rr) Ha) as [_ L2].
      destruct rr as [|r1 rr]; [reflexivity|].
      exfalso. assert (agg r0 < last (agg r0 :: map agg (r1 :: rr)) 0)
        by (apply L2; discriminate). lra.
    + apply Qle_bool_iff in Hx. rewrite Hx. reflexivity.
Qed.

End Lookup.

(** C10: for the final table (bands listed from the highest rank-score down,
    so that aggregates strictly increase with rank-score), the reverse
    lookup is total and monotone non-decreasing in the aggregate, its value
    always lies between the lowest and the highest band's rank-score, an
    aggregate at or below the lowest band's aggregate maps to the lowest
    band's rank-score, and one at or above the highest band's aggregate maps
    to the highest band's rank-score. *)
Theorem agg_to_atar_monotone_bounded
    (sorted_bands : list Q) (agg_lookup : Q -> Q)
    (band_students cumulative : Q -> Z) (total : Z) :
  sorted_bands <> [] ->
  chain (fun b1 b2 => b2 < b1) sorted_bands ->
  let res := Results.final_results sorted_bands agg_lookup band_students cumulative total in
  let f := Results.agg_to_atar_2025 res in
  (forall x y v w, x <= y -> f x = Some v -> f y = Some w -> v <= w) /\
  (forall x, exists v, f x = Some v /\ last sorted_bands 0 <= v /\ v <= hd 0 sorted_bands) /\
  (forall x, x <= last (map Results.agg res) 0 -> f x = Some (last sorted_bands 0)) /\
  (forall x, hd 0 (map Results.agg res) <= x -> f x = Some (hd 0 sorted_bands)).
Proof.
  intros Hbne Hb res f.
  pose proof (final_results_chain sorted_bands agg_lookup band_students cumulative total) as Hc.
  pose proof (final_results_atar sorted_bands agg_lookup band_students cumulative total) as Hat.
  fold res in Hc, Hat.
  assert (Hne : res <> []) by (intros E; rewrite E in Hat; simpl in Hat; congruence).
  assert (Ha : chain Qlt (map Results.agg (rev res))).
  { apply chain_map. apply (chain_rev (fun r1 r2 => Results.agg r2 < Results.agg r1)). exact Hc. }
  assert (Et : map Results.atar (rev res) = rev sorted_bands) by (rewrite map_rev, Hat; reflexivity).
  assert (Ht : chain Qle (map Results.atar (rev res))).
  { rewrite Et. apply (chain_weaken Qlt); [intros; lra|].
    apply (chain_rev (fun b1 b2 => b2 < b1)). exact Hb. }
  assert (Hlen : length (map Results.agg (rev res)) = length (map Results.atar (rev res)))
    by (rewrite !length_map; reflexivity).
  assert (Hane : map Results.agg (rev res) <> []).
  { intros E. apply (f_equal (@length Q)) in E. rewrite length_map, length_rev in E.
    destruct res; simpl in E; congruence. }
  destruct (agg_to_atar_ends res Hc Hne) as [Lo Hi].
  rewrite Et, hd_rev, map_rev, hd_rev in Lo.
  rewrite Et, last_rev, map_rev, last_rev in Hi.
  split; [|split; [|split]].
  - intros x y v w Hxy Hv Hw. unfold f in Hv, Hw.
    destruct (agg_to_atar_pw res x Hc Hne) as [v' [Hv' Ev]].
    destruct (agg_to_atar_pw res y Hc Hne) as [w' [Hw' Ew]].
    rewrite Hv in Hv'. rewrite Hw in Hw'. injection Hv' as ->. injection Hw' as ->.
    rewrite Ev, Ew. apply pw_mono; auto.
  - intros x. destruct (agg_to_atar_pw res x Hc Hne) as [v [Hv Ev]].
    exists v. split; [exact Hv|]. rewrite Ev. split.
    + rewrite <- hd_rev, <- Et. apply pw_head_le; auto.
    + rewrite <- last_rev, <- Et. apply pw_le_last; auto.
  - exact Lo.
  - exact Hi.
Qed.

(** C7: back-test idempotence.  Looking up the aggregate of any row of the
    final table in that same table returns exactly the row's rank-score:
    the back-test shift is 0 for every band. *)
Theorem backtest_self_shift_zero
    (sorted_bands : list Q) (agg_lookup : Q -> Q)
    (band_students cumulative : Q -> Z) (total : Z) (r : Results.row) :
  let res := Results.final_results sorted_bands agg_lookup band_students cumulative total in
  In r res ->
  exists v, Results.agg_to_atar_2025 res (Results.agg r) = Some v /\ (v - Results.atar r == 0).
Proof.
  intros res Hin.
  pose proof (final_results_chain sorted_bands agg_lookup band_students cumulative total) as Hc.
  fold res in Hc.
  assert (Hne : res <> []) by (intros E; rewrite E in Hin; destruct Hin).
  destruct (agg_to_atar_pw res (Results.agg r) Hc Hne) as [v [Hv Hpw]].
  exists v. split; [exact Hv|].
  apply in_rev in Hin. destruct (In_nth _ _ r Hin) as [k [Hk Hr]].
  assert (Ha : chain Qlt (map Results.agg (rev res))).
  { apply chain_map. apply (chain_rev (fun r1 r2 => Results.agg r2 < Results.agg r1)). exact Hc. }
  assert (Eagg : Results.agg r = nth k (map Results.agg (rev res)) 0).
  { rewrite (nth_indep _ 0 (Results.agg r)) by (rewrite length_map; lia).
    rewrite map_nth, Hr. reflexivity. }
  assert (Eatar : Results.atar r = nth k (map Results.atar (rev res)) 0).
  { rewrite (nth_indep _ 0 (Results.atar r)) by (rewrite length_map; lia).
    rewrite map_nth. rewrite Hr. reflexivity. }
  rewrite Hpw, Eagg, pw_nth; auto.
  - rewrite Eatar. ring.
  - rewrite !length_map. reflexivity.
  - rewrite length_map. exact Hk.
Qed.

(* ------------------------------------------------------------------ *)
(** ** The blended curve *)

Section BlendProofs.
Import Blend.

Lemma bump_gt (prev x : Q) : prev < bump prev x.
Proof.
  unfold bump. destruct (Qle_bool x prev) eqn:E; [lra|].
  apply Qnot_le_lt. intros H. apply Qle_bool_iff in H. congruence.
Qed.

Lemma forward_from_chain (l : list Q) (prev : Q) :
  chain Qlt (prev :: forward_from prev l).
Proof.
  revert prev; induction l as [|x l IH]; intros prev; simpl; auto.
  split; [apply bump_gt | apply IH].
Qed.

Lemma enforce_monotone_chain (l : list Q) : chain Qlt (enforce_monotone l).
Proof. destruct l as [|x l]; simpl; auto. apply forward_from_chain. Qed.

Lemma clamp_le (x y : Q) : x <= y -> clamp x <= clamp y.
Proof.
  unfold clamp, qmax, qmin. intros H.
  repeat (destruct (Qlt_le_dec _ _)); lra.
Qed.

Lemma clamp_lt (x y : Q) : x < y -> x < 500 -> 0 < y -> clamp x < clamp y.
Proof.
  unfold clamp, qmax, qmin. intros H H1 H2.
  repeat (destruct (Qlt_le_dec _ _)); lra.
Qed.

End BlendProofs.

Lemma forward_from_ge_prev (l : list Q) (prev : Q) :
  Forall (fun y => prev < y) (Blend.forward_from prev l).
Proof.
  revert prev; induction l as [|x l IH]; intros prev; simpl; constructor.
  - apply bump_gt.
  - specialize (IH (Blend.bump prev x)). pose proof (bump_gt prev x).
    eapply Forall_impl; [|exact IH]. intros y Hy. simpl in Hy. lra.
Qed.

Lemma chain_last_ge (l : list Q) (x : Q) :
  chain Qlt (x :: l) -> Forall (fun y => y <= last (x :: l) 0) (x :: l).
Proof.
  revert x; induction l as [|y l IH]; intros x H.
  - constructor; [simpl; lra|constructor].
  - destruct H as [Hxy Hc]. specialize (IH y Hc).
    change (last (x :: y :: l) 0) with (last (y :: l) 0).
    constructor; [|exact IH].
    inversion IH as [|? ? Hy _]. simpl in Hy |- *. lra.
Qed.

Lemma clamp_id (x : Q) : 0 <= x -> x <= 500 -> Blend.clamp x = x.
Proof.
  unfold Blend.clamp, qmax, qmin. intros H1 H2.
  destruct (Qlt_le_dec 500 x); [lra|].
  destruct (Qlt_le_dec x 0); [lra|reflexivity].
Qed.

(** C2: after the forward pass that bumps every value not strictly above its
    predecessor to the predecessor plus 0.01, the grid-indexed array is
    strictly increasing; when the curve lies in the valid range (its first
    value is at least 0 and its last value after the pass at most 500) the
    clamp into [0, 500] leaves every value as it is, so the final array is
    strictly increasing at every adjacent pair of grid points. *)
Theorem blended_strictly_increasing (blended : list Q) :
  0 <= hd 0 blended ->
  last (Blend.enforce_monotone blended) 0 <= 500 ->
  chain Qlt (Blend.enforce_monotone blended) /\
  Blend.finalize blended = Blend.enforce_monotone blended /\
  chain Qlt (Blend.finalize blended).
Proof.
  intros H0 H500.
  assert (Hc : chain Qlt (Blend.enforce_monotone blended)) by apply enforce_monotone_chain.
  assert (E : Blend.finalize blended = Blend.enforce_monotone blended).
  { unfold Blend.finalize. destruct blended as [|x l]; [reflexivity|].
    simpl in H0. cbn [Blend.enforce_monotone] in Hc, H500 |- *.
    rewrite <- (map_id (x :: Blend.forward_from x l)) at 2.
    apply map_ext_in. intros y Hy. unfold id.
    pose proof (chain_last_ge _ _ Hc) as Hl. rewrite Forall_forall in Hl.
    pose proof (Hl y Hy) as Hy1.
    destruct Hy as [<-|Hy]; [apply clamp_id; lra|].
    pose proof (forward_from_ge_prev l x) as Hg. rewrite Forall_forall in Hg.
    pose proof (Hg y Hy). apply clamp_id; lra. }
  split; [exact Hc|split; [exact E|]]. rewrite E. exact Hc.
Qed.

(* ------------------------------------------------------------------ *)
(** ** First minimum of a left fold *)

Section ArgMin.
Context {C V : Type} (ev : C -> option Q) (cand : C -> V).

(** The loop body of the optimizer, abstracted over the cell type. *)
Definition am_step (best : option (Q * V)) (c : C) : option (Q * V) :=
  match ev c with
  | None => best
  | Some e =>
      match best with
      | None => Some (e, cand c)
      | Some (be, _) => if Subject.qltb e be then Some (e, cand c) else best
      end
  end.

Definition am_inv (L : list C) (r : option (Q * V)) : Prop :=
  match r with
  | None => forall c, In c L -> ev c = None
  | Some (e, v) =>
      exists L1 c L2, L = L1 ++ c :: L2 /\ ev c = Some e /\ v = cand c /\
        (forall c' e', In c' L1 -> ev c' = Some e' -> e < e') /\
        (forall c' e', In c' L2 -> ev c' = Some e' -> e <= e')
  end.

Lemma qltb_true (x y : Q) : Subject.qltb x y = true <-> x < y.
Proof.
  unfold Subject.qltb. rewrite Bool.negb_true_iff. split.
  - intros H. apply Qnot_le_lt. intros Hle. apply Qle_bool_iff in Hle. congruence.
  - intros H. destruct (Qle_bool y x) eqn:E; auto. apply Qle_bool_iff in E. lra.
Qed.

Lemma am_fold_inv (L : list C) : am_inv L (fold_left am_step L None).
Proof.
  induction L as [|c L IH] using rev_ind; [simpl; tauto|].
  rewrite fold_left_app. simpl.
  unfold am_step at 1.
  destruct (fold_left am_step L None) as [[be bv]|] eqn:Ef;
    destruct (ev c) as [e|] eqn:Ec.
  - destruct (Subject.qltb e be) eqn:Elt.
    + apply qltb_true in Elt.
      destruct IH as [L1 [c0 [L2 [EL [E0 [Ev [H1 H2]]]]]]].
      exists L, c, []. repeat split; auto.
      * intros c' e' Hin He'. subst L. apply in_app_or in Hin. destruct Hin as [Hin|[<-|Hin]].
        -- specialize (H1 c' e' Hin He'). lra.
        -- rewrite E0 in He'. injection He' as <-. exact Elt.
        -- specialize (H2 c' e' Hin He'). lra.
      * intros c' e' [].
    + destruct IH as [L1 [c0 [L2 [EL [E0 [Ev [H1 H2]]]]]]].
      exists L1, c0, (L2 ++ [c]). repeat split; auto.
      * subst L. rewrite <- app_assoc. reflexivity.
      * intros c' e' Hin He'. apply in_app_or in Hin. destruct Hin as [Hin|[<-|[]]]; eauto.
        rewrite Ec in He'. injection He' as <-.
        apply Qnot_lt_le. intros Hlt. apply qltb_true in Hlt. congruence.
  - destruct IH as [L1 [c0 [L2 [EL [E0 [Ev [H1 H2]]]]]]].
    exists L1, c0, (L2 ++ [c]). repeat split; auto.
    + subst L. rewrite <- app_assoc. reflexivity.
    + intros c' e' Hin He'. apply in_app_or in Hin. destruct Hin as [Hin|[<-|[]]]; eauto.
      congruence.
  - exists L, c, []. repeat split; auto.
    + intros c' e' Hin He'. rewrite IH in He' by exact Hin. discriminate.
    + intros c' e' [].
  - intros c' Hin. apply in_app_or in Hin. destruct Hin as [Hin|[<-|[]]]; auto.
Qed.

Lemma am_fold_none (L : list C) :
  (forall c, In c L -> ev c = None) -> fold_left am_step L None = None.
Proof.
  intros H. induction L as [|c L IH] using rev_ind; auto.
  rewrite fold_left_app. simpl. rewrite IH.
  - unfold am_step. rewrite H; auto. apply in_or_app. right. left. reflexivity.
  - intros c' Hin. apply H. apply in_or_app. left. exact Hin.
Qed.

End ArgMin.

Lemma fold_left_flat_map {A B D} (f : A -> D -> A) (g : B -> list D) (l : list B) (a : A) :
  fold_left f (flat_map g l) a = fold_left (fun acc x => fold_left f (g x) acc) l a.
Proof.
  revert a; induction l as [|x l IH]; intros a; simpl; auto.
  rewrite fold_left_app. apply IH.
Qed.

Lemma fold_left_map_in {A B D} (f : A -> D -> A) (h : B -> D) (l : list B) (a : A) :
  fold_left f (map h l) a = fold_left (fun acc x => f acc (h x)) l a.
Proof. revert a; induction l as [|x l IH]; intros a; simpl; auto. Qed.

Lemma fold_left_ext {A B} (f g : A -> B -> A) (l : list B) (a : A) :
  (forall acc x, f acc x = g acc x) -> fold_left f l a = fold_left g l a.
Proof.
  intros H. revert a; induction l as [|x l IH]; intros a; simpl; auto.
  rewrite H. apply IH.
Qed.

(* ------------------------------------------------------------------ *)
(** ** The boundary optimizer *)

Section Optimizer.
Import Subject.
Context (fit_poly_4 : list Q -> list Q -> quartic) (fit_poly_3 : list Q -> list Q -> cubic).

Definition cell_ev (s : subject) (c : nat * nat) : option Q :=
  cell_eval fit_poly_4 s (fst c) (snd c).

Definition cell_cand (s : subject) (c : nat * nat) : candidate :=
  (grid_mx s (fst c), grid_pzx s (fst c), grid_pzy s (snd c)).

Lemma scan_as_fold (s : subject) :
  scan fit_poly_4 s = fold_left (am_step (cell_ev s) (cell_cand s)) grid_cells None.
Proof.
  unfold scan, grid_cells. rewrite fold_left_flat_map.
  apply fold_left_ext. intros acc mi.
  rewrite fold_left_map_in. apply fold_left_ext. intros acc' pyi.
  reflexivity.
Qed.

Lemma in_grid_cells (mi pyi : nat) :
  In (mi, pyi) grid_cells <-> (mi <= 40 /\ pyi <= 30)%nat.
Proof.
  unfold grid_cells. rewrite in_flat_map. split.
  - intros [x [Hx Hin]]. apply in_map_iff in Hin. destruct Hin as [y [E Hy]].
    injection E as -> ->. apply in_seq in Hx, Hy. lia.
  - intros [H1 H2]. exists mi. split; [apply in_seq; lia|].
    apply in_map_iff. exists pyi. split; [reflexivity|apply in_seq; lia].
Qed.

Lemma lex_ltb_sound (a b : nat * nat) : lex_ltb a b = true -> lex_lt a b.
Proof.
  unfold lex_ltb, lex_lt. rewrite Bool.orb_true_iff, Bool.andb_true_iff,
    Nat.ltb_lt, Nat.eqb_eq, Nat.ltb_lt. tauto.
Qed.

Lemma sorted_lexb_sound (l : list (nat * nat)) : sorted_lexb l = true -> Sorted lex_lt l.
Proof.
  induction l as [|x l IH]; intros H; [constructor|].
  destruct l as [|y l].
  - repeat constructor.
  - simpl in H. apply Bool.andb_true_iff in H. destruct H as [H1 H2].
    constructor; [apply IH; exact H2|]. constructor. apply lex_ltb_sound; exact H1.
Qed.

Lemma lex_lt_trans (a b c : nat * nat) : lex_lt a b -> lex_lt b c -> lex_lt a c.
Proof. unfold lex_lt. lia. Qed.

Lemma grid_cells_sorted : StronglySorted lex_lt grid_cells.
Proof.
  apply Sorted_StronglySorted; [intros a b c; apply lex_lt_trans|].
  apply sorted_lexb_sound. vm_compute. reflexivity.
Qed.

Lemma StronglySorted_after {A} (R : A -> A -> Prop) (L1 L2 : list A) (c : A) :
  StronglySorted R (L1 ++ c :: L2) -> Forall (R c) L2.
Proof.
  induction L1 as [|x L1 IH]; simpl; intros H; inversion H; subst; auto.
Qed.

Ltac cp_field := unfold compute_polynomials;
  destruct (_ || _); [reflexivity|];
  destruct (fit_poly_4 _ _) as [[[[? ?] ?] ?] ?];
  destruct (fit_poly_3 _ _) as [[[? ?] ?] ?]; reflexivity.

Lemma cp_min_x (s : subject) : min_x (compute_polynomials fit_poly_4 fit_poly_3 s) = min_x s.
Proof. cp_field. Qed.
Lemma cp_pzx (s : subject) : pzx (compute_polynomials fit_poly_4 fit_poly_3 s) = pzx s.
Proof. cp_field. Qed.
Lemma cp_pzy (s : subject) : pzy (compute_polynomials fit_poly_4 fit_poly_3 s) = pzy s.
Proof. cp_field. Qed.
Lemma cp_p25x (s : subject) : p25x (compute_polynomials fit_poly_4 fit_poly_3 s) = p25x s.
Proof. cp_field. Qed.
Lemma cp_p25y (s : subject) : p25y (compute_polynomials fit_poly_4 fit_poly_3 s) = p25y s.
Proof. cp_field. Qed.

End Optimizer.

(** C3: the optimizer changes the record only when it reports success: on
    [false] the record is exactly the one it was given.  It reports [false]
    (a value, never an exception) when the Min.x range is empty
    ([P25.x - 2g < 0]), when the LowerBoundary.y range [(0.1, 0.95*P25.y)]
    is empty, and when no cell of the 41 x 31 grid passes the derivative
    check. *)
Theorem auto_optimize_failure_unchanged
    (fit_poly_4 : list Q -> list Q -> Subject.quartic)
    (fit_poly_3 : list Q -> list Q -> Subject.cubic) (s : Subject.subject) :
  let r := Subject.auto_optimize_subject fit_poly_4 fit_poly_3 s in
  (fst r = false -> snd r = s) /\
  (Subject.p25x s - 2 * Subject.min_gap s < 0 -> fst r = false) /\
  (Subject.p25y s * (95 # 100) <= 1 # 10 -> fst r = false) /\
  ((forall mi pyi, (mi <= 40)%nat -> (pyi <= 30)%nat ->
      Subject.cell_eval fit_poly_4 s mi pyi = None) -> fst r = false).
Proof.
  intros r. unfold r, Subject.auto_optimize_subject.
  destruct (negb _ || _) eqn:G1; [simpl; tauto|].
  destruct (Subject.qltb _ _) eqn:G2; [simpl; tauto|].
  destruct (Qle_bool _ _) eqn:G3; [simpl; tauto|].
  split; [|split; [|split]].
  - destruct (Subject.scan fit_poly_4 s) as [[e [[mx pzx'] pzy']]|]; simpl; auto.
    discriminate.
  - intros H. exfalso. assert (Subject.qltb (Subject.min_x_hi s) (Subject.min_x_lo s) = true).
    { apply qltb_true. unfold Subject.min_x_hi, Subject.min_x_lo. lra. }
    congruence.
  - intros H. exfalso. assert (Qle_bool (Subject.pzy_hi s) (Subject.pzy_lo s) = true).
    { apply Qle_bool_iff. unfold Subject.pzy_hi, Subject.pzy_lo. exact H. }
    congruence.
  - intros Hnone. rewrite scan_as_fold, am_fold_none; [reflexivity|].
    intros [mi pyi] Hin. apply in_grid_cells in Hin. destruct Hin.
    unfold cell_ev. simpl. apply Hnone; auto.
Qed.

(** C4: when the optimizer succeeds, the Min.x and LowerBoundary.y it
    installs are those of a grid cell [(mi, pyi)] whose fit passes the
    derivative check, whose maximum absolute residual [err] is minimal
    among all passing cells, and strictly smaller than that of every
    passing cell scanned before it (ties go to the first cell scanned). *)
Theorem auto_optimize_first_minimum
    (fit_poly_4 : list Q -> list Q -> Subject.quartic)
    (fit_poly_3 : list Q -> list Q -> Subject.cubic) (s : Subject.subject) :
  fst (Subject.auto_optimize_subject fit_poly_4 fit_poly_3 s) = true ->
  let s' := snd (Subject.auto_optimize_subject fit_poly_4 fit_poly_3 s) in
  exists mi pyi err,
    (mi <= 40)%nat /\ (pyi <= 30)%nat /\
    Subject.cell_eval fit_poly_4 s mi pyi = Some err /\
    Subject.min_x s' = Subject.grid_mx s mi /\
    Subject.pzy s' = Subject.grid_pzy s pyi /\
    (forall mi' pyi' err', (mi' <= 40)%nat -> (pyi' <= 30)%nat ->
       Subject.cell_eval fit_poly_4 s mi' pyi' = Some err' -> err <= err') /\
    (forall mi' pyi' err', Subject.lex_lt (mi', pyi') (mi, pyi) -> (pyi' <= 30)%nat ->
       Subject.cell_eval fit_poly_4 s mi' pyi' = Some err' -> err < err').
Proof.
  unfold Subject.auto_optimize_subject.
  destruct (negb _ || _) eqn:G1; [simpl; discriminate|].
  destruct (Subject.qltb _ _) eqn:G2; [simpl; discriminate|].
  destruct (Qle_bool _ _) eqn:G3; [simpl; discriminate|].
  destruct (Subject.scan fit_poly_4 s) as [[e [[mx pzx'] pzy']]|] eqn:Es;
    [|simpl; discriminate].
  intros _. cbv zeta. cbn [snd].
  pose proof (am_fold_inv (cell_ev fit_poly_4 s) (cell_cand s) Subject.grid_cells) as Inv.
  rewrite <- scan_as_fold, Es in Inv. simpl in Inv.
  destruct Inv as [L1 [[mi pyi] [L2 [EL [Ec [Ecand [H1 H2]]]]]]].
  unfold cell_cand in Ecand. simpl in Ecand. injection Ecand as -> -> ->.
  assert (Hin : In (mi, pyi) Subject.grid_cells)
    by (rewrite EL; apply in_or_app; right; left; reflexivity).
  apply in_grid_cells in Hin. destruct Hin as [Hmi Hpyi].
  exists mi, pyi, e. repeat split; auto.
  - rewrite cp_min_x. reflexivity.
  - rewrite cp_pzy. reflexivity.
  - intros mi' pyi' err' Hm Hp He.
    assert (Hin' : In (mi', pyi') Subject.grid_cells) by (apply in_grid_cells; auto).
    rewrite EL in Hin'. apply in_app_or in Hin'. destruct Hin' as [Hin'|[E|Hin']].
    + specialize (H1 _ _ Hin' He). lra.
    + injection E as -> ->. unfold cell_ev in Ec. simpl in Ec. rewrite Ec in He.
      injection He as ->. lra.
    + apply (H2 _ _ Hin' He).
  - intros mi' pyi' err' Hlt Hp He.
    assert (Hin' : In (mi', pyi') Subject.grid_cells).
    { apply in_grid_cells. unfold Subject.lex_lt in Hlt; simpl in Hlt. lia. }
    pose proof grid_cells_sorted as Hs. rewrite EL in Hs.
    apply StronglySorted_after in Hs. rewrite Forall_forall in Hs.
    rewrite EL in Hin'. apply in_app_or in Hin'. destruct Hin' as [Hin'|[E|Hin']].
    + apply (H1 _ _ Hin' He).
    + exfalso. injection E as -> ->. unfold Subject.lex_lt in Hlt; simpl in Hlt. lia.
    + exfalso. specialize (Hs _ Hin'). unfold Subject.lex_lt in Hs, Hlt; simpl in Hs, Hlt. lia.
Qed.

(* ------------------------------------------------------------------ *)
(** ** The lower anchors *)

Lemma qmax_ge_l (a b : Q) : a <= qmax a b.
Proof. unfold qmax. destruct (Qlt_le_dec a b); lra. Qed.

Lemma qmax_le (a b c : Q) : a <= c -> b <= c -> qmax a b <= c.
Proof. unfold qmax. destruct (Qlt_le_dec a b); lra. Qed.

Lemma qmin_le_l (a b : Q) : qmin a b <= a.
Proof. unfold qmin. destruct (Qlt_le_dec b a); lra. Qed.

Lemma clamp_lower_bounds (hi q : Q) : 0 <= hi -> 0 <= qmax 0 (qmin hi q) <= hi.
Proof.
  intros H. split; [apply qmax_ge_l|]. apply qmax_le; [exact H|apply qmin_le_l].
Qed.

Ltac intros_unlet :=
  intros; repeat match goal with x := _ |- _ => subst x end.

Section Anchors.
Import Subject.
Context (fit_poly_4 : list Q -> list Q -> quartic) (fit_poly_3 : list Q -> list Q -> cubic).

Lemma auto_optimize_success (s : subject) :
  fst (auto_optimize_subject fit_poly_4 fit_poly_3 s) = true ->
  exists mi pyi, (mi <= 40)%nat /\ (pyi <= 30)%nat /\
    pzy_lo s < pzy_hi s /\
    snd (auto_optimize_subject fit_poly_4 fit_poly_3 s) =
      compute_polynomials fit_poly_4 fit_poly_3
        (set_lower s (grid_mx s mi) (grid_pzx s mi) 0 (grid_pzy s pyi)).
Proof.
  unfold auto_optimize_subject.
  destruct (negb _ || _) eqn:G1; [simpl; discriminate|].
  destruct (qltb _ _) eqn:G2; [simpl; discriminate|].
  destruct (Qle_bool _ _) eqn:G3; [simpl; discriminate|].
  destruct (scan fit_poly_4 s) as [[e [[mx pzx'] pzy']]|] eqn:Es;
    [|simpl; discriminate].
  intros _.
  pose proof (am_fold_inv (cell_ev fit_poly_4 s) (cell_cand s) grid_cells) as Inv.
  rewrite <- scan_as_fold, Es in Inv. simpl in Inv.
  destruct Inv as [L1 [[mi pyi] [L2 [EL [Ec [Ecand _]]]]]].
  unfold cell_cand in Ecand. simpl in Ecand. injection Ecand as -> -> ->.
  assert (Hin : In (mi, pyi) grid_cells)
    by (rewrite EL; apply in_or_app; right; left; reflexivity).
  apply in_grid_cells in Hin. destruct Hin as [Hmi Hpyi].
  exists mi, pyi. repeat split; auto.
  apply Qnot_le_lt. intros H. apply Qle_bool_iff in H. congruence.
Qed.

Lemma grid_pzy_bounds (s : subject) (pyi : nat) :
  (pyi <= 30)%nat -> pzy_lo s < pzy_hi s ->
  pzy_lo s <= grid_pzy s pyi <= pzy_hi s.
Proof.
  intros Hp Hlt. unfold grid_pzy.
  assert (Hk : 0 <= inject_Z (Z.of_nat pyi) <= 30).
  { split; [change 0 with (inject_Z 0)|change 30 with (inject_Z 30)];
      rewrite <- Zle_Qle; lia. }
  set (k := inject_Z (Z.of_nat pyi)) in *.
  set (d := pzy_hi s - pzy_lo s).
  assert (Hd : 0 < d) by (unfold d; lra).
  assert (E : d * k / 30 == d * (k / 30)) by (field).
  rewrite E. assert (0 <= k / 30 <= 1) by (split; [apply Qle_shift_div_l|apply Qle_shift_div_r]; lra).
  split; [|unfold d]; nra.
Qed.

End Anchors.

(** C5 (as amended): [LowerBoundary.x] is the exact midpoint of [Min.x]
    and [P25.x] after [build_general], after a successful auto-optimize and
    after Reset; dragging Min sets it to the midpoint rounded to two
    decimals, dragging LowerBoundary leaves [Min.x], [LowerBoundary.x] and
    [P25.x] alone; the batch export [process_general_subject] instead uses
    [Min.x = 10] and [PZX = round(0.75 * P25.x, 2)]. *)
Theorem lower_boundary_x_placement
    (f4 : list Q -> list Q -> Subject.quartic) (f3 : list Q -> list Q -> Subject.cubic) :
  (forall cd nm a25 a50 a75 a90 a99 b25 b50 b75 b90 b99,
     let s := Subject.build_general f4 f3 cd nm a25 a50 a75 a90 a99 b25 b50 b75 b90 b99 in
     Subject.pzx s = (Subject.min_x s + Subject.p25x s) / 2) /\
  (forall s, fst (Subject.auto_optimize_subject f4 f3 s) = true ->
     let s' := snd (Subject.auto_optimize_subject f4 f3 s) in
     Subject.pzx s' = (Subject.min_x s' + Subject.p25x s') / 2) /\
  (forall s, Subject.is_general (Subject.stype s) && Subject.qltb 0 (Subject.p25x s) = true ->
     let s' := Subject.reset_current f4 f3 s in
     Subject.pzx s' = (Subject.min_x s' + Subject.p25x s') / 2) /\
  (forall x y s,
     let s' := Subject.on_mouse_move f4 f3 Subject.DragMin x y s in
     Subject.pzx s' = round2 ((Subject.min_x s' + Subject.p25x s') / 2)) /\
  (forall x y s,
     let s' := Subject.on_mouse_move f4 f3 Subject.DragPZ x y s in
     Subject.pzx s' = Subject.pzx s /\ Subject.min_x s' = Subject.min_x s /\
     Subject.p25x s' = Subject.p25x s) /\
  (forall nm cd a25 a50 a75 a90 a99 b25 b50 b75 b90 b99,
     let r := Batch.process_general_subject f4 f3 nm cd
                a25 a50 a75 a90 a99 b25 b50 b75 b90 b99 in
     Batch.Min_X r = 10 /\ Batch.PZX r = round2 ((75 # 100) * Batch.P25_X r)).
Proof.
  split; [|split; [|split; [|split; [|split]]]].
  - intros_unlet. unfold Subject.build_general. cbv zeta.
    rewrite cp_pzx, cp_min_x, cp_p25x. reflexivity.
  - intros s H; intros_unlet.
    destruct (auto_optimize_success f4 f3 s H) as [mi [pyi [_ [_ [_ E]]]]].
    rewrite E, cp_pzx, cp_min_x, cp_p25x. reflexivity.
  - intros s H; intros_unlet. unfold Subject.reset_current. rewrite H. cbv zeta.
    cbn [Subject.pzx Subject.min_x Subject.p25x].
    rewrite cp_pzx, cp_min_x, cp_p25x. reflexivity.
  - intros_unlet. unfold Subject.on_mouse_move.
    rewrite cp_pzx, cp_min_x, cp_p25x. reflexivity.
  - intros_unlet. unfold Subject.on_mouse_move.
    rewrite cp_pzx, cp_min_x, cp_p25x. repeat split.
  - intros_unlet. unfold Batch.process_general_subject.
    destruct (Batch.estimate_max _ _ _ _) as [mx my].
    destruct (f4 _ _) as [[[[? ?] ?] ?] ?]. destruct (f3 _ _) as [[[? ?] ?] ?].
    split; reflexivity.
Qed.

(** C5 counterexample: the batch export of a general subject with
    [P25.x = 61] has [Min.x = 10] and [PZX = 45.75], while the midpoint of
    [Min.x] and [P25.x] is [35.5]. *)
Lemma batch_pzx_not_midpoint :
  let r := Batch.process_general_subject zfit4 zfit3 String.EmptyString String.EmptyString
             61 70 80 90 98 40 50 60 70 80 in
  Batch.PZX r == 183 # 4 /\ ~ (Batch.PZX r == (Batch.Min_X r + Batch.P25_X r) / 2).
Proof.
  split; vm_compute; [reflexivity|intro H; discriminate H].
Qed.

(** C6 (as amended): with [P25.y >= 0], [build_general] and Reset place
    [LowerBoundary.y] in the closed interval [[0, 0.95*P25.y]] (both ends
    can occur: the quadratic estimate is clamped), the batch export writes
    that clamped value rounded to two decimals, and a successful
    auto-optimize places it in the closed interval [[0.1, 0.95*P25.y]]. *)
Theorem lower_boundary_y_range
    (f4 : list Q -> list Q -> Subject.quartic) (f3 : list Q -> list Q -> Subject.cubic)
    (cd nm : String.string) (a25 a50 a75 a90 a99 b25 b50 b75 b90 b99 : Q)
    (H : 0 <= b25) :
  (let s := Subject.build_general f4 f3 cd nm a25 a50 a75 a90 a99 b25 b50 b75 b90 b99 in
   0 <= Subject.pzy s <= Subject.p25y s * (95 # 100)) /\
  (exists v, 0 <= v <= b25 * (95 # 100) /\
     Batch.PZY (Batch.process_general_subject f4 f3 nm cd
                  a25 a50 a75 a90 a99 b25 b50 b75 b90 b99) = round2 v) /\
  (forall s, 0 <= Subject.p25y s ->
     Subject.is_general (Subject.stype s) && Subject.qltb 0 (Subject.p25x s) = true ->
     let s' := Subject.reset_current f4 f3 s in
     0 <= Subject.pzy s' <= Subject.p25y s' * (95 # 100)) /\
  (forall s, fst (Subject.auto_optimize_subject f4 f3 s) = true ->
     let s' := snd (Subject.auto_optimize_subject f4 f3 s) in
     1 # 10 <= Subject.pzy s' <= Subject.p25y s' * (95 # 100)).
Proof.
  split; [|split; [|split]].
  - cbv zeta. unfold Subject.build_general. cbv zeta.
    rewrite cp_pzy, cp_p25y. cbn [Subject.pzy Subject.p25y].
    apply clamp_lower_bounds. lra.
  - unfold Batch.process_general_subject. cbv zeta.
    destruct (Batch.estimate_max _ _ _ _) as [mx my].
    destruct (f4 _ _) as [[[[? ?] ?] ?] ?]. destruct (f3 _ _) as [[[? ?] ?] ?].
    eexists. split; [apply clamp_lower_bounds; lra|reflexivity].
  - intros s Hy Hg; intros_unlet. unfold Subject.reset_current. rewrite Hg. cbv zeta.
    cbn [Subject.pzy Subject.p25y]. rewrite cp_pzy, cp_p25y. cbn [Subject.pzy Subject.p25y Subject.set_lower].
    apply clamp_lower_bounds. lra.
  - intros s Hs; intros_unlet.
    destruct (auto_optimize_success f4 f3 s Hs) as [mi [pyi [_ [Hp [Hlt E]]]]].
    rewrite E, cp_pzy, cp_p25y. cbn [Subject.pzy Subject.p25y Subject.set_lower].
    apply (grid_pzy_bounds s pyi Hp Hlt).
Qed.

(** C6 counterexample: for a general subject with percentile data
    [P25 = (30, 1)], [P50 = (50, 40)], [P75 = (70, 60)], [P90 = (85, 70)],
    [P99 = (98, 80)], [build_general] sets [LowerBoundary.y = 0]: the lower
    end of the interval is reached. *)
Lemma build_general_pzy_zero :
  let s := Subject.build_general zfit4 zfit3 String.EmptyString String.EmptyString
             30 50 70 85 98 1 40 60 70 80 in
  Subject.pzy s == 0 /\ ~ (0 < Subject.pzy s).
Proof.
  split; vm_compute; [reflexivity|intro H; discriminate H].
Qed.

(* ------------------------------------------------------------------ *)
(** ** The simulated aggregate curve *)

Section SimProofs.
Import Sim.

Definition desc (l : list Q) : Prop := chain (fun a b => b <= a) l.

Lemma Forall2_Qeq_refl (l : list Q) : Forall2 Qeq l l.
Proof. induction l; constructor; [reflexivity|auto]. Qed.

Lemma Forall2_Qeq_trans (l1 l2 l3 : list Q) :
  Forall2 Qeq l1 l2 -> Forall2 Qeq l2 l3 -> Forall2 Qeq l1 l3.
Proof.
  intros H; revert l3; induction H; intros l3 H'; inversion H'; subst; constructor.
  - transitivity y; auto.
  - auto.
Qed.

Lemma Forall2_Qeq_zeros (l1 l2 : list Q) :
  length l1 = length l2 -> Forall (fun z => z == 0) l1 -> Forall (fun z => z == 0) l2 ->
  Forall2 Qeq l1 l2.
Proof.
  revert l2; induction l1 as [|a l1 IH]; intros [|b l2] E H1 H2; try discriminate;
    constructor.
  - inversion H1; inversion H2; subst. lra.
  - inversion H1; inversion H2; subst. apply IH; auto.
Qed.

Lemma insert_desc_proper (a b : Q) (l1 l2 : list Q) :
  a == b -> Forall2 Qeq l1 l2 -> Forall2 Qeq (insert_desc a l1) (insert_desc b l2).
Proof.
  intros Hab H. induction H as [|x y l1 l2 Hxy H IH]; simpl.
  - repeat constructor; auto.
  - destruct (Qle_bool x a) eqn:E1, (Qle_bool y b) eqn:E2.
    + repeat constructor; auto.
    + exfalso. apply Qle_bool_iff in E1.
      assert (y <= b) by lra. apply Qle_bool_iff in H0. congruence.
    + exfalso. apply Qle_bool_iff in E2.
      assert (x <= a) by lra. apply Qle_bool_iff in H0. congruence.
    + constructor; auto.
Qed.

Lemma insert_desc_app_zeros (x : Q) (l : list Q) (k : nat) :
  0 <= x -> insert_desc x (l ++ repeat 0 k) = insert_desc x l ++ repeat 0 k.
Proof.
  intros Hx. induction l as [|y l IH]; simpl.
  - destruct k; simpl; [reflexivity|].
    replace (Qle_bool 0 x) with true by (symmetry; apply Qle_bool_iff; exact Hx).
    reflexivity.
  - destruct (Qle_bool y x); [reflexivity|]. rewrite IH. reflexivity.
Qed.

Lemma Forall_insert_desc (P : Q -> Prop) (x : Q) (l : list Q) :
  P x -> Forall P l -> Forall P (insert_desc x l).
Proof.
  intros Hx H. induction H as [|y l Hy H IH]; simpl.
  - constructor; auto.
  - destruct (Qle_bool y x); constructor; auto.
Qed.

Lemma Forall_sort_desc (P : Q -> Prop) (l : list Q) :
  Forall P l -> Forall P (sort_desc l).
Proof.
  induction 1; simpl; [constructor|]. apply Forall_insert_desc; auto.
Qed.

Lemma insert_desc_chain (x z : Q) (l : list Q) :
  x <= z -> desc (z :: l) -> desc (z :: insert_desc x l).
Proof.
  revert z; induction l as [|y l IH]; intros z Hxz H; simpl.
  - split; [exact Hxz|exact I].
  - destruct H as [Hyz Hl]. destruct (Qle_bool y x) eqn:E.
    + apply Qle_bool_iff in E. repeat split; auto.
    + assert (Hxy : x <= y).
      { apply Qlt_le_weak, Qnot_le_lt. intros C. apply Qle_bool_iff in C. congruence. }
      split; [exact Hyz|]. apply IH; auto.
Qed.

Lemma insert_desc_sorted (x : Q) (l : list Q) : desc l -> desc (insert_desc x l).
Proof.
  destruct l as [|y l]; intros H; simpl; [exact I|].
  destruct (Qle_bool y x) eqn:E.
  - apply Qle_bool_iff in E. split; auto.
  - apply insert_desc_chain; auto.
    apply Qlt_le_weak, Qnot_le_lt. intros C. apply Qle_bool_iff in C. congruence.
Qed.

Lemma sort_desc_sorted (l : list Q) : desc (sort_desc l).
Proof. induction l; simpl; [exact I|]. apply insert_desc_sorted; auto. Qed.

Lemma insert_desc_zero (l : list Q) (k : nat) :
  desc l -> Forall (fun y => 0 <= y) l ->
  Forall2 Qeq (insert_desc 0 (l ++ repeat 0 k)) (l ++ repeat 0 (S k)).
Proof.
  induction l as [|y l IH]; intros Hs Hn; simpl.
  - destruct k; simpl; [apply Forall2_Qeq_refl|].
    replace (Qle_bool 0 0) with true by reflexivity. apply Forall2_Qeq_refl.
  - inversion Hn as [|? ? Hy Hn']; subst.
    destruct (Qle_bool y 0) eqn:E.
    + apply Qle_bool_iff in E.
      assert (Hl : Forall (fun z => z == 0) l).
      { assert (Hle : Forall (fun z => z <= y) l).
        { apply (chain_Forall (fun a b => b <= a)) in Hs; [|intros a b c; lra].
          exact Hs. }
        rewrite Forall_forall in Hle, Hn' |- *. intros z Hz.
        specialize (Hle z Hz). specialize (Hn' z Hz). lra. }
      assert (Hz : forall m, Forall (fun z => z == 0) (repeat 0 m)).
      { intros m. apply Forall_forall. intros z Hz. apply repeat_spec in Hz. subst. reflexivity. }
      apply Forall2_Qeq_zeros.
      * simpl. rewrite !length_app. simpl. rewrite !repeat_length. lia.
      * constructor; [reflexivity|]. constructor; [apply Qle_antisym; assumption|]. apply Forall_app; auto.
      * constructor; [apply Qle_antisym; assumption|]. apply Forall_app. split; auto.
        exact (Hz (S k)).
    + constructor; [reflexivity|]. apply IH; auto.
      destruct l; [exact I|apply Hs].
Qed.

Lemma sum_prefix_Qeq (l1 l2 : list Q) (a b : Q) :
  Forall2 Qeq l1 l2 -> a == b -> fold_left Qplus l1 a == fold_left Qplus l2 b.
Proof.
  intros H; revert a b; induction H; intros a b Hab; simpl; auto.
  apply IHForall2. rewrite Hab, H. reflexivity.
Qed.

Lemma firstn_Forall2 {A B} (R : A -> B -> Prop) (n : nat) l1 l2 :
  Forall2 R l1 l2 -> Forall2 R (firstn n l1) (firstn n l2).
Proof.
  intros H; revert n; induction H; intros [|n]; simpl; constructor; auto.
Qed.

Lemma sum_top5_proper (l1 l2 : list Q) :
  Forall2 Qeq l1 l2 -> sum_top5 l1 == sum_top5 l2.
Proof.
  intros H. unfold sum_top5. apply sum_prefix_Qeq; [apply firstn_Forall2; auto|reflexivity].
Qed.

Lemma sum_zeros (m : nat) (a : Q) : fold_left Qplus (repeat 0 m) a == a.
Proof.
  revert a; induction m; intros a; simpl; [reflexivity|]. rewrite IHm. ring.
Qed.

Lemma firstn_repeat_min {A} (x : A) (n m : nat) :
  firstn n (repeat x m) = repeat x (Nat.min n m).
Proof.
  revert m; induction n; intros [|m]; simpl; auto. rewrite IHn. reflexivity.
Qed.

Lemma sum_top5_zeros (l : list Q) (k : nat) :
  sum_top5 (l ++ repeat 0 k) == sum_top5 l.
Proof.
  unfold sum_top5. rewrite firstn_app, fold_left_app, firstn_repeat_min. apply sum_zeros.
Qed.

Lemma eval_scaling_poly_nonneg (subj : sim_subject) (r : Q) : 0 <= eval_scaling_poly subj r.
Proof.
  unfold eval_scaling_poly. destruct (Subject.qltb _ _); [lra|apply qmax_ge_l].
Qed.

Lemma contribution_kept (subj : sim_subject) (r : Q) :
  Qle_bool (min_x subj) r = true -> contribution subj r == eval_scaling_poly subj r.
Proof.
  intros H. apply Qle_bool_iff in H. unfold contribution, eval_scaling_poly.
  destruct (Qlt_le_dec r (min_x subj)) as [C|_]; [lra|].
  replace (Subject.qltb r (min_x subj)) with false
    by (unfold Subject.qltb; apply Qle_bool_iff in H; rewrite H; reflexivity).
  cbv zeta. unfold qmax, qmin.
  set (v := X4 subj * r ^ 4 + X3 subj * r ^ 3 + X2 subj * r ^ 2 + X1 subj * r + X0 subj).
  destruct (Qlt_le_dec (max_y subj) v) as [H1|H1].
  - rewrite (Q.min_r v (max_y subj)) by lra.
    destruct (Qlt_le_dec 0 (max_y subj)).
    + rewrite Q.max_r by lra. reflexivity.
    + rewrite Q.max_l by lra. reflexivity.
  - rewrite (Q.min_l v (max_y subj)) by lra.
    destruct (Qlt_le_dec 0 v).
    + rewrite Q.max_r by lra. reflexivity.
    + rewrite Q.max_l by lra. reflexivity.
Qed.

Lemma contribution_dropped (subj : sim_subject) (r : Q) :
  Qle_bool (min_x subj) r = false -> contribution subj r = 0.
Proof.
  intros H. unfold contribution.
  destruct (Qlt_le_dec r (min_x subj)) as [_|C]; [reflexivity|].
  apply Qle_bool_iff in C. congruence.
Qed.

Lemma sorted_contributions (subjects : list sim_subject) (r : Q) :
  exists k, Forall2 Qeq (sort_desc (map (fun subj => contribution subj r) subjects))
                        (sort_desc (scaled_scores subjects r) ++ repeat 0 k).
Proof.
  unfold scaled_scores. induction subjects as [|x l [k IH]].
  - exists O. simpl. constructor.
  - simpl. destruct (Qle_bool (min_x x) r) eqn:E.
    + exists k. simpl. rewrite <- insert_desc_app_zeros by apply eval_scaling_poly_nonneg.
      apply insert_desc_proper; [apply contribution_kept; exact E|exact IH].
    + exists (S k). rewrite contribution_dropped by exact E.
      eapply Forall2_Qeq_trans; [apply insert_desc_proper; [reflexivity|exact IH]|].
      apply insert_desc_zero; [apply sort_desc_sorted|].
      apply Forall_sort_desc. apply Forall_forall. intros y Hy.
      apply in_map_iff in Hy. destruct Hy as [s [<- _]]. apply eval_scaling_poly_nonneg.
Qed.

End SimProofs.

(** C8: at every grid point [raw = 0.0, 0.5, ..., 100.0] (201 points, in
    order), the simulated aggregate equals the sum of the five largest
    contributions over all subjects, a subject contributing [0] below its
    [Min.x] and otherwise its quartic clamped into [[0, Max.y]]. *)
Theorem simulated_aggregate_is_best5
    (subjects : list Sim.sim_subject) :
  map fst (Sim.simulate_aggregate_curve subjects) =
    map (fun i => inject_Z (Z.of_nat i) * (1 # 2)) (seq 0 201) /\
  Forall (fun p => snd p == Sim.spec_aggregate subjects (fst p))
    (Sim.simulate_aggregate_curve subjects).
Proof.
  split.
  - unfold Sim.simulate_aggregate_curve. rewrite map_map. reflexivity.
  - unfold Sim.simulate_aggregate_curve. apply Forall_map. apply Forall_forall.
    intros i _. cbv zeta. simpl fst. simpl snd. unfold Sim.spec_aggregate.
    destruct (sorted_contributions subjects (inject_Z (Z.of_nat i) * (1 # 2))) as [k H].
    rewrite (sum_top5_proper _ _ H), sum_top5_zeros. reflexivity.
Qed.

(* ------------------------------------------------------------------ *)
(** ** The band distribution *)

Section BandProofs.
Import Bands.
Local Open Scope Z_scope.

Lemma get_set (d : dict) (k v k' dflt : Z) :
  get (set d k v) k' dflt = if k =? k' then v else get d k' dflt.
Proof.
  induction d as [|[a b] d IH]; simpl; [reflexivity|].
  destruct (Z.eqb_spec a k) as [->|Hak]; simpl.
  - destruct (k =? k'); reflexivity.
  - rewrite IH. destruct (Z.eqb_spec a k'), (Z.eqb_spec k k'); subst; congruence.
Qed.

Lemma get_not_mem (d : dict) (k dflt : Z) : mem d k = false -> get d k dflt = dflt.
Proof.
  induction d as [|[a b] d IH]; simpl; [reflexivity|].
  intros H. apply Bool.orb_false_iff in H. destruct H as [H1 H2].
  rewrite H1. auto.
Qed.

Lemma keys_set (d : dict) (k v x : Z) :
  In x (keys (set d k v)) <-> x = k \/ In x (keys d).
Proof.
  induction d as [|[a b] d IH]; simpl; [intuition congruence|].
  destruct (Z.eqb_spec a k) as [->|Hak]; simpl; [intuition congruence|].
  rewrite IH. intuition congruence.
Qed.

Lemma NoDup_keys_set (d : dict) (k v : Z) : NoDup (keys d) -> NoDup (keys (set d k v)).
Proof.
  induction d as [|[a b] d IH]; simpl; intros H.
  - repeat constructor; auto.
  - inversion H; subst. destruct (Z.eqb_spec a k) as [->|Hak]; simpl; constructor; auto.
    rewrite keys_set. intros [E|E]; [congruence|contradiction].
Qed.

Section FoldSets.
Variable f : nat * Z -> Z.

Definition fold_sets (P : list (nat * Z)) (d : dict) : dict :=
  fold_left (fun d' ib => set d' (snd ib) (f ib)) P d.

Lemma fold_sets_notin (P : list (nat * Z)) (d : dict) (k : Z) :
  ~ In k (map snd P) -> get (fold_sets P d) k 0 = get d k 0.
Proof.
  unfold fold_sets. revert d; induction P as [|ib P IH]; intros d H; simpl; [reflexivity|].
  simpl in H. rewrite IH by tauto. rewrite get_set.
  destruct (Z.eqb_spec (snd ib) k); [tauto|reflexivity].
Qed.

Lemma fold_sets_in (P : list (nat * Z)) (d : dict) (ib : nat * Z) :
  NoDup (map snd P) -> In ib P -> get (fold_sets P d) (snd ib) 0 = f ib.
Proof.
  unfold fold_sets. revert d; induction P as [|ib0 P IH]; intros d Hn Hin; [destruct Hin|].
  simpl in Hn. inversion Hn as [|? ? Hnot Hn']; subst. simpl.
  destruct Hin as [<-|Hin].
  - change (get (fold_sets P (set d (snd ib0) (f ib0))) (snd ib0) 0 = f ib0).
    rewrite fold_sets_notin by exact Hnot. rewrite get_set, Z.eqb_refl. reflexivity.
  - apply IH; auto.
Qed.

Lemma NoDup_keys_fold_sets (P : list (nat * Z)) (d : dict) :
  NoDup (keys d) -> NoDup (keys (fold_sets P d)).
Proof.
  unfold fold_sets. revert d; induction P; intros d H; simpl; auto.
  apply IHP. apply NoDup_keys_set. exact H.
Qed.

End FoldSets.

Lemma sumZ_app (l1 l2 : list Z) : sumZ (l1 ++ l2) = sumZ l1 + sumZ l2.
Proof. induction l1; simpl; [reflexivity|]. unfold sumZ in *. simpl. lia. Qed.

Lemma sumZ_perm (l1 l2 : list Z) : Permutation l1 l2 -> sumZ l1 = sumZ l2.
Proof. induction 1; unfold sumZ in *; simpl; lia. Qed.

Lemma sumZ_zeros {A} (g : A -> Z) (l : list A) :
  (forall x, In x l -> g x = 0) -> sumZ (map g l) = 0.
Proof.
  induction l as [|x l IH]; intros H; simpl; [reflexivity|].
  unfold sumZ in *. simpl. rewrite H by (left; reflexivity). rewrite IH; auto.
  intros; apply H; right; auto.
Qed.

Lemma sumZ_filter_split {A} (g : A -> Z) (p : A -> bool) (l : list A) :
  sumZ (map g l) =
    sumZ (map g (filter p l)) + sumZ (map g (filter (fun x => negb (p x)) l)).
Proof.
  induction l as [|x l IH]; simpl; [reflexivity|].
  unfold sumZ in *. destruct (p x); simpl; lia.
Qed.

Lemma insert_desc_perm (x : Z) (l : list Z) : Permutation (insert_desc x l) (x :: l).
Proof.
  induction l as [|y l IH]; simpl; [reflexivity|].
  destruct (y <=? x); [reflexivity|].
  rewrite IH. apply perm_swap.
Qed.

Lemma sort_desc_perm (l : list Z) : Permutation (sort_desc l) l.
Proof.
  induction l; simpl; [reflexivity|]. rewrite insert_desc_perm. auto.
Qed.

Lemma bands_from_le (b : Z) (n : nat) (x : Z) : In x (bands_from b n) -> x <= b.
Proof.
  revert b; induction n; intros b H; simpl in H; [contradiction|].
  destruct H as [<-|H]; [lia|]. specialize (IHn _ H). lia.
Qed.

Lemma bands_from_NoDup (b : Z) (n : nat) : NoDup (bands_from b n).
Proof.
  revert b; induction n; intros b; simpl; constructor; auto.
  intros H. apply bands_from_le in H. lia.
Qed.

Lemma map_snd_combine {A B} (l1 : list A) (l2 : list B) :
  length l1 = length l2 -> map snd (combine l1 l2) = l2.
Proof.
  revert l2; induction l1; intros [|b l2] H; simpl in *; try discriminate; auto.
  rewrite IHl1; auto.
Qed.

Lemma map_fst_combine {A B} (l1 : list A) (l2 : list B) :
  length l1 = length l2 -> map fst (combine l1 l2) = l1.
Proof.
  revert l2; induction l1; intros [|b l2] H; simpl in *; try discriminate; auto.
  rewrite IHl1; auto.
Qed.

Lemma sum_shares (n : nat) (base extra : Z) :
  0 <= extra ->
  sumZ (map (fun i => base + (if Z.of_nat i <? extra then 1 else 0)) (seq 0 n)) =
    Z.of_nat n * base + Z.min extra (Z.of_nat n).
Proof.
  intros He. induction n; [simpl; lia|].
  rewrite seq_S, map_app, sumZ_app, IHn, Nat2Z.inj_succ. change (0 + n)%nat with n.
  unfold sumZ. cbn [map fold_right]. destruct (Z.ltb_spec (Z.of_nat n) extra); lia.
Qed.

Lemma split_range_conserves (d : dict) (low high total_count : Z) :
  let remaining := total_count - already_assigned d low high in
  remaining = 0 \/ (0 < remaining /\ unassigned d low high <> []) ->
  range_sum (split_range d (low, high, total_count)) low high = total_count.
Proof.
  intros remaining Hrem. unfold range_sum.
  set (B := bands_in_range low high).
  rewrite (sumZ_filter_split _ (fun br => mem d br)).
  fold remaining. unfold split_range. fold remaining.
  set (U := unassigned d low high) in *.
  assert (HU : filter (fun x => negb (mem d x)) B = U) by reflexivity.
  rewrite HU.
  destruct ((remaining <=? 0) || Nat.eqb (length U) 0) eqn:G.
  - assert (Hr0 : remaining = 0).
    { destruct Hrem as [H|[H1 H2]]; [exact H|].
      exfalso. apply Bool.orb_true_iff in G. destruct G as [G|G].
      + apply Z.leb_le in G. lia.
      + apply Nat.eqb_eq, length_zero_iff_nil in G. contradiction. }
    rewrite (sumZ_zeros _ U).
    + unfold already_assigned in remaining. fold B in remaining. lia.
    + intros x Hx. unfold U, unassigned in Hx. apply filter_In in Hx.
      apply get_not_mem. destruct (mem d x); simpl in Hx; [destruct Hx as [_ Hx]; discriminate|reflexivity].
  - apply Bool.orb_false_iff in G. destruct G as [G1 G2].
    apply Z.leb_gt in G1. apply Nat.eqb_neq in G2.
    set (n := Z.of_nat (length U)).
    set (base := remaining / n). set (extra := remaining - base * n).
    set (P := combine (seq 0 (length U)) (sort_desc U)).
    set (g := fun ib : nat * Z => base + (if Z.of_nat (fst ib) <? extra then 1 else 0)).
    set (D := fold_left _ P d).
    assert (Hlen : length (seq 0 (length U)) = length (sort_desc U)).
    { rewrite length_seq. apply Permutation_length. symmetry. apply sort_desc_perm. }
    assert (HsP : map snd P = sort_desc U) by (apply map_snd_combine; exact Hlen).
    assert (HfP : map fst P = seq 0 (length U)) by (apply map_fst_combine; exact Hlen).
    assert (HnU : NoDup U) by (apply NoDup_filter, bands_from_NoDup).
    assert (HnP : NoDup (map snd P)).
    { rewrite HsP. apply (Permutation_NoDup (Permutation_sym (sort_desc_perm U))). exact HnU. }
    (* the bands already present keep their counts *)
    assert (HA : sumZ (map (fun br => get D br 0) (filter (fun br => mem d br) B))
                 = already_assigned d low high).
    { unfold already_assigned. fold B. f_equal. apply map_ext_in. intros br Hbr.
      change D with (fold_sets g P d). apply fold_sets_notin. rewrite HsP. intros Hin.
      apply (Permutation_in _ (sort_desc_perm U)) in Hin.
      unfold U, unassigned in Hin. apply filter_In in Hin.
      apply filter_In in Hbr. destruct Hbr as [_ Hm]. rewrite Hm in Hin. destruct Hin as [_ Hin]; discriminate. }
    (* the unassigned ones receive [remaining] in total *)
    assert (HB : sumZ (map (fun br => get D br 0) U) = remaining).
    { rewrite <- (sumZ_perm _ _ (Permutation_map _ (sort_desc_perm U))).
      rewrite <- HsP, map_map.
      rewrite (map_ext_in _ g P) by (intros ib Hib; change D with (fold_sets g P d); apply fold_sets_in; auto).
      replace (map g P) with
        (map (fun i => base + (if Z.of_nat i <? extra then 1 else 0)) (map fst P))
        by (rewrite map_map; reflexivity).
      rewrite HfP, sum_shares.
      - fold n.
        assert (Hn : 0 < n) by (unfold n; lia).
        pose proof (Z.div_mod remaining n ltac:(lia)).
        pose proof (Z.mod_pos_bound remaining n Hn).
        unfold extra, base. lia.
      - assert (Hn : 0 < n) by (unfold n; lia).
        pose proof (Z.div_mod remaining n ltac:(lia)).
        pose proof (Z.mod_pos_bound remaining n Hn).
        unfold extra, base. lia. }
    rewrite HA, HB. unfold remaining. lia.
Qed.

Lemma split_range_keeps (d : dict) (r : Z * Z * Z) (k : Z) :
  mem d k = true -> get (split_range d r) k 0 = get d k 0.
Proof.
  intros Hk. destruct r as [[low high] total_count]. unfold split_range.
  destruct (_ || _); [reflexivity|].
  match goal with |- get (fold_left (fun d' ib => set d' (snd ib) (@?g ib)) ?P d) k 0 = _ =>
    change (get (fold_sets g P d) k 0 = get d k 0) end.
  apply fold_sets_notin. intros Hin.
  rewrite map_snd_combine in Hin.
  - apply (Permutation_in _ (sort_desc_perm _)) in Hin.
    unfold unassigned in Hin. apply filter_In in Hin. rewrite Hk in Hin. destruct Hin as [_ Hin]; discriminate.
  - rewrite length_seq. apply Permutation_length. symmetry. apply sort_desc_perm.
Qed.

Lemma NoDup_keys_split_range (d : dict) (r : Z * Z * Z) :
  NoDup (keys d) -> NoDup (keys (split_range d r)).
Proof.
  intros H. destruct r as [[low high] total_count]. unfold split_range.
  destruct (_ || _); [exact H|].
  match goal with |- NoDup (keys (fold_left (fun d' ib => set d' (snd ib) (@?g ib)) ?P d)) =>
    change (NoDup (keys (fold_sets g P d))) end.
  apply NoDup_keys_fold_sets. exact H.
Qed.

Lemma NoDup_keys_band_students (t13 : list (Z * Z)) (t14 : list (Z * Z * Z)) :
  NoDup (keys (band_students t13 t14)).
Proof.
  unfold band_students.
  assert (H0 : forall d, NoDup (keys d) ->
                 NoDup (keys (fold_left (fun d ac => set d (fst ac) (snd ac)) t13 d))).
  { induction t13 as [|ac t13 IH]; intros d Hd; simpl.
    - exact Hd.
    - apply IH. apply NoDup_keys_set. exact Hd. }
  specialize (H0 [] (NoDup_nil Z)).
  revert H0. generalize (fold_left (fun d ac => set d (fst ac) (snd ac)) t13 []).
  induction t14 as [|r t14 IH]; intros d Hd; simpl; [exact Hd|].
  apply IH. apply NoDup_keys_split_range. exact Hd.
Qed.

Definition cumul_step (d : dict) (acc : list (Z * Z) * Z) (band : Z) : list (Z * Z) * Z :=
  let running := snd acc + get d band 0 in (fst acc ++ [(band, running)], running).

Lemma cumul_running (d : dict) (bands : list Z) (L : list (Z * Z)) (r : Z) :
  snd (fold_left (cumul_step d) bands (L, r)) = r + sumZ (map (fun b => get d b 0) bands).
Proof.
  revert L r; induction bands as [|b bands IH]; intros L r; simpl; [lia|].
  unfold cumul_step at 2. simpl. rewrite IH. unfold sumZ. simpl. lia.
Qed.

Lemma cumul_last (d : dict) (bands : list Z) (L : list (Z * Z)) (r : Z) :
  bands <> [] ->
  snd (last (fst (fold_left (cumul_step d) bands (L, r))) (0, 0)) =
    snd (fold_left (cumul_step d) bands (L, r)).
Proof.
  revert L r; induction bands as [|b bands IH]; intros L r H; [congruence|].
  simpl. unfold cumul_step at 2. simpl.
  destruct bands as [|b' bands].
  - simpl. rewrite last_last. reflexivity.
  - apply IH. discriminate.
Qed.

Lemma sum_get_keys (d : dict) :
  NoDup (keys d) -> sumZ (map (fun b => get d b 0) (keys d)) = sumZ (map snd d).
Proof.
  induction d as [|[k v] d IH]; intros H; simpl; [reflexivity|].
  inversion H as [|? ? Hk Hd]; subst.
  unfold sumZ in *. simpl. rewrite Z.eqb_refl. f_equal.
  rewrite <- IH by exact Hd. f_equal. apply map_ext_in. intros b Hb.
  destruct (Z.eqb_spec k b); [subst; contradiction|reflexivity].
Qed.

Lemma cumulative_lowest (d : dict) :
  NoDup (keys d) -> snd (last (cumulative d) (0, 0)) = sumZ (map snd d).
Proof.
  intros H. rewrite <- sum_get_keys by exact H.
  rewrite <- (sumZ_perm _ _ (Permutation_map _ (sort_desc_perm (keys d)))).
  unfold cumulative. fold (cumul_step d).
  destruct (sort_desc (keys d)) as [|b bs] eqn:E; [reflexivity|].
  rewrite cumul_last by discriminate. rewrite cumul_running. lia.
Qed.

End BandProofs.

(** C9 (as amended): splitting one range of [table14] over its 0.05-wide
    bands makes the range's per-band counts sum to its total exactly when the
    remaining count is zero, or positive with at least one band not yet
    assigned (a positive remainder with every band already assigned is
    dropped); a split never changes a band already present, so a conserved
    range stays conserved; the cumulative count at the lowest band is the
    sum of all per-band counts; and on the script's own [table13] and
    [table14] every range is conserved and the cumulative count at the
    lowest band (30.05) is the sum of [table14], 29869. *)
Theorem band_split_conservation :
  (forall d low high total_count,
     let remaining := total_count - Bands.already_assigned d low high in
     remaining = 0 \/ (0 < remaining /\ Bands.unassigned d low high <> []) ->
     Bands.range_sum (Bands.split_range d (low, high, total_count)) low high = total_count)%Z /\
  (forall d r k, Bands.mem d k = true ->
     Bands.get (Bands.split_range d r) k 0 = Bands.get d k 0)%Z /\
  (forall t13 t14,
     snd (last (Bands.cumulative (Bands.band_students t13 t14)) (0, 0)) =
       Bands.sumZ (map snd (Bands.band_students t13 t14)))%Z /\
  (let d := Bands.band_students Bands.table13 Bands.table14 in
   Forall (fun r => Bands.range_sum d (fst (fst r)) (snd (fst r)) = snd r) Bands.table14 /\
   snd (last (Bands.cumulative d) (0, 0)) = Bands.sumZ (map snd Bands.table14) /\
   Bands.sumZ (map snd Bands.table14) = 29869)%Z.
Proof.
  split; [|split; [|split]].
  - intros d low high total_count. apply split_range_conserves.
  - intros d r k. apply split_range_keeps.
  - intros t13 t14. apply cumulative_lowest, NoDup_keys_band_students.
  - cbv zeta. split; [|split].
    + apply Forall_forall. intros r Hr.
      assert (Hall : forallb (fun r => Z.eqb (Bands.range_sum
                        (Bands.band_students Bands.table13 Bands.table14)
                        (fst (fst r)) (snd (fst r))) (snd r)) Bands.table14 = true)
        by (vm_compute; reflexivity).
      rewrite forallb_forall in Hall. apply Z.eqb_eq, Hall, Hr.
    + vm_compute. reflexivity.
    + vm_compute. reflexivity.
Qed.

(** C9 counterexample: with [table13 = [(99.95, 1)]] and the single range
    [99.95-99.95] of total 5, the remaining count is 4 (non-negative) but
    every band of the range is already assigned, so the range keeps 1 student
    and the cumulative count at the lowest band is 1, not 5. *)
Lemma band_split_remainder_dropped :
  (5 - Bands.already_assigned [(9995, 1)] 9995 9995 = 4 /\
   Bands.range_sum (Bands.band_students [(9995, 1)] [(9995, 9995, 5)]) 9995 9995 = 1 /\
   snd (last (Bands.cumulative (Bands.band_students [(9995, 1)] [(9995, 9995, 5)])) (0, 0)) = 1 /\
   ~ (Bands.range_sum (Bands.band_students [(9995, 1)] [(9995, 9995, 5)]) 9995 9995 = 5))%Z.
Proof.
  split; [reflexivity|split; [reflexivity|split; [reflexivity|]]].
  vm_compute. discriminate.
Qed.

(* ================================================================== *)
(** * Instances of the theorems on concrete inputs *)

(** A general subject with percentile data
    [(30, 20), (50, 40), (70, 60), (85, 70), (98, 80)], fitted by the zero
    polynomial: the auto-optimizer succeeds on it. *)
Lemma auto_optimize_first_minimum_witness :
  let s := Subject.build_general zfit4 zfit3 String.EmptyString String.EmptyString
             30 50 70 85 98 20 40 60 70 80 in
  fst (Subject.auto_optimize_subject zfit4 zfit3 s) = true /\
  (let s' := snd (Subject.auto_optimize_subject zfit4 zfit3 s) in
   exists mi pyi err,
    (mi <= 40)%nat /\ (pyi <= 30)%nat /\
    Subject.cell_eval zfit4 s mi pyi = Some err /\
    Subject.min_x s' = Subject.grid_mx s mi /\
    Subject.pzy s' = Subject.grid_pzy s pyi /\
    (forall mi' pyi' err', (mi' <= 40)%nat -> (pyi' <= 30)%nat ->
       Subject.cell_eval zfit4 s mi' pyi' = Some err' -> err <= err') /\
    (forall mi' pyi' err', Subject.lex_lt (mi', pyi') (mi, pyi) -> (pyi' <= 30)%nat ->
       Subject.cell_eval zfit4 s mi' pyi' = Some err' -> err < err')).
Proof.
  intros s.
  assert (H : fst (Subject.auto_optimize_subject zfit4 zfit3 s) = true)
    by (vm_compute; reflexivity).
  split; [exact H|exact (auto_optimize_first_minimum zfit4 zfit3 s H)].
Defined.

Lemma lower_boundary_y_range_witness :
  0 <= 20 /\
  (let s := Subject.build_general zfit4 zfit3 String.EmptyString String.EmptyString
              30 50 70 85 98 20 40 60 70 80 in
   0 <= Subject.pzy s <= Subject.p25y s * (95 # 100)) /\
  (exists v, 0 <= v <= 20 * (95 # 100) /\
     Batch.PZY (Batch.process_general_subject zfit4 zfit3 String.EmptyString String.EmptyString
                  30 50 70 85 98 20 40 60 70 80) = round2 v) /\
  (forall s, 0 <= Subject.p25y s ->
     Subject.is_general (Subject.stype s) && Subject.qltb 0 (Subject.p25x s) = true ->
     let s' := Subject.reset_current zfit4 zfit3 s in
     0 <= Subject.pzy s' <= Subject.p25y s' * (95 # 100)) /\
  (forall s, fst (Subject.auto_optimize_subject zfit4 zfit3 s) = true ->
     let s' := snd (Subject.auto_optimize_subject zfit4 zfit3 s) in
     1 # 10 <= Subject.pzy s' <= Subject.p25y s' * (95 # 100)).
Proof.
  assert (H : 0 <= 20) by (vm_compute; discriminate).
  split; [exact H|].
  exact (lower_boundary_y_range zfit4 zfit3 String.EmptyString String.EmptyString
           30 50 70 85 98 20 40 60 70 80 H).
Defined.

Lemma backtest_self_shift_zero_witness :
  let res := Results.final_results [2; 1] (fun b => b * 100) (fun _ => 1%Z) (fun _ => 1%Z) 2%Z in
  let r := hd (Results.mkRow 0 0 0 0 0) res in
  In r res /\
  exists v, Results.agg_to_atar_2025 res (Results.agg r) = Some v /\ (v - Results.atar r == 0).
Proof.
  intros res r.
  assert (H : In r res) by (vm_compute; left; reflexivity).
  split; [exact H|exact (backtest_self_shift_zero [2; 1] (fun b => b * 100)
                            (fun _ => 1%Z) (fun _ => 1%Z) 2%Z r H)].
Defined.

Lemma agg_to_atar_monotone_bounded_witness :
  ([2; 1] <> [] /\ chain (fun b1 b2 => b2 < b1) [2; 1]) /\
  (let res := Results.final_results [2; 1] (fun b => b * 100) (fun _ => 1%Z) (fun _ => 1%Z) 2%Z in
   let f := Results.agg_to_atar_2025 res in
   (forall x y v w, x <= y -> f x = Some v -> f y = Some w -> v <= w) /\
   (forall x, exists v, f x = Some v /\ last [2; 1] 0 <= v /\ v <= hd 0 [2; 1]) /\
   (forall x, x <= last (map Results.agg res) 0 -> f x = Some (last [2; 1] 0)) /\
   (forall x, hd 0 (map Results.agg res) <= x -> f x = Some (hd 0 [2; 1]))).
Proof.
  assert (H1 : [2; 1] <> []) by discriminate.
  assert (H2 : chain (fun b1 b2 => b2 < b1) [2; 1]) by (vm_compute; split; [reflexivity|exact I]).
  split; [split; [exact H1|exact H2]|].
  exact (agg_to_atar_monotone_bounded [2; 1] (fun b => b * 100)
           (fun _ => 1%Z) (fun _ => 1%Z) 2%Z H1 H2).
Defined.

Lemma blended_strictly_increasing_witness :
  0 <= hd 0 [164; 170; 170; 488] /\
  last (Blend.enforce_monotone [164; 170; 170; 488]) 0 <= 500 /\
  (chain Qlt (Blend.enforce_monotone [164; 170; 170; 488]) /\
   Blend.finalize [164; 170; 170; 488] = Blend.enforce_monotone [164; 170; 170; 488] /\
   chain Qlt (Blend.finalize [164; 170; 170; 488])).
Proof.
  assert (H1 : 0 <= hd 0 [164; 170; 170; 488]) by (vm_compute; discriminate).
  assert (H2 : last (Blend.enforce_monotone [164; 170; 170; 488]) 0 <= 500)
    by (vm_compute; discriminate).
  split; [exact H1|split; [exact H2|]].
  exact (blended_strictly_increasing [164; 170; 170; 488] H1 H2).
Defined.

(* ================================================================== *)
(** * Further properties of the code *)

Lemma round_half_even_spec (q : Q) :
  inject_Z (round_half_even q) - (1 # 2) <= q /\ q <= inject_Z (round_half_even q) + (1 # 2).
Proof.
  destruct q as [n d]. unfold round_half_even. cbn [Qnum Qden].
  set (D := Z.pos d).
  assert (HD : (0 < D)%Z) by (unfold D; lia).
  pose proof (Z.div_mod n D ltac:(lia)) as Hdm.
  pose proof (Z.mod_pos_bound n D HD) as Hb.
  set (f := (n / D)%Z) in *. set (r := (n mod D)%Z) in *.
  assert (Hq : forall k : Z, (inject_Z k - (1 # 2) <= n # d <-> ((2 * k - 1) * D <= 2 * n)%Z)
                  /\ (n # d <= inject_Z k + (1 # 2) <-> (2 * n <= (2 * k + 1) * D)%Z)).
  { intros k. unfold Qle, Qminus, Qplus, inject_Z; cbn [Qnum Qden Qopp]. fold D.
    split; split; intros; nia. }
  destruct (Z.compare_spec (2 * r) D) as [E|E|E];
    [destruct (Z.even f)|..];
    (split; [apply Hq|apply Hq]); nia.
Qed.

Lemma round_half_even_tie (q : Q) (m : Z) :
  q == inject_Z m + (1 # 2) ->
  round_half_even q = if Z.even m then m else (m + 1)%Z.
Proof.
  destruct q as [n d]. unfold Qeq, Qplus, inject_Z; cbn [Qnum Qden]. intros H.
  unfold round_half_even. cbn [Qnum Qden].
  set (D := Z.pos d) in *.
  assert (HD : (0 < D)%Z) by (unfold D; lia).
  assert (E2 : (2 * (n - D * m) = D)%Z) by lia.
  assert (Ef : (n / D = m)%Z) by (symmetry; apply Z.div_unique with (r := (n - D * m)%Z); lia).
  assert (Er : (n mod D = n - D * m)%Z) by (symmetry; apply Z.mod_unique with (q := m); lia).
  rewrite Ef, Er, E2, Z.compare_refl. reflexivity.
Qed.

Lemma round_half_even_mono (q1 q2 : Q) :
  q1 <= q2 -> (round_half_even q1 <= round_half_even q2)%Z.
Proof.
  intros H.
  destruct (Z_le_gt_dec (round_half_even q1) (round_half_even q2)) as [|Hgt]; [assumption|].
  exfalso.
  destruct (round_half_even_spec q1) as [A1 B1].
  destruct (round_half_even_spec q2) as [A2 B2].
  set (n1 := round_half_even q1) in *. set (n2 := round_half_even q2) in *.
  assert (Hz : inject_Z n2 + 1 <= inject_Z n1).
  { change 1 with (inject_Z 1). rewrite <- inject_Z_plus. rewrite <- Zle_Qle. lia. }
  assert (Hn1 : inject_Z n1 <= inject_Z n2 + 1) by lra.
  assert (E1 : n1 = (n2 + 1)%Z).
  { apply Z.le_antisymm.
    - rewrite Zle_Qle, inject_Z_plus. exact Hn1.
    - lia. }
  assert (T1 : q1 == inject_Z n2 + (1 # 2)) by lra.
  assert (T2 : q2 == inject_Z n2 + (1 # 2)) by lra.
  pose proof (round_half_even_tie q1 n2 T1) as R1.
  pose proof (round_half_even_tie q2 n2 T2) as R2.
  fold n1 in R1. fold n2 in R2.
  destruct (Z.even n2); lia.
Qed.

Lemma round2_mono (x y : Q) : x <= y -> round2 x <= round2 y.
Proof.
  intros H. unfold round2, Qle; cbn [Qnum Qden].
  pose proof (round_half_even_mono (x * 100) (y * 100)) as M.
  assert (x * 100 <= y * 100) by lra. specialize (M H0). lia.
Qed.

Lemma round2_100 : round2 100 == 100.
Proof. reflexivity. Qed.
Lemma round2_0 : round2 0 == 0.
Proof. reflexivity. Qed.
Lemma round2_tenth : round2 (1 # 10) == 1 # 10.
Proof. reflexivity. Qed.

Lemma qmin_le_r (a b : Q) : qmin a b <= b.
Proof. unfold qmin. destruct (Qlt_le_dec b a); lra. Qed.
Lemma qmin_glb (a b c : Q) : c <= a -> c <= b -> c <= qmin a b.
Proof. unfold qmin. destruct (Qlt_le_dec b a); lra. Qed.
Lemma qmax_ge_r (a b : Q) : b <= qmax a b.
Proof. unfold qmax. destruct (Qlt_le_dec a b); lra. Qed.
Lemma qmin_mono (a b c d : Q) : a <= c -> b <= d -> qmin a b <= qmin c d.
Proof. unfold qmin. destruct (Qlt_le_dec b a), (Qlt_le_dec d c); lra. Qed.
Lemma qmax_mono (a b c d : Q) : a <= c -> b <= d -> qmax a b <= qmax c d.
Proof. unfold qmax. destruct (Qlt_le_dec a b), (Qlt_le_dec c d); lra. Qed.

(** X1: [estimate_max] returns a Max x between [min(100, p99x + 1)] and 100 and a Max y between [min(100, p99y + 0.5)] and 100, whatever the percentiles. *)
Theorem estimate_max_bounds (p90x p99x p90y p99y : Q) :
  let r := Batch.estimate_max p90x p99x p90y p99y in
  qmin 100 (p99x + 1) <= fst r <= 100 /\
  qmin 100 (p99y + (1 # 2)) <= snd r <= 100.
Proof.
  intros r. unfold r, Batch.estimate_max. cbv zeta. cbn [fst snd].
  split; split.
  - apply qmin_mono; [lra|]. pose proof (qmax_ge_l 1 (p99x - p90x)). lra.
  - apply qmin_le_l.
  - apply qmin_mono; [lra|apply qmax_ge_r].
  - apply qmin_le_l.
Qed.

Lemma estimate_max_range (p90x p99x p90y p99y : Q) :
  let r := Batch.estimate_max p90x p99x p90y p99y in
  qmin 100 (p99x + 1) <= fst r <= 100 /\
  qmin 100 (p99y + (1 # 2)) <= snd r <= 100.
Proof.
  intros r. unfold r, Batch.estimate_max. cbv zeta. cbn [fst snd].
  split; split.
  - apply qmin_mono; [lra|]. pose proof (qmax_ge_l 1 (p99x - p90x)). lra.
  - apply qmin_le_l.
  - apply qmin_mono; [lra|apply qmax_ge_r].
  - apply qmin_le_l.
Qed.

(** X2: a row of [process_general_subject] has Min y 0, and its rounded Max x and Max y lie between the rounded lower bounds of [estimate_max] and 100. *)
Theorem batch_general_row_bounds
    (f4 : list Q -> list Q -> Subject.quartic) (f3 : list Q -> list Q -> Subject.cubic)
    (nm cd : String.string) (p25x p50x p75x p90x p99x p25y p50y p75y p90y p99y : Q) :
  let r := Batch.process_general_subject f4 f3 nm cd
             p25x p50x p75x p90x p99x p25y p50y p75y p90y p99y in
  Batch.Min_Y r = 0 /\
  round2 (qmin 100 (p99x + 1)) <= Batch.Max_X r <= 100 /\
  round2 (qmin 100 (p99y + (1 # 2))) <= Batch.Max_Y r <= 100.
Proof.
  intros r. unfold r, Batch.process_general_subject.
  pose proof (estimate_max_range p90x p99x p90y p99y) as B.
  destruct (Batch.estimate_max p90x p99x p90y p99y) as [mx my]. cbn [fst snd] in B.
  cbv zeta.
  destruct (f4 _ _) as [[[[? ?] ?] ?] ?]. destruct (f3 _ _) as [[[? ?] ?] ?].
  cbn [Batch.Min_Y Batch.Max_X Batch.Max_Y].
  destruct B as [[B1 B2] [B3 B4]].
  split; [reflexivity|split; split].
  - apply round2_mono; exact B1.
  - rewrite <- round2_100. apply round2_mono; exact B2.
  - apply round2_mono; exact B3.
  - rewrite <- round2_100. apply round2_mono; exact B4.
Qed.

Section SubjectFacts.
Import Subject.
Context (f4 : list Q -> list Q -> quartic) (f3 : list Q -> list Q -> cubic).

Lemma cp_data (s : subject) :
  data_fields (compute_polynomials f4 f3 s) = data_fields s /\
  committed (compute_polynomials f4 f3 s) = committed s /\
  min_x (compute_polynomials f4 f3 s) = min_x s /\
  pzx (compute_polynomials f4 f3 s) = pzx s /\
  min_y (compute_polynomials f4 f3 s) = min_y s /\
  pzy (compute_polynomials f4 f3 s) = pzy s.
Proof.
  unfold compute_polynomials. destruct (_ || _); [repeat split|].
  cbv zeta. destruct (f4 _ _) as [[[[? ?] ?] ?] ?]. destruct (f3 _ _) as [[[? ?] ?] ?].
  repeat split.
Qed.

Lemma set_lower_data (s : subject) a b c d :
  data_fields (set_lower s a b c d) = data_fields s /\ committed (set_lower s a b c d) = committed s.
Proof. split; reflexivity. Qed.

Lemma auto_optimize_data (s : subject) :
  data_fields (snd (auto_optimize_subject f4 f3 s)) = data_fields s /\
  committed (snd (auto_optimize_subject f4 f3 s)) = committed s.
Proof.
  unfold auto_optimize_subject.
  destruct (_ || _); [split; reflexivity|].
  destruct (qltb _ _); [split; reflexivity|].
  destruct (Qle_bool _ _); [split; reflexivity|].
  destruct (scan f4 s) as [[e [[mx pzx'] pzy']]|]; [|split; reflexivity].
  cbn [snd]. destruct (cp_data (set_lower s mx pzx' 0 pzy')) as [D1 [D2 _]].
  rewrite D1, D2. split; reflexivity.
Qed.

Lemma eligible_data (s1 s2 : subject) :
  data_fields s1 = data_fields s2 -> eligible s1 = eligible s2.
Proof.
  intros E. destruct s1, s2. unfold data_fields in E. cbn in E.
  injection E; intros; subst. reflexivity.
Qed.

Ltac subj_proj := cbn [name code stype subject_id min_x pzx p25x p50x p75x p90x p99x max_x
  min_y pzy p25y p50y p75y p90y p99y max_y X4 X3 X2 X1 X0 Z3 Z2 Z1 Z0 max_fit_error committed
  negb orb andb].
Ltac subj_proj_in H := cbn [name code stype subject_id min_x pzx p25x p50x p75x p90x p99x max_x
  min_y pzy p25y p50y p75y p90y p99y max_y X4 X3 X2 X1 X0 Z3 Z2 Z1 Z0 max_fit_error committed
  negb orb andb] in H.

Lemma cp_active (s : subject) :
  eligible s = true -> negb (is_general (stype s)) || Qeq_bool (p25x s) 0 = false.
Proof.
  unfold eligible. intros He. apply andb_prop in He. destruct He as [G P]. rewrite G.
  cbn [negb orb]. apply qltb_true in P. destruct (Qeq_bool (p25x s) 0) eqn:Q0; [|reflexivity].
  apply Qeq_bool_iff in Q0. lra.
Qed.

Lemma reset_data (s1 s2 : subject) :
  eligible s1 = true -> data_fields s1 = data_fields s2 ->
  reset_current f4 f3 s1 = reset_current f4 f3 s2.
Proof.
  intros He E. pose proof (cp_active s1 He) as Hc.
  destruct s1, s2. unfold data_fields in E. cbn in E.
  injection E; intros; subst.
  unfold eligible in He. subj_proj_in He. subj_proj_in Hc.
  unfold reset_current, set_lower, min_gap. subj_proj. rewrite He.
  unfold compute_polynomials, anchors_x, anchors_y. subj_proj. rewrite Hc.
  destruct (f4 _ _) as [[[[? ?] ?] ?] ?]. destruct (f3 _ _) as [[[? ?] ?] ?].
  subj_proj. reflexivity.
Qed.


Lemma reset_fields (s : subject) :
  data_fields (reset_current f4 f3 s) = data_fields s.
Proof.
  unfold reset_current. destruct (_ && _); [|reflexivity]. cbv zeta.
  set (s' := compute_polynomials f4 f3 (set_lower s _ _ _ _)).
  transitivity (data_fields s'); [reflexivity|].
  unfold s'. rewrite (proj1 (cp_data _)). reflexivity.
Qed.

Lemma reset_not_eligible (s : subject) :
  eligible s = false -> reset_current f4 f3 s = s.
Proof. unfold reset_current, eligible. intros E. rewrite E. reflexivity. Qed.

Lemma move_data (d : drag) (x y : Q) (s : subject) :
  data_fields (on_mouse_move f4 f3 d x y s) = data_fields s /\
  committed (on_mouse_move f4 f3 d x y s) = committed s.
Proof.
  destruct d; cbn [on_mouse_move]; cbv zeta;
  match goal with |- context [compute_polynomials _ _ ?t] =>
    destruct (cp_data t) as [D1 [D2 _]] end; rewrite D1, D2; split; reflexivity.
Qed.

(** X7: Reset is idempotent, and on a subject Reset acts on (general with [p25x > 0]) it undoes an auto-optimization or a drag: resetting after either gives the same subject as resetting before. *)
Theorem reset_undoes_edits :
  (forall s, reset_current f4 f3 (reset_current f4 f3 s) = reset_current f4 f3 s) /\
  (forall s, eligible s = true ->
     reset_current f4 f3 (snd (auto_optimize_subject f4 f3 s)) = reset_current f4 f3 s) /\
  (forall d x y s, eligible s = true ->
     reset_current f4 f3 (on_mouse_move f4 f3 d x y s) = reset_current f4 f3 s).
Proof.
  split; [|split].
  - intros s. destruct (eligible s) eqn:E.
    + apply reset_data; [|apply reset_fields].
      rewrite (eligible_data _ s (reset_fields s)). exact E.
    + rewrite (reset_not_eligible s E). exact (reset_not_eligible s E).
  - intros s E. destruct (auto_optimize_data s) as [D _].
    apply reset_data; [|exact D]. rewrite (eligible_data _ s D). exact E.
  - intros d x y s E. destruct (move_data d x y s) as [D _].
    apply reset_data; [|exact D]. rewrite (eligible_data _ s D). exact E.
Qed.


Lemma cp_congr (s1 s2 : subject) :
  negb (is_general (stype s1)) || Qeq_bool (p25x s1) 0 = false ->
  nonfit_fields s1 = nonfit_fields s2 ->
  compute_polynomials f4 f3 s1 = compute_polynomials f4 f3 s2.
Proof.
  intros Hc E. destruct s1, s2. unfold nonfit_fields, data_fields in E. cbn in E.
  injection E; intros; subst. subj_proj_in Hc.
  unfold compute_polynomials, anchors_x, anchors_y. subj_proj. rewrite Hc.
  destruct (f4 _ _) as [[[[? ?] ?] ?] ?]. destruct (f3 _ _) as [[[? ?] ?] ?].
  reflexivity.
Qed.

(** X8: a general subject built by [build_general] with [p25x > 0] is already in its Reset state: Reset leaves it unchanged. *)
Theorem build_general_reset_fixed (cd nm : String.string)
    (a25 a50 a75 a90 a99 b25 b50 b75 b90 b99 : Q) :
  0 < a25 ->
  let s := build_general f4 f3 cd nm a25 a50 a75 a90 a99 b25 b50 b75 b90 b99 in
  reset_current f4 f3 s = s.
Proof.
  intros Ha s. unfold s, build_general. cbv zeta.
  match goal with |- context [compute_polynomials f4 f3 ?t] => set (S0 := t) end.
  assert (Hc0 : negb (is_general (stype S0)) || Qeq_bool (p25x S0) 0 = false).
  { unfold S0. subj_proj. destruct (Qeq_bool a25 0) eqn:Q0; [|reflexivity].
    apply Qeq_bool_iff in Q0. lra. }
  destruct (cp_data S0) as [D [Dc [Dmx [Dpzx [Dmy Dpzy]]]]].
  remember (compute_polynomials f4 f3 S0) as C eqn:HC.
  assert (HeC : eligible C = true).
  { rewrite (eligible_data C S0 D). unfold eligible, S0. subj_proj.
    apply qltb_true. exact Ha. }
  unfold reset_current.
  match goal with |- (if ?b then _ else _) = _ => replace b with true by (symmetry; exact HeC) end.
  cbv zeta.
  assert (E : data_fields C = data_fields S0) by exact D.
  unfold data_fields, S0 in E. subj_proj_in E.
  injection E as E1 E2 E3 E4 E5 E6 E7 E8 E9 E10 E11 E12 E13 E14 E15 E16.
  match goal with |- context [compute_polynomials f4 f3 (set_lower C ?a ?b ?c ?d)] =>
    assert (HS : compute_polynomials f4 f3 (set_lower C a b c d) = C) end.
  { transitivity (compute_polynomials f4 f3 S0); [apply cp_congr|exact (eq_sym HC)].
    - unfold set_lower. subj_proj. rewrite E3, E5. exact Hc0.
    - unfold nonfit_fields, data_fields, set_lower, min_gap. subj_proj.
      rewrite E1, E2, E3, E4, E5, E6, E7, E8, E9, E10, E11, E12, E13, E14, E15, E16, Dc.
      unfold S0. subj_proj. reflexivity. }
  rewrite HS. assert (Dc' : committed C = false) by (rewrite Dc; reflexivity).
  clear - Dc'. destruct C. subj_proj_in Dc'. subst. reflexivity.
Qed.


(** X4: [build_general] gives a subject with Min y 0, Min x in [[0, 10]], Max x 100, Max y between [round(min(100, b99 + 0.5), 2)] and 100, not committed, and the ten report percentiles stored unchanged. *)
Theorem build_general_bounds (cd nm : String.string)
    (a25 a50 a75 a90 a99 b25 b50 b75 b90 b99 : Q) :
  let s := build_general f4 f3 cd nm a25 a50 a75 a90 a99 b25 b50 b75 b90 b99 in
  min_y s = 0 /\ 0 <= min_x s <= 10 /\ max_x s = 100 /\
  round2 (qmin 100 (b99 + (1 # 2))) <= max_y s <= 100 /\ committed s = false /\
  [p25x s; p50x s; p75x s; p90x s; p99x s; p25y s; p50y s; p75y s; p90y s; p99y s] =
    [a25; a50; a75; a90; a99; b25; b50; b75; b90; b99].
Proof.
  intros s. unfold s, build_general. cbv zeta.
  match goal with |- context [compute_polynomials f4 f3 ?t] => set (S0 := t) end.
  destruct (cp_data S0) as [D [Dc [Dmx [_ [Dmy _]]]]].
  remember (compute_polynomials f4 f3 S0) as C eqn:HC. clear HC.
  unfold data_fields, S0 in D. subj_proj_in D.
  injection D as E1 E2 E3 E4 E5 E6 E7 E8 E9 E10 E11 E12 E13 E14 E15 E16.
  rewrite Dmx, Dmy, Dc, E5, E6, E7, E8, E9, E10, E11, E12, E13, E14, E15, E16.
  unfold S0. subj_proj.
  split; [reflexivity|split; [|split; [reflexivity|split; [|split; reflexivity]]]].
  - apply clamp_lower_bounds. lra.
  - split.
    + apply round2_mono, qmin_mono; [lra|apply qmax_ge_r].
    + apply Qle_trans with (round2 100); [apply round2_mono, qmin_le_l|].
      pose proof round2_100. lra.
Qed.

Lemma csl_data (s : subject) a b c d :
  data_fields (compute_polynomials f4 f3 (set_lower s a b c d)) = data_fields s.
Proof. rewrite (proj1 (cp_data _)). reflexivity. Qed.
Lemma csl_min_x (s : subject) a b c d : min_x (compute_polynomials f4 f3 (set_lower s a b c d)) = a.
Proof. destruct (cp_data (set_lower s a b c d)) as [_ [_ [E1 [E2 [E3 E4]]]]]. rewrite ?E1, ?E2, ?E3, ?E4. reflexivity. Qed.
Lemma csl_pzx (s : subject) a b c d : pzx (compute_polynomials f4 f3 (set_lower s a b c d)) = b.
Proof. destruct (cp_data (set_lower s a b c d)) as [_ [_ [E1 [E2 [E3 E4]]]]]. rewrite ?E1, ?E2, ?E3, ?E4. reflexivity. Qed.
Lemma csl_min_y (s : subject) a b c d : min_y (compute_polynomials f4 f3 (set_lower s a b c d)) = c.
Proof. destruct (cp_data (set_lower s a b c d)) as [_ [_ [E1 [E2 [E3 E4]]]]]. rewrite ?E1, ?E2, ?E3, ?E4. reflexivity. Qed.
Lemma csl_pzy (s : subject) a b c d : pzy (compute_polynomials f4 f3 (set_lower s a b c d)) = d.
Proof. destruct (cp_data (set_lower s a b c d)) as [_ [_ [E1 [E2 [E3 E4]]]]]. rewrite ?E1, ?E2, ?E3, ?E4. reflexivity. Qed.

(** X5: dragging the Min point keeps the report fields and PZ y, sets Min y to 0 and puts Min x in [[0, round(max(0, p25x - 2 min_gap), 2)]]; dragging the PZ point keeps the report fields, Min x, PZ x and Min y and puts PZ y in [[0.1, round(max(0.1, p25y - 0.5), 2)]]. *)
Theorem drag_bounds (x y : Q) (s : subject) :
  let s1 := on_mouse_move f4 f3 DragMin x y s in
  let s2 := on_mouse_move f4 f3 DragPZ x y s in
  (data_fields s1 = data_fields s /\ min_y s1 = 0 /\ pzy s1 = pzy s /\
   0 <= min_x s1 <= round2 (qmax 0 (p25x s - 2 * min_gap s))) /\
  (data_fields s2 = data_fields s /\ min_x s2 = min_x s /\ pzx s2 = pzx s /\
   min_y s2 = min_y s /\ 1 # 10 <= pzy s2 <= round2 (qmax (1 # 10) (p25y s - (1 # 2)))).
Proof.
  intros s1 s2. unfold s1, s2, on_mouse_move. cbv zeta.
  rewrite !csl_data, !csl_min_x, !csl_pzx, !csl_min_y, !csl_pzy.
  split; (split; [reflexivity|split; [reflexivity|split; [reflexivity|]]]).
  - split.
    + apply Qle_trans with (round2 0); [rewrite round2_0; lra|].
      apply round2_mono, qmax_ge_l.
    + apply round2_mono, qmax_mono; [lra|apply qmin_le_l].
  - split; [reflexivity|split].
    + apply Qle_trans with (round2 (1 # 10)); [rewrite round2_tenth; lra|].
      apply round2_mono, qmax_ge_l.
    + apply round2_mono, qmax_mono; [lra|apply qmin_le_l].
Qed.

Lemma fold_qmax_bounds {A} (g : A -> Q) (L : list A) (e : Q) :
  e <= fold_left (fun e a => qmax e (g a)) L e /\
  Forall (fun a => g a <= fold_left (fun e a => qmax e (g a)) L e) L.
Proof.
  revert e; induction L as [|a L IH]; intros e; simpl; [split; [lra|constructor]|].
  destruct (IH (qmax e (g a))) as [H1 H2]. split.
  - apply Qle_trans with (qmax e (g a)); [apply qmax_ge_l|exact H1].
  - constructor; [|exact H2]. apply Qle_trans with (qmax e (g a)); [apply qmax_ge_r|exact H1].
Qed.

Lemma max_abs_residual_bounds (c : quartic) (xs ys : list Q) :
  length xs = length ys ->
  0 <= max_abs_residual c xs ys /\
  Forall2 (fun x y => Qabs (eval4 c x - y) <= max_abs_residual c xs ys) xs ys.
Proof.
  intros Hl. unfold max_abs_residual.
  destruct (fold_qmax_bounds (fun xy => Qabs (eval4 c (fst xy) - snd xy)) (combine xs ys) 0)
    as [H1 H2].
  split; [exact H1|]. clear H1.
  revert H2. generalize (fold_left (fun e xy => qmax e (Qabs (eval4 c (fst xy) - snd xy)))
                            (combine xs ys) 0).
  intros m. revert ys Hl. induction xs as [|x xs IH]; intros [|y ys] Hl H; try discriminate.
  - constructor.
  - inversion H; subst. constructor; [assumption|]. apply IH; [injection Hl; auto|assumption].
Qed.

(** X12: after [compute_polynomials] on a general subject with [p25x <> 0], [max_fit_error] is non-negative and bounds the absolute residual of the quartic at each of the eight anchor points. *)
Theorem fit_error_bounds_residuals (s : subject) :
  is_general (stype s) = true -> Qeq_bool (p25x s) 0 = false ->
  let s' := compute_polynomials f4 f3 s in
  0 <= max_fit_error s' /\
  Forall2 (fun x y => Qabs (eval4 (X4 s', X3 s', X2 s', X1 s', X0 s') x - y) <= max_fit_error s')
    (anchors_x s') (anchors_y s').
Proof.
  intros G P s'. unfold s', compute_polynomials. rewrite G, P. cbv zeta. cbn [negb orb].
  pose proof (max_abs_residual_bounds (f4 (anchors_x s) (anchors_y s)) (anchors_x s) (anchors_y s)
                eq_refl) as B.
  destruct (f4 _ _) as [[[[x4 x3] x2] x1] x0]. destruct (f3 _ _) as [[[? ?] ?] ?].
  unfold anchors_x, anchors_y in *. subj_proj. exact B.
Qed.

(** X6: [auto_optimize_subject] never changes the report fields (name, code, type, id, the percentiles and Max) or the committed flag, and on success sets Min y to 0. *)
Theorem auto_optimize_keeps_data (s : subject) :
  let s' := snd (auto_optimize_subject f4 f3 s) in
  data_fields s' = data_fields s /\ committed s' = committed s /\
  (fst (auto_optimize_subject f4 f3 s) = true -> min_y s' = 0).
Proof.
  intros s'. destruct (auto_optimize_data s) as [D1 D2].
  split; [exact D1|split; [exact D2|]].
  unfold s', auto_optimize_subject.
  destruct (_ || _); [discriminate|].
  destruct (qltb _ _); [discriminate|].
  destruct (Qle_bool _ _); [discriminate|].
  destruct (scan f4 s) as [[e [[mx pzx'] pzy']]|]; [|discriminate].
  intros _. cbn [snd]. apply csl_min_y.
Qed.

Lemma filter_split_count {A} (p q : A -> bool) (L : list A) :
  (length (filter (fun a => p a && q a) L) + length (filter (fun a => p a && negb (q a)) L) =
   length (filter p L))%nat.
Proof.
  induction L as [|a L IH]; simpl; [reflexivity|].
  destruct (p a), (q a); simpl; lia.
Qed.

(** X9: [_auto_fit_all] replaces each eligible subject (general, [p25x > 0]) by its auto-optimized record and keeps the others; [succeeded] counts the eligible subjects whose optimization succeeded, [failed_names] lists, in order, the names of the eligible ones that failed, and the two together account for every eligible subject. *)
Theorem auto_fit_all_outcome (subjects : list subject) :
  let r := auto_fit_all f4 f3 subjects in
  fst (fst r) = map (fun s => if eligible s then snd (auto_optimize_subject f4 f3 s) else s) subjects /\
  snd (fst r) = length (filter (fun s => eligible s && fst (auto_optimize_subject f4 f3 s)) subjects) /\
  snd r = map name (filter (fun s => eligible s && negb (fst (auto_optimize_subject f4 f3 s))) subjects) /\
  (snd (fst r) + length (snd r) = length (filter eligible subjects))%nat.
Proof.
  intros r. unfold r, auto_fit_all.
  match goal with |- context [fold_left ?F subjects _] => set (step := F) end.
  assert (Hs : forall done k fl a, step (done, k, fl) a =
    (done ++ [if eligible a then snd (auto_optimize_subject f4 f3 a) else a],
     (k + if eligible a && fst (auto_optimize_subject f4 f3 a) then 1 else 0)%nat,
     fl ++ (if eligible a && negb (fst (auto_optimize_subject f4 f3 a)) then [name a] else []))).
  { intros done k fl a. unfold step. cbv beta iota.
    destruct (eligible a); cbn [andb negb].
    - destruct (auto_optimize_subject f4 f3 a) as [[|] s']; cbn [fst snd negb];
        rewrite ?app_nil_r; f_equal; f_equal; lia.
    - rewrite app_nil_r, Nat.add_0_r. reflexivity. }
  clearbody step.
  assert (G : forall L done k fl, fold_left step L (done, k, fl) =
    (done ++ map (fun s => if eligible s then snd (auto_optimize_subject f4 f3 s) else s) L,
     (k + length (filter (fun s => eligible s && fst (auto_optimize_subject f4 f3 s)) L))%nat,
     fl ++ map name (filter (fun s => eligible s && negb (fst (auto_optimize_subject f4 f3 s))) L))).
  { induction L as [|a L IH]; intros done k fl; cbn [fold_left].
    - rewrite !app_nil_r, Nat.add_0_r. reflexivity.
    - rewrite Hs, IH. cbn [map filter]. rewrite <- !app_assoc.
      destruct (eligible a && fst (auto_optimize_subject f4 f3 a)), (eligible a && negb _);
        cbn [length map app]; f_equal; f_equal; lia. }
  rewrite G. cbn [fst snd app]. split; [reflexivity|split; [reflexivity|split; [reflexivity|]]].
  rewrite length_map. apply filter_split_count.
Qed.

End SubjectFacts.

Lemma count_app (p : Batch.general_row -> bool) (l1 l2 : list Batch.general_row) :
  Batch.count p (l1 ++ l2) = (Batch.count p l1 + Batch.count p l2)%nat.
Proof. unfold Batch.count. rewrite filter_app, length_app. reflexivity. Qed.

Lemma count_map_ext {A} (p : Batch.general_row -> bool) (f : A -> Batch.general_row)
    (q : A -> bool) (l : list A) :
  (forall a, In a l -> p (f a) = q a) -> Batch.count p (map f l) = length (filter q l).
Proof.
  unfold Batch.count. induction l as [|a l IH]; intros H; simpl; [reflexivity|].
  rewrite (H a (or_introl eq_refl)). destruct (q a); simpl; rewrite IH; auto.
  - intros b Hb. apply H. right. exact Hb.
  - intros b Hb. apply H. right. exact Hb.
Qed.

Lemma general_row_fields f4 f3 nm cd p25x p50x p75x p90x p99x p25y p50y p75y p90y p99y :
  let r := Batch.process_general_subject f4 f3 nm cd
             p25x p50x p75x p90x p99x p25y p50y p75y p90y p99y in
  Batch.Min_X r = 10 /\ Batch.P25_X r = p25x /\ Batch.P50_Y r = p50y.
Proof.
  intros r. unfold r, Batch.process_general_subject. cbv zeta.
  destruct (Batch.estimate_max _ _ _ _) as [mx my].
  destruct (f4 _ _) as [[[[? ?] ?] ?] ?]. destruct (f3 _ _) as [[[? ?] ?] ?].
  repeat split.
Qed.

(** X3: when every Table 6 / Table 7 entry with data has a non-zero P25 x, the summary counts of [results] are: one VET row per VET subject; one no-data row per entry without data plus one per Table 8 subject with [c = 0]; one applied row per Table 8 subject with [c <> 0]; and the number of rows with polynomials is the number of them among the rows built from the Table 6 / Table 7 entries with data. *)
Theorem batch_summary_counts f4 f3 (t6 t7 : list Batch.entry)
    (t8 : list (String.string * String.string * Q * Q * Q))
    (vets : list (String.string * Z * Q)) :
  Forall (fun e : Batch.entry =>
            match snd e with Some p => ~ Batch.d25x p == 0 | None => True end) (t6 ++ t7) ->
  let rows := Batch.results f4 f3 t6 t7 t8 vets in
  Batch.count Batch.is_vet rows = length vets /\
  Batch.count Batch.is_no_data rows =
    (length (filter (fun e : Batch.entry => match snd e with None => true | Some _ => false end)
                    (t6 ++ t7)) +
     length (filter (fun e : String.string * String.string * Q * Q * Q =>
                       let '(_, _, c, _, _) := e in Qeq_bool c 0) t8))%nat /\
  Batch.count Batch.is_applied rows =
    length (filter (fun e : String.string * String.string * Q * Q * Q =>
                      let '(_, _, c, _, _) := e in negb (Qeq_bool c 0)) t8) /\
  Batch.count Batch.has_polynomials rows =
    Batch.count Batch.has_polynomials
      (map (Batch.process_entry f4 f3)
           (filter (fun e : Batch.entry => match snd e with None => false | Some _ => true end)
                   (t6 ++ t7))).
Proof.
  intros H rows. unfold rows, Batch.results. rewrite app_assoc, <- map_app.
  rewrite !count_app.
  assert (Ev : forall e : Batch.entry, In e (t6 ++ t7) ->
     Batch.is_vet (Batch.process_entry f4 f3 e) = false /\
     Batch.is_no_data (Batch.process_entry f4 f3 e) =
       match snd e with None => true | Some _ => false end /\
     Batch.is_applied (Batch.process_entry f4 f3 e) = false).
  { intros e He. rewrite Forall_forall in H. specialize (H e He).
    destruct e as [[cd nm] [p|]]; cbn [snd] in H |- *.
    - unfold Batch.process_entry.
      destruct (general_row_fields f4 f3 nm cd (Batch.d25x p) (Batch.d50x p) (Batch.d75x p)
                  (Batch.d90x p) (Batch.d99x p) (Batch.d25y p) (Batch.d50y p) (Batch.d75y p)
                  (Batch.d90y p) (Batch.d99y p)) as [E1 [E2 E3]].
      unfold Batch.is_vet, Batch.is_no_data, Batch.is_applied. rewrite E1, E2.
      assert (Z : Qeq_bool (Batch.d25x p) 0 = false).
      { destruct (Qeq_bool (Batch.d25x p) 0) eqn:Q0; [|reflexivity].
        apply Qeq_bool_iff in Q0. contradiction. }
      rewrite Z. cbn. rewrite andb_false_r. repeat split.
    - repeat split. }
  split; [|split; [|split]].
  - rewrite (count_map_ext _ _ (fun _ => false)) by (intros e He; apply (Ev e He)).
    rewrite (count_map_ext _ _ (fun _ => false)) by (intros [[[[cd nm] c] b] a] _; reflexivity).
    rewrite (count_map_ext _ _ (fun _ => true)) by (intros [[nm sid] v] _; unfold Batch.is_vet, Batch.is_no_data, Batch.is_applied, Batch.has_polynomials, Batch.process_vet_subject; cbn; destruct (Qeq_bool v 0); reflexivity).
    rewrite !filter_false, filter_true. reflexivity.
  - rewrite (count_map_ext _ _ (fun e : Batch.entry => match snd e with None => true | Some _ => false end))
      by (intros e He; apply (Ev e He)).
    rewrite (count_map_ext _ _ (fun e : String.string * String.string * Q * Q * Q =>
                       let '(_, _, c, _, _) := e in Qeq_bool c 0))
      by (intros [[[[cd nm] c] b] a] _; unfold Batch.is_no_data; cbn;
          destruct (Qeq_bool c 0); reflexivity).
    rewrite (count_map_ext _ _ (fun _ => false)) by (intros [[nm sid] v] _; unfold Batch.is_vet, Batch.is_no_data, Batch.is_applied, Batch.has_polynomials, Batch.process_vet_subject; cbn; destruct (Qeq_bool v 0); reflexivity).
    rewrite !filter_false. simpl. lia.
  - rewrite (count_map_ext _ _ (fun _ => false)) by (intros e He; apply (Ev e He)).
    rewrite (count_map_ext _ _ (fun e : String.string * String.string * Q * Q * Q =>
                       let '(_, _, c, _, _) := e in negb (Qeq_bool c 0)))
      by (intros [[[[cd nm] c] b] a] _; unfold Batch.is_applied; cbn;
          destruct (Qeq_bool c 0); reflexivity).
    rewrite (count_map_ext _ _ (fun _ => false)) by (intros [[nm sid] v] _; unfold Batch.is_vet, Batch.is_no_data, Batch.is_applied, Batch.has_polynomials, Batch.process_vet_subject; cbn; destruct (Qeq_bool v 0); reflexivity).
    rewrite !filter_false. simpl. lia.
  - rewrite (count_map_ext Batch.has_polynomials _ (fun _ => false) t8)
      by (intros [[[[cd nm] c] b] a] _; reflexivity).
    rewrite (count_map_ext Batch.has_polynomials _ (fun _ => false) vets)
      by (intros [[nm sid] v] _; unfold Batch.is_vet, Batch.is_no_data, Batch.is_applied, Batch.has_polynomials, Batch.process_vet_subject; cbn; destruct (Qeq_bool v 0); reflexivity).
    rewrite !filter_false. simpl. rewrite Nat.add_0_r.
    clear. unfold Batch.count. induction (t6 ++ t7) as [|[[cd nm] [p|]] l IH]; simpl.
    + reflexivity.
    + destruct (Batch.has_polynomials _); simpl; rewrite IH; reflexivity.
    + exact IH.
Qed.

Lemma Qpower_succ_nat (x : Q) (n : nat) : x ^ Z.of_nat (S n) == x ^ Z.of_nat n * x.
Proof.
  rewrite Nat2Z.inj_succ, <- Z.add_1_r, Qpower_plus' by lia. reflexivity.
Qed.

Lemma horner_acc (x : Q) (l : list Q) (b : Q) :
  fold_left (fun acc c => acc * x + c) l b == b * x ^ Z.of_nat (length l) + horner l x.
Proof.
  unfold horner. revert b; induction l as [|c l IH]; intros b; cbn [fold_left length].
  - simpl. lra.
  - rewrite (IH (b * x + c)), (IH (0 * x + c)). rewrite Qpower_succ_nat. ring.
Qed.

Lemma eval_poly_fold (x : Q) (n : nat) (l : list Q) (a : Q) (i : nat) :
  (i + length l = n)%nat ->
  fst (fold_left (fun acc c => (fst acc + c * x ^ Z.of_nat (n - 1 - snd acc), S (snd acc)))
                 l (a, i)) == a + horner l x.
Proof.
  revert a i; induction l as [|c l IH]; intros a i Hn; simpl.
  - unfold horner. simpl. lra.
  - rewrite IH by (simpl in Hn; lia). unfold horner at 2. simpl.
    rewrite (horner_acc x l (0 * x + c)).
    replace (n - 1 - i)%nat with (length l) by (simpl in Hn; lia). ring.
Qed.

(** X11: [eval_poly] evaluates a coefficient list, highest degree first, as Horner's rule does; on five coefficients it agrees with the quartic used by the fits, as does [eval_poly_4] of the batch script. *)
Theorem eval_poly_horner :
  (forall (coeffs : list Q) (x : Q), Subject.eval_poly coeffs x == horner coeffs x) /\
  (forall a4 a3 a2 a1 a0 x : Q,
     Subject.eval_poly [a4; a3; a2; a1; a0] x == Subject.eval4 (a4, a3, a2, a1, a0) x /\
     Batch.eval_poly_4 (a4, a3, a2, a1, a0) x == Subject.eval4 (a4, a3, a2, a1, a0) x).
Proof.
  assert (H : forall coeffs x, Subject.eval_poly coeffs x == horner coeffs x).
  { intros coeffs x. unfold Subject.eval_poly. rewrite eval_poly_fold by reflexivity. lra. }
  split; [exact H|]. intros a4 a3 a2 a1 a0 x. rewrite H. split; [|reflexivity].
  unfold horner, Subject.eval4. simpl. ring.
Qed.

Lemma sum_bounded (M : Q) (l : list Q) (b : Q) :
  Forall (fun v => 0 <= v <= M) l ->
  b <= fold_left Qplus l b <= b + inject_Z (Z.of_nat (length l)) * M.
Proof.
  intros H. revert b; induction H as [|v l Hv H IH]; intros b; cbn [fold_left length].
  - change (inject_Z (Z.of_nat 0)) with 0. lra.
  - destruct (IH (b + v)) as [H1 H2]. rewrite Nat2Z.inj_succ, <- Z.add_1_r, inject_Z_plus.
    change (inject_Z 1) with 1. lra.
Qed.

Lemma chain_seq (R : nat -> nat -> Prop) (n k : nat) :
  (forall i, R i (S i)) -> chain R (seq k n).
Proof.
  intros H. revert k; induction n as [|n IH]; intros k; [exact I|].
  destruct n as [|n]; [exact I|]. cbn [seq chain]. split; [apply H|apply IH].
Qed.

(** X13: [simulate_aggregate_curve] has 201 points with strictly increasing raw scores and, when every subject's Max y is at most [M] with [M >= 0], every aggregate lies in [[0, 5 M]]. *)
Theorem simulated_curve_bounds (subjects : list Sim.sim_subject) (M : Q) :
  0 <= M -> Forall (fun subj => Sim.max_y subj <= M) subjects ->
  let c := Sim.simulate_aggregate_curve subjects in
  length c = 201%nat /\
  chain (fun p q => fst p < fst q) c /\
  Forall (fun p => 0 <= snd p <= 5 * M) c.
Proof.
  intros HM HS c. unfold c, Sim.simulate_aggregate_curve. split; [|split].
  - rewrite length_map, length_seq. reflexivity.
  - apply chain_map, chain_seq. intros i. cbn [fst]. rewrite Nat2Z.inj_succ, <- Z.add_1_r, inject_Z_plus. change (inject_Z 1) with 1. lra.
  - apply Forall_forall. intros p Hp. apply in_map_iff in Hp. destruct Hp as [i [<- _]].
    cbn [snd]. unfold Sim.sum_top5.
    set (l := Sim.sort_desc _).
    assert (Hl : Forall (fun v => 0 <= v <= M) l).
    { apply Forall_sort_desc. unfold Sim.scaled_scores. apply Forall_map.
      apply Forall_forall. intros subj Hsubj. apply filter_In in Hsubj. destruct Hsubj as [Hsubj _].
      rewrite Forall_forall in HS. specialize (HS subj Hsubj).
      split; [apply eval_scaling_poly_nonneg|].
      unfold Sim.eval_scaling_poly. destruct (Subject.qltb _ _); [exact HM|].
      apply qmax_le; [exact HM|]. apply Qle_trans with (Sim.max_y subj); [apply qmin_le_r|exact HS]. }
    assert (Hf : Forall (fun v => 0 <= v <= M) (firstn 5 l)).
    { rewrite <- (firstn_skipn 5 l) in Hl. apply Forall_app in Hl. apply Hl. }
    destruct (sum_bounded M (firstn 5 l) 0 Hf) as [H1 H2].
    assert (Hlen : (length (firstn 5 l) <= 5)%nat) by (rewrite length_firstn; lia).
    split; [lra|]. apply Qle_trans with (0 + inject_Z (Z.of_nat (length (firstn 5 l))) * M);
      [exact H2|].
    assert (inject_Z (Z.of_nat (length (firstn 5 l))) <= 5).
    { change 5 with (inject_Z 5). rewrite <- Zle_Qle. lia. }
    nra.
Qed.

Lemma round2_upper (y : Q) : round2 y <= y + (1 # 200).
Proof.
  unfold round2. destruct (round_half_even_spec (y * 100)) as [H _].
  assert (E : forall z, z # 100 == inject_Z z * (1 # 100)).
  { intros z. unfold Qeq, Qmult, inject_Z. simpl. lia. }
  rewrite E. lra.
Qed.

Section FixTiesExtra.
Import Results.

Definition same_but_agg (r r' : row) : Prop :=
  atar r' = atar r /\ students r' = students r /\ cumul r' = cumul r /\
  cum_pct r' = cum_pct r /\ agg r' <= agg r.

Lemma fix_row_same (prev r : row) : same_but_agg r (fix_row prev r).
Proof.
  unfold fix_row, same_but_agg. destruct (Qle_bool (agg prev) (agg r)) eqn:E; cbn.
  - apply Qle_bool_iff in E. pose proof (round2_upper (agg prev - (1 # 100))).
    repeat split; lra.
  - repeat split; lra.
Qed.

Lemma fix_from_same (l : list row) (prev : row) : Forall2 same_but_agg l (fix_from prev l).
Proof.
  revert prev; induction l as [|r l IH]; intros prev; simpl; constructor; auto using fix_row_same.
Qed.

Lemma fix_from_id (l : list row) (prev : row) :
  chain (fun r1 r2 => agg r2 < agg r1) (prev :: l) -> fix_from prev l = l.
Proof.
  revert prev; induction l as [|r l IH]; intros prev H; [reflexivity|].
  destruct H as [H1 H2]. simpl.
  assert (E : fix_row prev r = r).
  { unfold fix_row. destruct (Qle_bool (agg prev) (agg r)) eqn:E; [|reflexivity].
    apply Qle_bool_iff in E. lra. }
  rewrite E, IH by exact H2. reflexivity.
Qed.

(** X17: the tie repair of the results table only lowers aggregates: ATAR, student count, cumulative count and percentage of every row are kept, and a table whose aggregates already strictly decrease is unchanged. *)
Theorem fix_ties_only_lowers (l : list row) :
  Forall2 (fun r r' => atar r' = atar r /\ students r' = students r /\ cumul r' = cumul r /\
                       cum_pct r' = cum_pct r /\ agg r' <= agg r) l (fix_ties l) /\
  (chain (fun r1 r2 => agg r2 < agg r1) l -> fix_ties l = l).
Proof.
  split.
  - destruct l as [|r l]; simpl; constructor.
    + unfold same_but_agg. repeat split; lra.
    + apply fix_from_same.
  - destruct l as [|r l]; simpl; [reflexivity|]. intros H. rewrite fix_from_id by exact H.
    reflexivity.
Qed.

End FixTiesExtra.

Section BlendExtra.
Import Blend.

Lemma bump_ge (prev x : Q) : x <= bump prev x.
Proof.
  unfold bump. destruct (Qle_bool x prev) eqn:E; [|lra].
  apply Qle_bool_iff in E. lra.
Qed.

Lemma forward_from_ge (l : list Q) (prev : Q) : Forall2 Qle l (forward_from prev l).
Proof.
  revert prev; induction l as [|x l IH]; intros prev; simpl; constructor; auto using bump_ge.
Qed.

Lemma forward_from_id (l : list Q) (prev : Q) : chain Qlt (prev :: l) -> forward_from prev l = l.
Proof.
  revert prev; induction l as [|x l IH]; intros prev H; [reflexivity|].
  destruct H as [H1 H2]. simpl.
  assert (E : bump prev x = x).
  { unfold bump. destruct (Qle_bool x prev) eqn:E; [|reflexivity].
    apply Qle_bool_iff in E. lra. }
  rewrite E, IH by exact H2. reflexivity.
Qed.

Lemma forward_from_length (l : list Q) (prev : Q) : length (forward_from prev l) = length l.
Proof. revert prev; induction l; intros prev; simpl; auto. Qed.

Lemma enforce_monotone_ge (l : list Q) : Forall2 Qle l (enforce_monotone l).
Proof.
  destruct l as [|x l]; simpl; constructor; [lra|apply forward_from_ge].
Qed.

Lemma enforce_monotone_id (l : list Q) : chain Qlt l -> enforce_monotone l = l.
Proof.
  destruct l as [|x l]; simpl; [reflexivity|]. intros H. rewrite forward_from_id by exact H.
  reflexivity.
Qed.

Lemma enforce_monotone_length (l : list Q) : length (enforce_monotone l) = length l.
Proof. destruct l; simpl; [reflexivity|]. rewrite forward_from_length. reflexivity. Qed.

(** X15: the forward monotonicity pass keeps the length, never lowers a value, and leaves a strictly increasing list unchanged. *)
Theorem enforce_monotone_minimal (l : list Q) :
  length (enforce_monotone l) = length l /\
  Forall2 Qle l (enforce_monotone l) /\
  (chain Qlt l -> enforce_monotone l = l).
Proof.
  split; [apply enforce_monotone_length|split; [apply enforce_monotone_ge|apply enforce_monotone_id]].
Qed.

Lemma Qle_bool_false (x y : Q) : Qle_bool x y = false -> y < x.
Proof.
  intros E. apply Qnot_le_lt. intros C. apply Qle_bool_iff in C. congruence.
Qed.

Lemma weight_p_props (plo phi ylo yhi a : Q) :
  0 <= fst (blend_weights plo phi ylo yhi a) <= W_PREV /\
  (in_prev plo phi a = false -> fst (blend_weights plo phi ylo yhi a) = 0).
Proof.
  unfold blend_weights. cbv zeta. cbn [fst]. unfold in_prev.
  destruct (Qle_bool plo a) eqn:E1, (Qle_bool a phi) eqn:E2; cbn [andb];
    try (split; [unfold W_PREV; lra|reflexivity]).
  destruct (Qle_bool FADE_ZONE_PREV (a - plo)) eqn:E3; cbn [negb];
    [split; [unfold W_PREV; lra|discriminate]|].
  split; [|discriminate].
  apply Qle_bool_iff in E1. apply Qle_bool_false in E3. unfold FADE_ZONE_PREV in *.
  assert (T : 0 <= (a - plo) / 8 <= 1).
  { split; [apply Qle_shift_div_l|apply Qle_shift_div_r]; lra. }
  set (t := (a - plo) / 8) in *. unfold W_PREV.
  assert (0 <= t * t) by nra. assert (0 <= t * t * t) by nra. assert (t * t * t <= 1) by nra.
  split; nra.
Qed.

Lemma weight_2_props (plo phi ylo yhi a : Q) :
  0 <= snd (blend_weights plo phi ylo yhi a) <= W_2023 /\
  (in_2023 ylo yhi a = false -> snd (blend_weights plo phi ylo yhi a) = 0).
Proof.
  unfold blend_weights. cbv zeta. cbn [snd]. unfold in_2023.
  destruct (Qle_bool ylo a) eqn:E1, (Qle_bool a yhi) eqn:E2; cbn [andb];
    try (split; [unfold W_2023; lra|reflexivity]).
  destruct (Qle_bool FADE_ZONE_2023 (a - ylo)) eqn:E3; cbn [negb];
    [split; [unfold W_2023; lra|discriminate]|].
  split; [|discriminate].
  apply Qle_bool_iff in E1. apply Qle_bool_false in E3. unfold FADE_ZONE_2023 in *.
  assert (T : 0 <= (a - ylo) / 2 <= 1).
  { split; [apply Qle_shift_div_l|apply Qle_shift_div_r]; lra. }
  set (t := (a - ylo) / 2) in *. unfold W_2023. split; nra.
Qed.

(** X16: the blend weights lie in [[0, 0.6]] and [[0, 0.4]]; when both weights sum to a positive total, the blended value lies between any bounds [L] and [U] that hold for each interpolator on whose range the point lies; otherwise it is the linear extension [y23_agg0 + slope0 (a - y23_lo)]. *)
Theorem blended_between (ip i23 : Q -> Q) (plo phi ylo yhi yagg slope a L U : Q) :
  (in_prev plo phi a = true -> L <= ip a <= U) ->
  (in_2023 ylo yhi a = true -> L <= i23 a <= U) ->
  let w := blend_weights plo phi ylo yhi a in
  0 <= fst w <= W_PREV /\ 0 <= snd w <= W_2023 /\
  (0 < fst w + snd w -> L <= blended_at ip i23 plo phi ylo yhi yagg slope a <= U) /\
  (fst w + snd w <= 0 -> blended_at ip i23 plo phi ylo yhi yagg slope a = yagg + slope * (a - ylo)).
Proof.
  intros Hp H2 w.
  destruct (weight_p_props plo phi ylo yhi a) as [Wp Zp].
  destruct (weight_2_props plo phi ylo yhi a) as [W2 Z2].
  change (blend_weights plo phi ylo yhi a) with w in Wp, Zp, W2, Z2.
  unfold blended_at. change (blend_weights plo phi ylo yhi a) with w.
  clearbody w. destruct w as [wp w2]. cbn [fst snd] in *.
  split; [exact Wp|split; [exact W2|split]].
  - intros Ht.
    assert (E : Qle_bool (wp + w2) 0 = false).
    { destruct (Qle_bool (wp + w2) 0) eqn:E; [|reflexivity]. apply Qle_bool_iff in E. lra. }
    rewrite E. cbn [negb].
    assert (Bp : wp * L <= wp * (if in_prev plo phi a then ip a else 0) <=
                 wp * U).
    { destruct (in_prev plo phi a).
      - destruct (Hp eq_refl). split; nra.
      - rewrite (Zp eq_refl). lra. }
    assert (B2 : w2 * L <= w2 * (if in_2023 ylo yhi a then i23 a else 0) <= w2 * U).
    { destruct (in_2023 ylo yhi a).
      - destruct (H2 eq_refl). split; nra.
      - rewrite (Z2 eq_refl). lra. }
    split; [apply Qle_shift_div_l|apply Qle_shift_div_r]; try exact Ht; nra.
  - intros Ht.
    assert (E : Qle_bool (wp + w2) 0 = true) by (apply Qle_bool_iff; exact Ht).
    rewrite E. reflexivity.
Qed.

End BlendExtra.

Section ReferenceExtra.
Import Reference.

Lemma insert_by_atar_perm (p : Q * Q) (l : list (Q * Q)) :
  Permutation (insert_by_atar p l) (p :: l).
Proof.
  induction l as [|y l IH]; simpl; [reflexivity|].
  destruct (Qle_bool (snd p) (snd y)); [reflexivity|].
  rewrite IH. apply perm_swap.
Qed.

Lemma sort_by_atar_perm (l : list (Q * Q)) : Permutation (sort_by_atar l) l.
Proof.
  induction l as [|p l IH]; simpl; [reflexivity|].
  rewrite insert_by_atar_perm. apply perm_skip, IH.
Qed.

Definition asc (l : list (Q * Q)) : Prop := chain (fun p q => snd p <= snd q) l.

Lemma insert_by_atar_chain (p z : Q * Q) (l : list (Q * Q)) :
  snd z <= snd p -> asc (z :: l) -> asc (z :: insert_by_atar p l).
Proof.
  revert z; induction l as [|y l IH]; intros z Hz H; simpl.
  - split; [exact Hz|exact I].
  - destruct H as [Hzy Hl]. destruct (Qle_bool (snd p) (snd y)) eqn:E.
    + apply Qle_bool_iff in E. repeat split; auto.
    + apply Qle_bool_false in E. split; [exact Hzy|]. apply IH; [lra|exact Hl].
Qed.

Lemma sort_by_atar_sorted (l : list (Q * Q)) : asc (sort_by_atar l).
Proof.
  induction l as [|p l IH]; simpl; [exact I|].
  change (asc (insert_by_atar p (sort_by_atar l))).
  destruct (sort_by_atar l) as [|y l'] eqn:E; simpl; [exact I|].
  destruct (Qle_bool (snd p) (snd y)) eqn:F.
  - apply Qle_bool_iff in F. split; [exact F|exact IH].
  - apply Qle_bool_false in F. apply insert_by_atar_chain; [lra|exact IH].
Qed.

Lemma group_runs_head (g t : Q) (l : list (Q * Q)) :
  exists gs rest, group_runs ((g, t) :: l) = (t, gs) :: rest.
Proof.
  simpl. destruct (group_runs l) as [|[t' gs] rest].
  - eexists _, _. reflexivity.
  - destruct (Qeq_bool t' t); eexists _, _; reflexivity.
Qed.

Lemma group_runs_chain (l : list (Q * Q)) : asc l -> chain Qlt (map fst (group_runs l)).
Proof.
  induction l as [|[g t] l IH]; intros H; simpl; [exact I|].
  assert (IH' : chain Qlt (map fst (group_runs l))) by (apply IH; destruct l; [exact I|apply H]).
  destruct l as [|[g' t1] l'] eqn:El; [exact I|].
  destruct H as [Ht _]. cbn [snd] in Ht.
  destruct (group_runs_head g' t1 l') as [gs [rest Hg]]. rewrite Hg in IH' |- *.
  destruct (Qeq_bool t1 t) eqn:E.
  - apply Qeq_bool_iff in E. cbn [map fst] in IH' |- *.
    destruct rest as [|[t2 gs2] rest]; [exact I|]. destruct IH' as [H1 H2].
    split; [cbn [fst] in *; lra|exact H2].
  - apply Qeq_bool_neq in E. cbn [map fst chain]. split; [|exact IH'].
    apply Qle_lteq in Ht. destruct Ht as [Ht|Ht]; [exact Ht|]. exfalso. apply E. lra.
Qed.

Lemma group_runs_atars (l : list (Q * Q)) (t : Q) :
  In t (map fst (group_runs l)) -> In t (map snd l).
Proof.
  induction l as [|[g t0] l IH]; simpl; [tauto|].
  destruct (group_runs l) as [|[t' gs] rest] eqn:E; simpl.
  - tauto.
  - destruct (Qeq_bool t' t0); simpl.
    + intros [<-|H]; [left; reflexivity|]. right. apply IH. right. exact H.
    + intros [<-|H]; [left; reflexivity|]. right. apply IH. exact H.
Qed.

Lemma group_runs_covers (l : list (Q * Q)) (p : Q * Q) :
  In p l -> exists t, In t (map fst (group_runs l)) /\ t == snd p.
Proof.
  induction l as [|[g t0] l IH]; simpl; [tauto|].
  intros Hp.
  destruct (group_runs l) as [|[t' gs] rest] eqn:E.
  - destruct Hp as [<-|Hp].
    + exists t0. split; [left; reflexivity|reflexivity].
    + destruct (IH Hp) as [t [[] _]].
  - destruct Hp as [<-|Hp].
    + destruct (Qeq_bool t' t0); exists t0; (split; [left; reflexivity|reflexivity]).
    + destruct (IH Hp) as [t [Ht Htp]].
      destruct (Qeq_bool t' t0) eqn:Eq; simpl in Ht |- *.
      * destruct Ht as [<-|Ht].
        -- apply Qeq_bool_iff in Eq. exists t0. split; [left; reflexivity|]. lra.
        -- exists t. split; [right; exact Ht|exact Htp].
      * exists t. split; [right; exact Ht|exact Htp].
Qed.

Lemma group_runs_concat (l : list (Q * Q)) :
  concat (map snd (group_runs l)) = map fst l.
Proof.
  induction l as [|[g t] l IH]; simpl; [reflexivity|].
  destruct (group_runs l) as [|[t' gs] rest] eqn:E; simpl in *.
  - rewrite <- IH. reflexivity.
  - destruct (Qeq_bool t' t); simpl; rewrite <- IH; reflexivity.
Qed.

(** X14: [clean_and_average] returns strictly increasing ATARs and strictly increasing aggregates of the same length; every returned ATAR is an input ATAR, every input ATAR is equal to a returned one, and the runs it averages contain exactly the input aggregates. *)
Theorem clean_and_average_shape (data : list (Q * Q)) :
  let r := clean_and_average data in
  chain Qlt (fst r) /\ chain Qlt (snd r) /\ length (snd r) = length (fst r) /\
  (forall t, In t (fst r) -> In t (map snd data)) /\
  (forall p, In p data -> exists t, In t (fst r) /\ t == snd p) /\
  Permutation (concat (map snd (grouped data))) (map fst data).
Proof.
  intros r. unfold r, clean_and_average, grouped. cbn [fst snd].
  split; [|split; [|split; [|split; [|split]]]].
  - apply group_runs_chain, sort_by_atar_sorted.
  - apply enforce_monotone_chain.
  - rewrite enforce_monotone_length, !length_map. reflexivity.
  - intros t Ht. apply group_runs_atars in Ht.
    apply (Permutation_in _ (Permutation_map snd (sort_by_atar_perm data))) in Ht. exact Ht.
  - intros p Hp. apply group_runs_covers.
    apply (Permutation_in _ (Permutation_sym (sort_by_atar_perm data))). exact Hp.
  - rewrite group_runs_concat. apply Permutation_map, sort_by_atar_perm.
Qed.

End ReferenceExtra.

Section BandsExtra.
Import Bands.
Local Open Scope Z_scope.

Definition nonneg_counts (d : dict) : Prop := Forall (fun kv => 0 <= snd kv) d.

Lemma set_nonneg (d : dict) (k v : Z) : nonneg_counts d -> 0 <= v -> nonneg_counts (set d k v).
Proof.
  unfold nonneg_counts. intros H Hv. induction H as [|[a b] d Hab H IH]; simpl.
  - constructor; [exact Hv|constructor].
  - destruct (a =? k); constructor; auto.
Qed.

Lemma fold_set_nonneg (g : nat * Z -> Z) (P : list (nat * Z)) (d : dict) :
  (forall ib, 0 <= g ib) -> nonneg_counts d ->
  nonneg_counts (fold_left (fun d' ib => set d' (snd ib) (g ib)) P d).
Proof.
  intros Hg. revert d; induction P as [|ib P IH]; intros d H; simpl; [exact H|].
  apply IH. apply set_nonneg; auto.
Qed.

Lemma split_range_nonneg (d : dict) (r : Z * Z * Z) :
  nonneg_counts d -> nonneg_counts (split_range d r).
Proof.
  intros H. destruct r as [[low high] total_count]. unfold split_range.
  destruct ((total_count - already_assigned d low high <=? 0) ||
            Nat.eqb (length (unassigned d low high)) 0) eqn:E; [exact H|].
  apply Bool.orb_false_iff in E. destruct E as [E1 E2].
  apply Z.leb_gt in E1. apply Nat.eqb_neq in E2.
  apply fold_set_nonneg; [|exact H].
  intros ib. destruct (Z.of_nat (fst ib) <? _); apply Z.add_nonneg_nonneg; try lia;
    apply Z.div_pos; lia.
Qed.

Lemma get_nonneg (d : dict) (k : Z) : nonneg_counts d -> 0 <= get d k 0.
Proof.
  unfold nonneg_counts. induction 1 as [|[a b] d Hab H IH]; simpl; [lia|].
  destruct (a =? k); auto.
Qed.

Lemma cumul_step_fst (d : dict) (bands : list Z) (L : list (Z * Z)) (r : Z) :
  map fst (fst (fold_left (cumul_step d) bands (L, r))) = map fst L ++ bands.
Proof.
  revert L r; induction bands as [|b bands IH]; intros L r; simpl; [rewrite app_nil_r; reflexivity|].
  unfold cumul_step at 2. cbn [fst snd]. rewrite IH, map_app, <- app_assoc. reflexivity.
Qed.

Lemma last_in {A} (l : list A) (x : A) : l <> [] -> In (last l x) l.
Proof.
  induction l as [|a l IH]; intros H; [congruence|].
  destruct l as [|b l]; [left; reflexivity|]. right. apply IH. discriminate.
Qed.

Lemma cumul_step_chain (d : dict) (bands : list Z) (L : list (Z * Z)) (r : Z) :
  nonneg_counts d -> chain Z.le (map snd L) -> (forall x, In x (map snd L) -> x <= r) ->
  chain Z.le (map snd (fst (fold_left (cumul_step d) bands (L, r)))).
Proof.
  intros Hd. revert L r; induction bands as [|b bands IH]; intros L r HL Hr; simpl; [exact HL|].
  unfold cumul_step at 2. cbn [fst snd]. pose proof (get_nonneg d b Hd).
  apply IH.
  - rewrite map_app. cbn [map snd]. apply (chain_snoc _ _ _ 0). exact HL.
    intros Hne. apply Z.le_trans with r; [apply Hr, last_in, Hne|lia].
  - intros x Hx. rewrite map_app in Hx. apply in_app_or in Hx.
    destruct Hx as [Hx|[<-|[]]]; [apply Hr in Hx|]; cbn [snd]; lia.
Qed.

Lemma insert_desc_chain_Z (x z : Z) (l : list Z) :
  x <= z -> chain Z.ge (z :: l) -> chain Z.ge (z :: insert_desc x l).
Proof.
  revert z; induction l as [|y l IH]; intros z Hxz H; simpl.
  - split; [lia|exact I].
  - destruct H as [Hyz Hl]. destruct (y <=? x) eqn:E.
    + apply Z.leb_le in E. repeat split; auto; lia.
    + apply Z.leb_gt in E. split; [exact Hyz|]. apply IH; auto; lia.
Qed.

Lemma sort_desc_chain_Z (l : list Z) : chain Z.ge (sort_desc l).
Proof.
  induction l as [|x l IH]; simpl; [exact I|].
  change (chain Z.ge (insert_desc x (sort_desc l))).
  destruct (sort_desc l) as [|y l'] eqn:E; simpl; [exact I|].
  destruct (y <=? x) eqn:F.
  - apply Z.leb_le in F. split; [lia|exact IH].
  - apply Z.leb_gt in F. apply insert_desc_chain_Z; [lia|exact IH].
Qed.

Lemma chain_ge_gt (l : list Z) : chain Z.ge l -> NoDup l -> chain Z.gt l.
Proof.
  induction l as [|x l IH]; intros H N; [exact I|].
  destruct l as [|y l]; [exact I|]. destruct H as [H1 H2].
  inversion N as [|? ? Hx N']; subst. split.
  - assert (x <> y) by (intros ->; apply Hx; left; reflexivity). lia.
  - apply IH; assumption.
Qed.

Lemma table13_nonneg (t13 : list (Z * Z)) (d : dict) :
  Forall (fun ac => 0 <= snd ac) t13 -> nonneg_counts d ->
  nonneg_counts (fold_left (fun d ac => set d (fst ac) (snd ac)) t13 d).
Proof.
  intros H. revert d; induction H as [|ac t13 Hac H IH]; intros d Hd; simpl; [exact Hd|].
  apply IH, set_nonneg; assumption.
Qed.

(** X18: when the student counts of the ATAR table are non-negative, every per-band count of [band_students] is non-negative, the cumulative table lists the bands of the distribution (a permutation of its keys) in strictly decreasing order, and its running totals never decrease. *)
Theorem band_distribution_shape (t13 : list (Z * Z)) (t14 : list (Z * Z * Z)) :
  Forall (fun ac => 0 <= snd ac) t13 ->
  let d := band_students t13 t14 in
  Forall (fun kv => 0 <= snd kv) d /\
  Permutation (map fst (cumulative d)) (keys d) /\
  chain Z.gt (map fst (cumulative d)) /\
  chain Z.le (map snd (cumulative d)).
Proof.
  intros H13 d.
  assert (Hd : nonneg_counts d).
  { unfold d, band_students.
    assert (H0 := table13_nonneg t13 [] H13 (Forall_nil _)). revert H0.
    generalize (fold_left (fun d ac => set d (fst ac) (snd ac)) t13 []).
    induction t14 as [|r t14 IH]; intros d0 H0; simpl; [exact H0|].
    apply IH, split_range_nonneg, H0. }
  assert (Hf : map fst (cumulative d) = sort_desc (keys d)).
  { unfold cumulative. fold (cumul_step d). rewrite cumul_step_fst. reflexivity. }
  split; [exact Hd|split; [|split]].
  - rewrite Hf. apply sort_desc_perm.
  - rewrite Hf. apply chain_ge_gt; [apply sort_desc_chain_Z|].
    apply (Permutation_NoDup (Permutation_sym (sort_desc_perm _))).
    apply NoDup_keys_band_students.
  - unfold cumulative. fold (cumul_step d). apply cumul_step_chain; [exact Hd|exact I|].
    intros x [].
Qed.

Lemma bands_from_ge (b : Z) (n : nat) (x : Z) :
  In x (bands_from b n) -> b - 5 * (Z.of_nat n - 1) <= x.
Proof.
  revert b; induction n as [|n IH]; intros b H; simpl in H; [contradiction|].
  destruct H as [<-|H]; [lia|]. specialize (IH _ H). lia.
Qed.

Lemma bands_in_range_bounds (low high x : Z) :
  In x (bands_in_range low high) -> low <= x <= high.
Proof.
  unfold bands_in_range. intros H. split; [|exact (bands_from_le _ _ _ H)].
  destruct (Z.le_gt_cases 1 ((high - low) / 5 + 1)) as [P|P].
  - apply bands_from_ge in H. rewrite Z2Nat.id in H by lia.
    pose proof (Z.mul_div_le (high - low) 5 ltac:(lia)). lia.
  - replace (Z.to_nat ((high - low) / 5 + 1)) with 0%nat in H by lia. contradiction.
Qed.

Lemma mem_set (d : dict) (k v x : Z) : mem (set d k v) x = (k =? x) || mem d x.
Proof.
  induction d as [|[a b] d IH]; simpl; [rewrite Bool.orb_false_r; reflexivity|].
  destruct (Z.eqb_spec a k) as [->|Hak]; simpl.
  - destruct (k =? x); reflexivity.
  - rewrite IH. destruct (a =? x), (k =? x); reflexivity.
Qed.

Lemma fold_set_mem (g : nat * Z -> Z) (P : list (nat * Z)) (d : dict) (x : Z) :
  ~ In x (map snd P) ->
  mem (fold_left (fun d' ib => set d' (snd ib) (g ib)) P d) x = mem d x.
Proof.
  revert d; induction P as [|ib P IH]; intros d H; simpl; [reflexivity|].
  simpl in H. rewrite IH by tauto. rewrite mem_set.
  destruct (Z.eqb_spec (snd ib) x); [tauto|reflexivity].
Qed.

(** X19: spreading a range [low-high] of the aggregate table over its bands ([split_range]) never adds, removes or changes a band outside [[low, high]]. *)
Theorem split_range_local (d : dict) (low high total_count k : Z) :
  k < low \/ high < k ->
  get (split_range d (low, high, total_count)) k 0 = get d k 0 /\
  mem (split_range d (low, high, total_count)) k = mem d k.
Proof.
  intros Hk. unfold split_range.
  destruct (_ || _); [split; reflexivity|].
  assert (Hn : ~ In k (map snd (combine (seq 0 (length (unassigned d low high)))
                                         (sort_desc (unassigned d low high))))).
  { rewrite map_snd_combine.
    - intros Hin. apply (Permutation_in _ (sort_desc_perm _)) in Hin.
      unfold unassigned in Hin. apply filter_In in Hin. destruct Hin as [Hin _].
      apply bands_in_range_bounds in Hin. lia.
    - rewrite length_seq. apply Permutation_length. symmetry. apply sort_desc_perm. }
  split.
  - match goal with |- get (fold_left (fun d' ib => set d' (snd ib) (@?g ib)) ?P d) k 0 = _ =>
      change (get (fold_sets g P d) k 0 = get d k 0) end.
    apply fold_sets_notin. exact Hn.
  - apply fold_set_mem. exact Hn.
Qed.

End BandsExtra.


(* ================================================================== *)
(** ** Instances of the further properties on concrete inputs *)

Lemma batch_summary_counts_witness :
  Forall (fun e : Batch.entry =>
            match snd e with Some p => ~ Batch.d25x p == 0 | None => True end)
    ([(String.EmptyString, String.EmptyString, Some (Batch.mkPct 30 50 70 85 98 20 40 60 70 80))]
     ++ [(String.EmptyString, String.EmptyString, None)]) /\
  (let rows := Batch.results zfit4 zfit3
       [(String.EmptyString, String.EmptyString, Some (Batch.mkPct 30 50 70 85 98 20 40 60 70 80))]
       [(String.EmptyString, String.EmptyString, None)]
       [(String.EmptyString, String.EmptyString, 5, 6, 7)]
       [(String.EmptyString, 91%Z, 12)] in
   Batch.count Batch.is_vet rows = 1%nat /\
   Batch.count Batch.is_no_data rows = (1 + 0)%nat /\
   Batch.count Batch.is_applied rows = 1%nat /\
   Batch.count Batch.has_polynomials rows =
     Batch.count Batch.has_polynomials
       [Batch.process_entry zfit4 zfit3
          (String.EmptyString, String.EmptyString, Some (Batch.mkPct 30 50 70 85 98 20 40 60 70 80))]).
Proof.
  assert (H : Forall (fun e : Batch.entry =>
            match snd e with Some p => ~ Batch.d25x p == 0 | None => True end)
    ([(String.EmptyString, String.EmptyString, Some (Batch.mkPct 30 50 70 85 98 20 40 60 70 80))]
     ++ [(String.EmptyString, String.EmptyString, None)])).
  { repeat constructor. cbn. intros E. vm_compute in E. discriminate. }
  split; [exact H|].
  exact (batch_summary_counts zfit4 zfit3
           [(String.EmptyString, String.EmptyString, Some (Batch.mkPct 30 50 70 85 98 20 40 60 70 80))]
           [(String.EmptyString, String.EmptyString, None)]
           [(String.EmptyString, String.EmptyString, 5, 6, 7)]
           [(String.EmptyString, 91%Z, 12)] H).
Defined.

Lemma build_general_reset_fixed_witness :
  0 < 30 /\
  (let s := Subject.build_general zfit4 zfit3 String.EmptyString String.EmptyString
              30 50 70 85 98 20 40 60 70 80 in
   Subject.reset_current zfit4 zfit3 s = s).
Proof.
  assert (H : 0 < 30) by (vm_compute; reflexivity).
  split; [exact H|].
  exact (build_general_reset_fixed zfit4 zfit3 String.EmptyString String.EmptyString
           30 50 70 85 98 20 40 60 70 80 H).
Defined.

Lemma fit_error_bounds_residuals_witness :
  let s := Subject.build_general zfit4 zfit3 String.EmptyString String.EmptyString
             30 50 70 85 98 20 40 60 70 80 in
  Subject.is_general (Subject.stype s) = true /\ Qeq_bool (Subject.p25x s) 0 = false /\
  (let s' := Subject.compute_polynomials zfit4 zfit3 s in
   0 <= Subject.max_fit_error s' /\
   Forall2 (fun x y => Qabs (Subject.eval4 (Subject.X4 s', Subject.X3 s', Subject.X2 s',
                                          Subject.X1 s', Subject.X0 s') x - y)
                       <= Subject.max_fit_error s')
     (Subject.anchors_x s') (Subject.anchors_y s')).
Proof.
  intros s.
  assert (H1 : Subject.is_general (Subject.stype s) = true) by (vm_compute; reflexivity).
  assert (H2 : Qeq_bool (Subject.p25x s) 0 = false) by (vm_compute; reflexivity).
  split; [exact H1|split; [exact H2|]].
  exact (fit_error_bounds_residuals zfit4 zfit3 s H1 H2).
Defined.

Lemma simulated_curve_bounds_witness :
  0 <= 50 /\ Forall (fun subj => Sim.max_y subj <= 50)
                [Sim.mkSimSubject String.EmptyString 0 0 0 0 1 0 100 50] /\
  (let c := Sim.simulate_aggregate_curve [Sim.mkSimSubject String.EmptyString 0 0 0 0 1 0 100 50] in
   length c = 201%nat /\
   chain (fun p q => fst p < fst q) c /\
   Forall (fun p => 0 <= snd p <= 5 * 50) c).
Proof.
  assert (H1 : 0 <= 50) by (vm_compute; discriminate).
  assert (H2 : Forall (fun subj => Sim.max_y subj <= 50)
                 [Sim.mkSimSubject String.EmptyString 0 0 0 0 1 0 100 50]).
  { repeat constructor. vm_compute. discriminate. }
  split; [exact H1|split; [exact H2|]].
  exact (simulated_curve_bounds [Sim.mkSimSubject String.EmptyString 0 0 0 0 1 0 100 50] 50 H1 H2).
Defined.

Lemma blended_between_witness :
  (Blend.in_prev 0 100 50 = true -> 5 <= 5 <= 5) /\
  (Blend.in_2023 0 100 50 = true -> 5 <= 5 <= 5) /\
  (let w := Blend.blend_weights 0 100 0 100 50 in
   0 <= fst w <= Blend.W_PREV /\ 0 <= snd w <= Blend.W_2023 /\
   (0 < fst w + snd w -> 5 <= Blend.blended_at (fun _ => 5) (fun _ => 5) 0 100 0 100 0 0 50 <= 5) /\
   (fst w + snd w <= 0 ->
    Blend.blended_at (fun _ => 5) (fun _ => 5) 0 100 0 100 0 0 50 = 0 + 0 * (50 - 0))).
Proof.
  assert (H1 : Blend.in_prev 0 100 50 = true -> 5 <= 5 <= 5) by (intros _; split; apply Qle_refl).
  assert (H2 : Blend.in_2023 0 100 50 = true -> 5 <= 5 <= 5) by (intros _; split; apply Qle_refl).
  split; [exact H1|split; [exact H2|]].
  exact (blended_between (fun _ => 5) (fun _ => 5) 0 100 0 100 0 0 50 5 5 H1 H2).
Defined.

Lemma band_distribution_shape_witness :
  Forall (fun ac => (0 <= snd ac)%Z) Bands.table13 /\
  (let d := Bands.band_students Bands.table13 Bands.table14 in
   Forall (fun kv => (0 <= snd kv)%Z) d /\
   Permutation (map fst (Bands.cumulative d)) (Bands.keys d) /\
   chain Z.gt (map fst (Bands.cumulative d)) /\
   chain Z.le (map snd (Bands.cumulative d))).
Proof.
  assert (H : Forall (fun ac => (0 <= snd ac)%Z) Bands.table13).
  { unfold Bands.table13. repeat constructor; cbn; discriminate. }
  split; [exact H|].
  exact (band_distribution_shape Bands.table13 Bands.table14 H).
Defined.

Lemma split_range_local_witness :
  ((9000 < 9900)%Z \/ (9995 < 9000)%Z) /\
  Bands.get (Bands.split_range [] (9900, 9995, 751)%Z) 9000%Z 0%Z = Bands.get [] 9000%Z 0%Z /\
  Bands.mem (Bands.split_range [] (9900, 9995, 751)%Z) 9000%Z = Bands.mem [] 9000%Z.
Proof.
  assert (H : (9000 < 9900)%Z \/ (9995 < 9000)%Z) by (left; reflexivity).
  split; [exact H|].
  exact (split_range_local [] 9900 9995 751 9000 H).
Defined.
